(** * jQuery MVC: the notifier, the module derivation and the registries

    A shallow embedding of [jquery.mvc.js] (the notifier singleton, the
    [Notification] and [Observer] constructors, [$.mvc.module], the base
    [Module] prototype, the model and view registries and the
    controller), with the properties of its publish/subscribe core, of
    its inheritance mechanism and of its registries.

    Conventions.  A JavaScript object used as a dictionary is a [gmap]
    keyed by strings, read through [Host.read]: a dictionary made by
    [{}] shows, under the names of the members of [Object.prototype],
    those members where nothing was stored.  An array is a [list] read
    with [!!] and written with [<[i:=x]>].  The closure variables of a
    file ([observerMap], [notificationQueue], [notificationSync],
    [proxyMap], ...) are the fields of a state record which every
    operation takes; an operation gives back a [Host.outcome], the state
    it returns in or the exception it throws and the state it leaves. *)

From Stdlib Require Import ZArith Ascii.
From stdpp Require Import base list gmap strings pretty.

Local Open Scope Z_scope.

(** * The program *)

(** ** The host *)

Module Host.

(** What a dictionary made by [{}] shows under a name although nothing
    was stored there: a member of [Object.prototype].  The members are
    functions, each with the number of its parameters (its [length]),
    and, under [__proto__], the prototype object itself. *)
Inductive member :=
| Method (arity : nat)
| Prototype.

(** The members of [Object.prototype]: those of ECMAScript 5.1
    (15.2.4) and the ones which the engines add to them. *)
Definition Object_prototype : list (string * member) :=
  [("constructor", Method 1); ("toString", Method 0); ("toLocaleString", Method 0);
   ("valueOf", Method 0); ("hasOwnProperty", Method 1); ("isPrototypeOf", Method 1);
   ("propertyIsEnumerable", Method 1); ("__defineGetter__", Method 2);
   ("__defineSetter__", Method 2); ("__lookupGetter__", Method 1);
   ("__lookupSetter__", Method 1); ("__proto__", Prototype)]%string.

Fixpoint assoc {A} (name : string) (l : list (string * A)) : option A :=
  match l with
  | [] => None
  | (k, a) :: l => if String.eqb k name then Some a else assoc name l
  end.

Definition inherited (name : string) : option member := assoc name Object_prototype.

(** [dictionary[ name ]] for a dictionary made by [{}]: what was stored
    under the name, or else what [Object.prototype] holds under it, or
    else [undefined]. *)
Inductive property (A : Type) :=
| Own (a : A)
| Inherited (m : member)
| Undefined.
Arguments Own {A} a.
Arguments Inherited {A} m.
Arguments Undefined {A}.

Definition read {A} (dictionary : gmap string A) (name : string) : property A :=
  match dictionary !! name with
  | Some a => Own a
  | None =>
      match inherited name with
      | Some m => Inherited m
      | None => Undefined
      end
  end.

(** [dictionary[ name ] !== undefined] *)
Definition defined {A} (dictionary : gmap string A) (name : string) : bool :=
  match read dictionary name with
  | Undefined => false
  | _ => true
  end.

(** What is thrown: a [TypeError] or a [ReferenceError] of the host, or
    a value thrown by the program, which is a string here.  [Unfinished]
    is no exception of the host: a computation of the model which was
    not given the depth it needs ends with it. *)
Inductive exception :=
| TypeError
| ReferenceError
| Exception (message : string)
| Unfinished.

(** How a call ends, and the state it ends in: the closure variables
    keep what was done to them before an exception. *)
Inductive outcome (S : Type) :=
| Returned (s : S)
| Thrown (e : exception) (s : S).
Arguments Returned {S} s.
Arguments Thrown {S} e s.

Definition state_of {S} (r : outcome S) : S :=
  match r with
  | Returned s | Thrown _ s => s
  end.

(** [$.each( l, f )], and any loop over [l]: an exception ends it. *)
Fixpoint each {A S} (f : A → S → outcome S) (l : list A) (s : S) : outcome S :=
  match l with
  | [] => Returned s
  | x :: l =>
      match f x s with
      | Returned s => each f l s
      | Thrown e s => Thrown e s
      end
  end.

End Host.

(** ** jQuery.mvc.notifier *)

Module Notifier.

Export Host.

Section notifier.

(** The values used as observer contexts ([Ctx]) and as notification
    bodies ([Body]) belong to the host program.  [loose_eq] is the
    host's [==] on contexts: the only operation [remove] performs on
    them.  Nothing is assumed about it. *)
Context {Ctx Body : Type}.
Variable loose_eq : Ctx → Ctx → bool.

(** [$.mvc.Notification]: a name and a body. *)
Record Notification := { name : string; body : Body }.

(** [$.mvc.Observer]: [fn] is the identity of the observing function,
    [context] the object it is called on. *)
Record Observer := { fn : nat; context : Ctx }.

(** What an observing function may do with the notifier while it runs:
    register and remove observers and broadcast, each inside a
    [try ... catch] or not, and throw. *)
Inductive call :=
| Register (notificationName : string) (observer : Observer)
| Remove (notificationName : string) (context : Ctx)
| Notify (notification : Notification)
| Throw (message : string)
| Try (c : call).

(** [$.mvc.notifier.options] *)
Record Options := { maxSync : Z; delay : Z }.

Definition default_options : Options := {| maxSync := 5; delay := 10 |}.

Variable o : Options.

(** A queued function: the closure over [observer] and [notification]
    which [notify] hands to [notificationQueue.queue]. *)
Definition task : Type := Observer * Notification.

(** What can be seen from outside: the calls of observing functions, in
    order, and the calls of [setTimeout]. *)
Inductive event :=
| Called (observer : Observer) (notification : Notification)
| Yielded (delay : Z).

(** The closure variables of the notifier.  [observerMap] holds what
    was stored in the dictionary; what it shows besides is in
    [Host.read].  [notificationQueue] is a jQuery fx queue: an array of
    functions which, while a function of the queue is running or
    waiting for its [next], has the string ["inprogress"] at its head;
    [inprogress] says whether that sentinel is there and
    [notificationQueue] holds the functions after it.  [timers] are the
    pending [setTimeout( next, delay )]. *)
Record state := State {
  observerMap : gmap string (list Observer);
  notificationQueue : list task;
  inprogress : bool;
  notificationSync : Z;
  timers : list Z;
  log : list event
}.

Definition initial : state :=
  {| observerMap := ∅; notificationQueue := []; inprogress := false;
     notificationSync := 0; timers := []; log := [] |}.

Definition set_observerMap (m : gmap string (list Observer)) (s : state) : state :=
  State m (notificationQueue s) (inprogress s) (notificationSync s) (timers s) (log s).

Definition set_queue (b : bool) (q : list task) (s : state) : state :=
  State (observerMap s) q b (notificationSync s) (timers s) (log s).

Definition set_notificationSync (z : Z) (s : state) : state :=
  State (observerMap s) (notificationQueue s) (inprogress s) z (timers s) (log s).

Definition set_timers (ts : list Z) (s : state) : state :=
  State (observerMap s) (notificationQueue s) (inprogress s) (notificationSync s) ts (log s).

Definition emit (e : event) (s : state) : state :=
  State (observerMap s) (notificationQueue s) (inprogress s) (notificationSync s)
        (timers s) (log s ++ [e]).

(** The body of the observing function [fn], called on [context] with a
    notification: the calls it makes, which may depend on everything
    that has happened before, the state it is called in. *)
Variable handler : nat → Ctx → Notification → state → list call.

(** The test [observerMap[ notificationName ] !== undefined] which
    [register], [remove] and [notify] perform. *)
Definition has (notificationName : string) (s : state) : bool :=
  defined (observerMap s) notificationName.

(** [$.mvc.notifier.register].  Under a name which the map only
    inherits, [observers] is a member of [Object.prototype], which has
    no [push]: the call throws. *)
Definition register (notificationName : string) (observer : Observer) (s : state)
  : outcome state :=
  match read (observerMap s) notificationName with
  | Own observers =>
      Returned
        (set_observerMap (<[notificationName := observers ++ [observer]]> (observerMap s)) s)
  | Inherited _ => Thrown TypeError s
  | Undefined =>
      Returned (set_observerMap (<[notificationName := [observer]]> (observerMap s)) s)
  end.

(** The [for] loop of [remove]: [i] is the index examined, [n] the
    number of observers kept so far.  A matching observer is overwritten
    by the last kept one and [i] is examined again.  Every turn moves
    [i] and [n] one closer, so [n - i] turns are enough; [fuel] counts
    them. *)
Fixpoint remove_loop (fuel : nat) (ctx : Ctx) (observers : list Observer) (i n : nat)
  : list Observer * nat :=
  match fuel with
  | O => (observers, n)
  | S fuel =>
      if (i <? n)%nat then
        match observers !! i, observers !! (n - 1)%nat with
        | Some oi, Some last =>
            if loose_eq (context oi) ctx
            then remove_loop fuel ctx (<[i := last]> observers) i (n - 1)
            else remove_loop fuel ctx observers (i + 1) n
        | _, _ => (observers, n)
        end
      else (observers, n)
  end.

(** [$.mvc.notifier.remove].  Under a name which the map only inherits,
    [observers] is a member of [Object.prototype].  A function without
    parameters has the length 0: the loop is not entered and [delete]
    finds no property of the map.  Of a function with parameters,
    [observers[ 0 ]] is [undefined] and reading its [context] throws.
    [Object.prototype] itself, under [__proto__], has no length: the
    loop is not entered, [n === 0] fails, and [observers.length = n]
    stores [undefined], which nothing here tells from no property. *)
Definition remove (notificationName : string) (ctx : Ctx) (s : state) : outcome state :=
  match read (observerMap s) notificationName with
  | Own observers =>
      let '(observers, n) :=
        remove_loop (length observers) ctx observers 0 (length observers) in
      if (n =? 0)%nat
      then Returned (set_observerMap (delete notificationName (observerMap s)) s)
      else Returned
             (set_observerMap (<[notificationName := take n observers]> (observerMap s)) s)
  | Inherited (Method (S _)) => Thrown TypeError s
  | Inherited _ => Returned s
  | Undefined => Returned s
  end.

(** [notificationQueue.queue( f )]: jQuery appends [f] and, when the
    queue is not in progress, starts it at once with [jQuery.dequeue]. *)
Definition queue (dequeue : state → outcome state) (t : task) (s : state) : outcome state :=
  let s := set_queue (inprogress s) (notificationQueue s ++ [t]) s in
  if inprogress s then Returned s else dequeue s.

(** [$.mvc.notifier.notify], given [jQuery.dequeue]; the list bound by
    the [match] is the copy [observers.slice()].  A member of
    [Object.prototype] has no [slice]. *)
Definition notify_with (dequeue : state → outcome state) (notification : Notification)
  (s : state) : outcome state :=
  match read (observerMap s) (name notification) with
  | Own observers => each (λ observer, queue dequeue (observer, notification)) observers s
  | Inherited _ => Thrown TypeError s
  | Undefined => Returned s
  end.

(** One call made by an observing function, or by the program. *)
Fixpoint perform (dequeue : state → outcome state) (c : call) (s : state) : outcome state :=
  match c with
  | Register notificationName observer => register notificationName observer s
  | Remove notificationName ctx => remove notificationName ctx s
  | Notify notification => notify_with dequeue notification s
  | Throw message => Thrown (Exception message) s
  | Try c => Returned (state_of (perform dequeue c s))
  end.

(** [$.mvc.Observer.prototype.notify]: [this.fn.call( this.context, notification )] *)
Definition Observer_notify (dequeue : state → outcome state) (observer : Observer)
  (notification : Notification) (s : state) : outcome state :=
  each (perform dequeue) (handler (fn observer) (context observer) notification s)
       (emit (Called observer notification) s).

(** [jQuery.dequeue] on [notificationQueue], whose functions are those
    which [notify] queues:
<<
    function( next ) {
      observer.notify( notification );
      notificationSync += 1;
      if ( notificationSync > o.maxSync ) {
        notificationSync = 0;
        setTimeout( next, o.delay );
      } else {
        next();
      }
    }
>>
    jQuery takes the first function off the queue, puts the sentinel
    back and calls the function with [next], which is [jQuery.dequeue]
    again; with no function left, the sentinel is gone.  Nothing catches
    what the observing function throws.  [depth] bounds the nesting of
    the calls of [next]. *)
Fixpoint run (depth : nat) (s : state) : outcome state :=
  match notificationQueue s with
  | [] => Returned (set_queue false [] s)
  | (observer, notification) :: q =>
      match depth with
      | O => Thrown Unfinished s
      | S depth =>
          let s := set_queue true q s in
          match Observer_notify (run depth) observer notification s with
          | Returned s =>
              let s := set_notificationSync (notificationSync s + 1) s in
              if notificationSync s >? maxSync o then
                let s := set_notificationSync 0 s in
                Returned (emit (Yielded (delay o)) (set_timers (timers s ++ [delay o]) s))
              else run depth s
          | Thrown e s => Thrown e s
          end
      end
  end.

(** The number of observing functions which a run of the queue calls
    before it yields, when that many are queued: the one which brings the
    counter above [maxSync] is the last, and there is always one. *)
Definition slice (s : state) : nat :=
  Z.to_nat (Z.max 1 (maxSync o - notificationSync s + 1)).

(** The calls of [next] nest as deep as observing functions are called
    before the queue yields, and one more finds the queue empty. *)
Definition dequeue (s : state) : outcome state := run (S (slice s)) s.

Definition notify (notification : Notification) (s : state) : outcome state :=
  notify_with dequeue notification s.

(** The host runs a pending timer: [next] is called. *)
Definition fire (s : state) : outcome state :=
  match timers s with
  | [] => Returned s
  | _ :: ts => dequeue (set_timers ts s)
  end.

(** What the host and the program do to the notifier, one step at a
    time: a call of [register], [remove] or [notify], a timer that
    comes due. *)
Inductive step :=
| Perform (c : call)
| Fire.

Definition exec (st : step) (s : state) : outcome state :=
  match st with
  | Perform c => perform dequeue c s
  | Fire => fire s
  end.

(** The state after a sequence of steps, whether they return or throw:
    after an exception the program and the host go on. *)
Definition execs (steps : list step) (s : state) : state :=
  foldl (λ s st, state_of (exec st s)) s steps.

(** The host runs [k] timers one after the other. *)
Fixpoint fires (k : nat) (s : state) : state :=
  match k with
  | O => s
  | S k => fires k (state_of (fire s))
  end.

(** As many turns of the timer as there are queued functions, and one
    more. *)
Definition settle (s : state) : state := fires (S (length (notificationQueue s))) s.

(** The observing functions called so far. *)
Fixpoint calls (l : list event) : list task :=
  match l with
  | [] => []
  | Called observer notification :: l => (observer, notification) :: calls l
  | Yielded _ :: l => calls l
  end.

(** The observers stored for a notification; none when nothing is
    stored under the name. *)
Definition observers_of (notificationName : string) (s : state) : list Observer :=
  default [] (observerMap s !! notificationName).

(** [remove] keeps an observer when [observers[ i ].context == context]
    is false. *)
Definition kept (ctx : Ctx) (observer : Observer) : Prop :=
  loose_eq (context observer) ctx = false.

#[global] Instance kept_dec ctx observer : Decision (kept ctx observer).
Proof. unfold kept. apply _. Defined.

(** No key of [observerMap] holds an empty array. *)
Definition no_dangling (s : state) : Prop :=
  ∀ notificationName observers,
    observerMap s !! notificationName = Some observers → observers ≠ [].

(** The state between two turns of the host when no exception has left
    the queue: the queue is in progress exactly when one timer is
    pending, and an idle queue is empty. *)
Definition consistent (s : state) : Prop :=
  if inprogress s then ∃ d, timers s = [d]
  else notificationQueue s = [] ∧ timers s = [].

(** The queue after an observing function has thrown: the sentinel is
    at its head and no timer will call [next]. *)
Definition stuck (s : state) : Prop := inprogress s = true ∧ timers s = [].

(** The fields of the dispatcher, which [register] and [remove] leave
    alone. *)
Definition dispatcher (s : state) : list task * bool * Z * list Z * list event :=
  (notificationQueue s, inprogress s, notificationSync s, timers s, log s).

(** The deliveries made so far followed by those still queued. *)
Definition deliveries (s : state) : list task :=
  calls (log s) ++ notificationQueue s.

(** Nothing queued, nothing in progress, no timer pending. *)
Definition idle (s : state) : Prop :=
  inprogress s = false ∧ notificationQueue s = [] ∧ timers s = [].

(** The numbers of observing functions called between two calls of
    [setTimeout]: before the first, between the first and the second,
    ..., after the last. *)
Fixpoint bursts (l : list event) : list nat :=
  match l with
  | [] => [O]
  | Called _ _ :: l =>
      match bursts l with
      | [] => [1%nat]
      | b :: bs => S b :: bs
      end
  | Yielded _ :: l => O :: bursts l
  end.

(** Between two turns of the host the counter is within its bounds; a
    timer is pending only for a queue in progress, it is the only one,
    set to [delay], and the counter is at zero; and a queue which is
    not in progress is empty. *)
Definition paced (s : state) : Prop :=
  0 ≤ notificationSync s ≤ Z.max 0 (maxSync o) ∧
  (timers s = [] ∨
   timers s = [delay o] ∧ inprogress s = true ∧ notificationSync s = 0) ∧
  (inprogress s = false → notificationQueue s = []).

(** The observing functions return, and among the deliveries they queue
    by broadcasting there is none of those which [P] holds of. *)
Definition discreet (P : task → Prop) : Prop :=
  ∀ dequeue observer notification s,
    inprogress s = true →
    ∃ s', Observer_notify dequeue observer notification s = Returned s' ∧
          Forall (λ t, ¬ P t)
                 (drop (length (notificationQueue s)) (notificationQueue s')).

(** The deliveries of notifications of a given name. *)
Definition named (e : string) (t : task) : Prop := name t.2 = e.

#[global] Instance named_dec e t : Decision (named e t).
Proof. unfold named. apply _. Defined.

(** A call of [register] or of [remove]. *)
Definition registry_call (c : call) : Prop :=
  match c with
  | Register _ _ | Remove _ _ => True
  | _ => False
  end.

End notifier.

(** *** Instances *)

(** Observers on contexts numbered by [nat], compared by their number,
    with observing functions that leave the notifier alone, under the
    default options. *)
Definition quiet : nat → nat → @Notification Z → @state nat Z → list (@call nat Z) :=
  λ _ _ _ _, [].

Definition tick : @Notification Z := {| name := "tick"; body := 1 |}.

Definition observer_no (i : nat) : @Observer nat := {| fn := i; context := i |}.

Definition thirteen : list (@Observer nat) := map observer_no (seq 0 13).

(** The registration of observers for [tick], then its broadcast. *)
Definition tick_to (observers : list (@Observer nat)) : list (@step nat Z) :=
  map (λ observer, Perform (Register "tick" observer)) observers ++ [Perform (Notify tick)].

(** The notifier once [tick] has been broadcast to thirteen observers:
    six of them have been called, the others wait for the timer. *)
Definition paused : @state nat Z :=
  execs Nat.eqb default_options quiet (tick_to thirteen) initial.

(** Observing functions of which the one numbered 0 removes the
    observers on context 1 from [tick] and registers a new observer for
    it. *)
Definition meddling : nat → nat → @Notification Z → @state nat Z → list (@call nat Z) :=
  λ f _ _ _,
    if Nat.eqb f 0
    then [Remove "tick" 1%nat; Register "tick" (observer_no 7)]
    else [].

(** Observing functions of which the one numbered 1 throws. *)
Definition failing : nat → nat → @Notification Z → @state nat Z → list (@call nat Z) :=
  λ f _ _ _, if Nat.eqb f 1 then [Throw "no"] else [].

(** Observing functions of which the one numbered 0 broadcasts
    [tock], once, when it is given [tick]. *)
Definition tock : @Notification Z := {| name := "tock"; body := 2 |}.

Definition relaying : nat → nat → @Notification Z → @state nat Z → list (@call nat Z) :=
  λ f _ notification _,
    if Nat.eqb f 0 && String.eqb (name notification) "tick" then [Notify tock] else [].

End Notifier.

(** ** jQuery.mvc.module and jQuery.mvc.Module *)

Module Derivation.

(** Addresses: the identity of an object or of a function. *)
Definition loc := nat.
Bind Scope nat_scope with loc.

(** What jQuery's deep [extend] asks of an object: whether
    [jQuery.isPlainObject] or [jQuery.isArray] holds of it.  [Other] is
    any other object: an instance made by a constructor, a DOM node, a
    jQuery selection. *)
Inductive kind := Plain | Array | Other.

#[global] Instance kind_eq_dec : EqDecision kind.
Proof. solve_decision. Defined.

#[local] Unset Elimination Schemes.

(** A value as seen from a variable that holds it.  An object is shown
    with its address and with the properties a [for ... in] loop over it
    gives, those of its prototype chain included (the indices, for an
    array); two occurrences of one address are one object.  A function
    is shown by its address alone. *)
Inductive value :=
| VUndefined
| VNull
| VBoolean (b : bool)
| VNumber (z : Z)
| VString (s : string)
| VFunction (f : loc)
| VObject (k : kind) (l : loc) (props : list (string * value)).
#[local] Set Elimination Schemes.

Definition kind_eqb (k k' : kind) : bool :=
  match k, k' with
  | Plain, Plain | Array, Array | Other, Other => true
  | _, _ => false
  end.

(** [target[ name ]] *)
Fixpoint get_prop (name : string) (props : list (string * value)) : value :=
  match props with
  | [] => VUndefined
  | (k, v) :: props => if String.eqb k name then v else get_prop name props
  end.

(** [target[ name ] = v] *)
Fixpoint set_prop (name : string) (v : value) (props : list (string * value))
  : list (string * value) :=
  match props with
  | [] => [(name, v)]
  | (k, w) :: props =>
      if String.eqb k name then (k, v) :: props else (k, w) :: set_prop name v props
  end.

Definition properties (v : value) : list (string * value) :=
  match v with
  | VObject _ _ props => props
  | _ => []
  end.

(** [$.isFunction] *)
Definition isFunction (v : value) : bool :=
  match v with
  | VFunction _ => true
  | _ => false
  end.

(** [===]: values of one type that are the same primitive, the same
    function or the same object. *)
Definition strict_eq (v w : value) : bool :=
  match v, w with
  | VUndefined, VUndefined | VNull, VNull => true
  | VBoolean b, VBoolean b' => Bool.eqb b b'
  | VNumber z, VNumber z' => Z.eqb z z'
  | VString s, VString s' => String.eqb s s'
  | VFunction f, VFunction f' => Nat.eqb f f'
  | VObject _ l _, VObject _ l' _ => Nat.eqb l l'
  | _, _ => false
  end.

(** [target === copy], for a target which is the object at [tl]. *)
Definition is_target (tl : loc) (copy : value) : bool :=
  match copy with
  | VObject _ l _ => Nat.eqb l tl
  | _ => false
  end.

(** The object which a deep [extend] merges a plain object or an array
    [copy] into: [src] when it is of the same kind, a new [{}] or [[]]
    otherwise.
<<
    clone = src && jQuery.isArray( src ) ? src : [];
    clone = src && jQuery.isPlainObject( src ) ? src : {};
>> *)
Definition clone_of (k : kind) (src : value) (nx : loc)
  : loc * list (string * value) * loc :=
  match src with
  | VObject k' l props => if kind_eqb k k' then (l, props, nx) else (nx, [], S nx)
  | _ => (nx, [], S nx)
  end.

(** [jQuery.extend( true, target, options )] for the target at [tl]
    whose properties are [tprops]; [nx] is the next free address.
<<
    if ( (options = arguments[ i ]) != null ) {
      for ( name in options ) {
        src = target[ name ];
        copy = options[ name ];
        if ( target === copy ) { continue; }
        if ( deep && copy && ( jQuery.isPlainObject( copy ) ||
             ( copyIsArray = jQuery.isArray( copy ) ) ) ) {
          ...
          target[ name ] = jQuery.extend( deep, clone, copy );
        } else if ( copy !== undefined ) {
          target[ name ] = copy;
        }
      }
    }
>>
    Only plain objects and arrays are merged into a clone; every other
    value, a function or an object of another kind among them, is
    stored as it is.  An [options] that is not an object gives no
    property here (the indices of a string are left out). *)
Fixpoint extend (tl : loc) (tprops : list (string * value)) (options : value) (nx : loc)
  {struct options} : list (string * value) * loc :=
  match options with
  | VObject _ _ ps =>
      (fix each (ps : list (string * value)) (tprops : list (string * value)) (nx : loc)
         {struct ps} : list (string * value) * loc :=
         match ps with
         | [] => (tprops, nx)
         | (name, copy) :: ps =>
             if is_target tl copy then each ps tprops nx
             else
               match copy with
               | VUndefined => each ps tprops nx
               | VObject Other _ _ => each ps (set_prop name copy tprops) nx
               | VObject k _ _ =>
                   let '(cl, cprops, nx) := clone_of k (get_prop name tprops) nx in
                   let '(cprops, nx) := extend cl cprops copy nx in
                   each ps (set_prop name (VObject k cl cprops) tprops) nx
               | _ => each ps (set_prop name copy tprops) nx
               end
         end) ps tprops nx
  | _ => (tprops, nx)
  end.

(** [$.extend( true, {}, a, b, ... )] *)
Definition extend_new (args : list value) (nx : loc) : value * loc :=
  let '(props, nx') :=
    foldl (λ '(props, nx') a, extend nx props a nx') ([], S nx) args in
  (VObject Plain nx props, nx').

(** What the program holds besides its values: the next free address,
    and the [__super] property of the functions that have one. *)
Record world := World { next : loc; supers : gmap loc value }.

(** A constructor function and its [prototype]. *)
Record Constructor := { ctor : loc; prototype : value }.

(** [name.split( "." )] *)
Fixpoint split (sep : Ascii.ascii) (s : string) : list string :=
  match s with
  | EmptyString => [EmptyString]
  | String c s =>
      if Ascii.eqb c sep then EmptyString :: split sep s
      else match split sep s with
           | [] => [String c EmptyString]
           | w :: ws => String c w :: ws
           end
  end.

(** What an object shows under a name besides the properties a
    [for ... in] loop gives: the members of [Object.prototype], which no
    loop gives.  Its functions are at the addresses from 7 on, in the
    order of [Host.Object_prototype]; under [__proto__] an object shows
    its prototype, an object, whose address does not matter here. *)
Fixpoint Object_member (name : string) (members : list (string * Host.member)) (l : loc)
  : value :=
  match members with
  | [] => VUndefined
  | (k, m) :: members =>
      if String.eqb k name then
        match m with
        | Host.Method _ => VFunction l
        | Host.Prototype => VObject Other l []
        end
      else Object_member name members (S l)
  end.

Definition Object_prototype_member (name : string) : value :=
  Object_member name Host.Object_prototype 7.

(** [object[ name ]] *)
Definition read_prop (name : string) (props : list (string * value)) : value :=
  if bool_decide (name ∈ props.*1) then get_prop name props
  else Object_prototype_member name.

(** The function which [module] hands to [$.each]:
<<
    function( name, fn ) {
      if ( name === "constructor" ) { return true; }
      var fnSuper = base.prototype[ name ];
      if ( fn !== fnSuper && $.isFunction( fn ) && $.isFunction( fnSuper ) ) {
        fn.__super = fnSuper;
      }
    }
>> *)
Definition record_super (base_prototype : list (string * value))
  (sup : gmap loc value) (entry : string * value) : gmap loc value :=
  let '(name, fn) := entry in
  if String.eqb name "constructor" then sup
  else
    let fnSuper := read_prop name base_prototype in
    if negb (strict_eq fn fnSuper) && isFunction fn && isFunction fnSuper then
      match fn with
      | VFunction f => <[f := fnSuper]> sup
      | _ => sup
      end
    else sup.

(** The function called on each of the entries which [$.each] visits. *)
Definition each_super (base_prototype entries : list (string * value))
  (sup : gmap loc value) : gmap loc value :=
  foldl (record_super base_prototype) sup entries.

Section derivation.

(** How many of the indices 0, 1, ... the host finds below a [length]
    which is a string, a function or an object: [i < length] makes a
    number of it first. *)
Variable indices : value → nat.

(** The number of indices [i] with [i < length]. *)
Definition below_length (length : value) : nat :=
  match length with
  | VUndefined | VNull | VBoolean false => 0%nat
  | VBoolean true => 1%nat
  | VNumber z => Z.to_nat z
  | _ => indices length
  end.

(** The entries which [$.each( object, callback )] hands to its
    callback, for an object which is no function:
<<
    length = object.length, isObj = length === undefined || jQuery.isFunction( object );
    if ( isObj ) {
      for ( name in object ) { callback.call( object[ name ], name, object[ name ] ) ... }
    } else {
      for ( ; i < length; ) { callback.call( object[ i ], i, object[ i++ ] ) ... }
    }
>>
    An object with a [length] is taken for an array: its indices are
    visited, not its properties. *)
Definition visited (object : list (string * value)) : list (string * value) :=
  match read_prop "length" object with
  | VUndefined => object
  | length =>
      map (λ i : nat, (pretty i, read_prop (pretty i) object)) (seq 0 (below_length length))
  end.

(** [$.mvc.module( name, base, proto )].  The new prototype is [baseObj],
    an object made by [new base()] with no argument, hence with nothing
    of its own: what it shows is what [base.prototype] shows, until
    properties are stored in it.  The new prototype is an object of kind
    [Other].  Storing the constructor in [$.mvc[ namespace ]] is left
    out.  Merging a plain object of [proto] into a plain object that
    [baseObj] inherits under another key than [options] also changes
    that object of the base prototype in place; the value of the base
    is not followed after the derivation, so this is not shown. *)
Definition module (name : string) (base : Constructor) (proto : value) (h : world)
  : Constructor * world :=
  let fullname := split "."%char name in
  let first := default EmptyString (fullname !! 0%nat) in
  let name :=
    match fullname !! 1%nat with
    | Some (String c s) => String c s
    | _ => first
    end in
  let namespace := if String.eqb first name then EmptyString else first in
  let baseObj := next h in
  let bprops := properties (prototype base) in
  let '(options, nx) := extend_new [get_prop "options" bprops] (S baseObj) in
  let bprops := set_prop "options" options bprops in
  let constructor := nx in
  let settings :=
    VObject Plain (S nx)
      [("name", VString name); ("namespace", VString namespace);
       ("base", prototype base); ("constructor", VFunction constructor)] in
  let '(bprops, nx) := extend baseObj bprops settings (S (S nx)) in
  let '(bprops, nx) := extend baseObj bprops proto nx in
  ({| ctor := constructor; prototype := VObject Other baseObj bprops |},
   {| next := nx;
      supers := each_super (properties (prototype base)) (visited bprops) (supers h) |}).

(** The functions of [$.mvc.Module.prototype], the constructor and the
    prototype itself have the first addresses. *)
Definition Module_function : loc := 0%nat.
Definition Module_prototype_object : loc := 1%nat.
Definition Module_options : loc := 2%nat.
Definition _createModule_function : loc := 3%nat.
Definition _super_function : loc := 4%nat.
Definition getName_function : loc := 5%nat.
Definition _notify_function : loc := 6%nat.

(** [$.mvc.Module], with its prototype, an object literal. *)
Definition Module : Constructor :=
  {| ctor := Module_function;
     prototype :=
       VObject Plain Module_prototype_object
         [("name", VString "module");
          ("options", VObject Plain Module_options []);
          ("_createModule", VFunction _createModule_function);
          ("_super", VFunction _super_function);
          ("getName", VFunction getName_function);
          ("_notify", VFunction _notify_function)] |}.

(** [$.mvc.Module.prototype._createModule], called on the object at
    [this] whose properties are [tprops]:
<<
    this.name = name;
    this.options = $.extend( true, {}, this.options, options );
>> *)
Definition _createModule (tprops : list (string * value)) (name options : value) (nx : loc)
  : list (string * value) * loc :=
  let tprops := set_prop "name" name tprops in
  let '(opts, nx) := extend_new [get_prop "options" tprops; options] nx in
  (set_prop "options" opts tprops, nx).

(** [new C( name, options )] for a constructor [C] made by [module]:
    the new object shows what [C.prototype] shows, and, arguments being
    given, [this._createModule] is applied to it.  That function is
    taken to be the one of [$.mvc.Module.prototype], which [C.prototype]
    holds unless a definition of the chain has replaced it ([inherits]);
    for the one of [$.mvc.Proxy] and the one of [$.mvc.Mediator] see
    [construct_proxy] and [construct_mediator]. *)
Definition construct (C : Constructor) (name options : value) (h : world) : value * world :=
  let this := next h in
  let '(tprops, nx) :=
    _createModule (properties (prototype C)) name options (S this) in
  (VObject Other this tprops, {| next := nx; supers := supers h |}).

(** [C.prototype] holds the [_createModule] of [$.mvc.Module.prototype]. *)
Definition inherits (C : Constructor) : Prop :=
  get_prop "_createModule" (properties (prototype C)) = VFunction _createModule_function.

(** A chain of derivations, each from the one before. *)
Fixpoint derive (chain : list (string * value)) (base : Constructor) (h : world)
  : Constructor * world :=
  match chain with
  | [] => (base, h)
  | (name, proto) :: chain =>
      let '(C, h) := module name base proto h in derive chain C h
  end.

End derivation.

(** How a call ends. *)
Inductive completion :=
| Return (v : value)
| Throw (v : value).

(** [v] in a condition *)
Definition truthy (v : value) : bool :=
  match v with
  | VUndefined | VNull => false
  | VBoolean b => b
  | VNumber z => negb (z =? 0)
  | VString s => negb (String.eqb s "")
  | VFunction _ | VObject _ _ _ => true
  end.

(** [caller.__super] *)
Definition get__super (sup : gmap loc value) (caller : value) : value :=
  match caller with
  | VFunction f => default VUndefined (sup !! f)
  | _ => VUndefined
  end.

Definition no_super : value :=
  VString "_super: No super-implementation available for this function.".

(** Who calls [_super]: code outside of any function, or the function
    at an address, which is strict mode code or not. *)
Inductive site :=
| Toplevel
| Within (f : loc) (strict : bool).

Section super.

(** The bodies of the functions of the program: [apply f this arguments]
    is [f.apply( this, arguments )], which may change the rest of the
    world, [W]. *)
Context {W : Type}.
Variable apply : loc → value → list value → W → completion * W.

(** What reading [caller] gives when the calling function is strict
    mode code: the engines of today give [null], those of ECMAScript 5
    throw a [TypeError] (15.3.5.4). *)
Variable hidden : completion.

(** [arguments.callee.caller] inside [_super]: the calling function, or
    [null] outside of any function. *)
Definition arguments_callee_caller (c : site) : completion :=
  match c with
  | Toplevel => Return VNull
  | Within f false => Return (VFunction f)
  | Within f true => hidden
  end.

(** [$.mvc.Module.prototype._super], called on [this] with [arguments]
    from the site [c]:
<<
    var caller = arguments.callee.caller;
    if ( caller && $.isFunction( caller.__super ) ) {
      return caller.__super.apply( this, arguments );
    } else {
      throw "_super: No super-implementation available for this function."
    }
>> *)
Definition _super (sup : gmap loc value) (c : site) (this : value) (arguments : list value)
  (w : W) : completion * W :=
  match arguments_callee_caller c with
  | Throw e => (Throw e, w)
  | Return caller =>
      if truthy caller && isFunction (get__super sup caller) then
        match get__super sup caller with
        | VFunction g => apply g this arguments w
        | _ => (Throw no_super, w)
        end
      else (Throw no_super, w)
  end.

End super.

(** *** The back-references *)

(** [fn], stored under [name] in the new prototype, is a function, the
    base prototype has a function under that name, its own or that of
    [Object.prototype], and the two are not the same function; [name]
    is not ["constructor"]. *)
Definition overrides (base_prototype : list (string * value)) (name : string)
  (fn : value) (f : loc) : Prop :=
  name ≠ "constructor"%string ∧ fn = VFunction f ∧
  isFunction (read_prop name base_prototype) = true ∧
  read_prop name base_prototype ≠ VFunction f.

(** *** Sharing *)

(** The addresses of the objects in a value, whatever their kind. *)
Fixpoint objs (v : value) : list loc :=
  match v with
  | VObject _ l props => l :: concat (map (λ p, objs p.2) props)
  | _ => []
  end.

(** The addresses of the plain objects and arrays in a value which are
    reached through plain objects and arrays only: those a deep [extend]
    copies. *)
Fixpoint owned (v : value) : list loc :=
  match v with
  | VObject Other _ _ => []
  | VObject _ l props => l :: concat (map (λ p, owned p.2) props)
  | _ => []
  end.

(** The addresses of everything a value refers to: objects of any kind
    and functions. *)
Fixpoint refs (v : value) : list loc :=
  match v with
  | VFunction f => [f]
  | VObject _ l props => l :: concat (map (λ p, refs p.2) props)
  | _ => []
  end.

(** The value [v] as it is seen once [o[ name ] = x] has been done on
    the object [o] at address [target]. *)
Fixpoint write (target : loc) (name : string) (x : value) (v : value) : value :=
  match v with
  | VObject k l props =>
      let props := map (λ p, (p.1, write target name x p.2)) props in
      VObject k l (if Nat.eqb l target then set_prop name x props else props)
  | _ => v
  end.

Definition objs_props (props : list (string * value)) : list loc :=
  concat (map (λ p, objs p.2) props).

Definition owned_props (props : list (string * value)) : list loc :=
  concat (map (λ p, owned p.2) props).

(** All addresses of [ls] are below [n]: they were given out before [n]
    became the next free address. *)
Definition below (n : loc) (ls : list loc) : Prop := Forall (λ l, (l < n)%nat) ls.

(** Induction on values, with the properties of an object as subterms. *)
Fixpoint value_ind (P : value → Prop)
  (Hundefined : P VUndefined) (Hnull : P VNull)
  (Hboolean : ∀ b, P (VBoolean b)) (Hnumber : ∀ z, P (VNumber z))
  (Hstring : ∀ s, P (VString s)) (Hfunction : ∀ f, P (VFunction f))
  (Hobject : ∀ k l props, Forall (λ p, P p.2) props → P (VObject k l props))
  (v : value) : P v :=
  match v with
  | VUndefined => Hundefined
  | VNull => Hnull
  | VBoolean b => Hboolean b
  | VNumber z => Hnumber z
  | VString s => Hstring s
  | VFunction f => Hfunction f
  | VObject k l props =>
      Hobject k l props
        ((fix all (ps : list (string * value)) : Forall (λ p, P p.2) ps :=
            match ps with
            | [] => @List.Forall_nil _ (λ p, P p.2)
            | p :: ps =>
                @List.Forall_cons _ (λ p, P p.2) p ps
                  (value_ind P Hundefined Hnull Hboolean Hnumber Hstring Hfunction
                             Hobject p.2)
                  (all ps)
            end) props)
  end.

(** What [extend] guarantees for one [options]: the next free address
    does not go down; every object of the target afterwards was in the
    target or in [options] before, or is new; and every plain object or
    array of the target afterwards was one of the target before, or is
    new. *)
Definition extend_ok (options : value) : Prop :=
  ∀ tl tp nx tp' nx',
    extend tl tp options nx = (tp', nx') →
    (nx ≤ nx')%nat ∧
    (∀ a, a ∈ objs_props tp' →
          a ∈ objs_props tp ∨ a ∈ objs options ∨ (nx ≤ a < nx')%nat) ∧
    (∀ a, a ∈ owned_props tp' → a ∈ owned_props tp ∨ (nx ≤ a < nx')%nat).

(** *** Names and members *)

(** The name and the namespace which [module] makes of its first
    argument:
<<
    fullname  = name.split( "." );
    name      = fullname[ 1 ] || fullname[ 0 ];
    namespace = fullname[ 0 ] === name ? "" : fullname[ 0 ];
>> *)
Definition resolve (name : string) : string * string :=
  let fullname := split "."%char name in
  let first := default EmptyString (fullname !! 0%nat) in
  let name :=
    match fullname !! 1%nat with
    | Some (String c s) => String c s
    | _ => first
    end in
  (name, if String.eqb first name then EmptyString else first).

(** No character of [s] is a dot. *)
Fixpoint dotless (s : string) : bool :=
  match s with
  | EmptyString => true
  | String c s => negb (Ascii.eqb c "."%char) && dotless s
  end.

(** The keys which [module] itself stores in the new prototype. *)
Definition reserved : list string :=
  ["options"; "name"; "namespace"; "base"; "constructor"]%string.

(** A primitive value other than [undefined], or a function: what a
    deep [extend] stores as it is, whatever the target holds. *)
Definition atom (v : value) : bool :=
  match v with
  | VUndefined | VObject _ _ _ => false
  | _ => true
  end.

(** *** Proxies and mediators *)

(** [$.mvc.Module.prototype.getName] and [$.mvc.Proxy.prototype.getData] *)
Definition getName (this : value) : value := get_prop "name" (properties this).
Definition getData (this : value) : value := get_prop "data" (properties this).

(** The [_createModule] of [$.mvc.Proxy]:
<<
    this.name = name;
    this.data = data;
    this.options = $.extend( true, {}, this.options, options );
>> *)
Definition Proxy__createModule (tprops : list (string * value)) (name options data : value)
  (nx : loc) : list (string * value) * loc :=
  let tprops := set_prop "name" name tprops in
  let tprops := set_prop "data" data tprops in
  let '(opts, nx) := extend_new [get_prop "options" tprops; options] nx in
  (set_prop "options" opts tprops, nx).

(** [new C( name, options, data )] for a constructor [C] derived from
    [$.mvc.Proxy] which keeps its [_createModule]. *)
Definition construct_proxy (C : Constructor) (name options data : value) (h : world)
  : value * world :=
  let this := next h in
  let '(tprops, nx) :=
    Proxy__createModule (properties (prototype C)) name options data (S this) in
  (VObject Other this tprops, {| next := nx; supers := supers h |}).

(** A jQuery selection has a property [jquery]. *)
Definition is_selection (v : value) : bool :=
  match get_prop "jquery" (properties v) with
  | VUndefined => false
  | _ => true
  end.

Section mediator.

(** The function [$]: what it makes of a value, from the next free
    address on. *)
Variable jQuery : value → loc → value * loc.

(** The [_createModule] of [$.mvc.Mediator]:
<<
    element = element || $([]);
    this.name = name;
    this.options = $.extend( true, {}, this.options, options );
    this.element = ( element.jquery === undefined ) ? $(element) : element;
>> *)
Definition Mediator__createModule (tprops : list (string * value))
  (name options element : value) (nx : loc) : list (string * value) * loc :=
  let '(element, nx) :=
    if truthy element then (element, nx) else jQuery (VObject Array nx []) (S nx) in
  let tprops := set_prop "name" name tprops in
  let '(opts, nx) := extend_new [get_prop "options" tprops; options] nx in
  let tprops := set_prop "options" opts tprops in
  let '(element, nx) :=
    if is_selection element then (element, nx) else jQuery element nx in
  (set_prop "element" element tprops, nx).

(** [new C( name, options, element )] for a constructor [C] derived
    from [$.mvc.Mediator] which keeps its [_createModule]. *)
Definition construct_mediator (C : Constructor) (name options element : value) (h : world)
  : value * world :=
  let this := next h in
  let '(tprops, nx) :=
    Mediator__createModule (properties (prototype C)) name options element (S this) in
  (VObject Other this tprops, {| next := nx; supers := supers h |}).

End mediator.

(** *** The content of a copy *)

(** A value with the addresses of its plain objects and arrays, those
    which a deep [extend] copies, left out: what a value and a deep copy
    of it have in common. *)
Fixpoint anonymous (v : value) : value :=
  match v with
  | VObject Other l props => VObject Other l props
  | VObject k _ props => VObject k 0 (map (λ p, (p.1, anonymous p.2)) props)
  | _ => v
  end.

(** In the plain objects and arrays of a value no name is the name of
    two properties, as in any object, and no property is [undefined]. *)
Fixpoint clean (v : value) : Prop :=
  match v with
  | VObject Other _ _ => True
  | VObject _ _ props =>
      NoDup props.*1 ∧ Forall (λ p, p.2 ≠ VUndefined) props ∧
      foldr (λ p rest, clean p.2 ∧ rest) True props
  | _ => True
  end.

(** What [extend] does with a clean plain object or array [options]
    whose objects are older than the target, the target having no
    property of a name of [options]: it adds to the target, in their
    order, properties with the content of those of [options]. *)
Definition extend_copies (options : value) : Prop :=
  ∀ k l ps, options = VObject k l ps → k ≠ Other → clean options →
  ∀ b tl tp nx, below b (objs options) → (b ≤ tl)%nat → (b ≤ nx)%nat →
    (∀ key, key ∈ ps.*1 → key ∉ tp.*1) →
    ∃ tp' nx', extend tl tp options nx = (tp ++ tp', nx') ∧ (nx ≤ nx')%nat ∧
               map (λ p, (p.1, anonymous p.2)) tp' = map (λ p, (p.1, anonymous p.2)) ps.

(** *** Instances *)

(** A host for the examples, in which no [length] is a string, a
    function or an object. *)
Definition no_index : value → nat := λ _, 0%nat.

(** [$.mvc.Proxy = $.mvc.module( "Proxy", $.mvc.Module, { data: null,
    getData: ..., _createModule: ..., _register: ..., _remove: ... } )],
    the definition and its functions at addresses after those of
    [$.mvc.Module] and of [Object.prototype]. *)
Definition Proxy_definition : value :=
  VObject Plain 27
    [("data", VNull); ("getData", VFunction 28); ("_createModule", VFunction 29);
     ("_register", VFunction 30); ("_remove", VFunction 31)].

Definition Proxy : Constructor * world :=
  module no_index "Proxy" Module Proxy_definition {| next := 32; supers := ∅ |}.

(** A module whose default options hold a number, an object which is
    not a plain one (a jQuery selection, say), with a plain object of
    its own, and a function. *)
Definition Counter_definition : value :=
  VObject Plain 30
    [("options",
      VObject Plain 31
        [("count", VNumber 0);
         ("el", VObject Other 32 [("hidden", VBoolean false);
                                  ("cfg", VObject Plain 36 [("deep", VNumber 1)])]);
         ("done", VFunction 35)])].

Definition Counter : Constructor * world :=
  module no_index "Counter" Module Counter_definition {| next := 40; supers := ∅ |}.

Definition five : value := VObject Plain 33 [("count", VNumber 5)].
Definition nine : value := VObject Plain 34 [("count", VNumber 9)].

(** A stand-in for [$]: a new object which is a selection and holds the
    value it is made of. *)
Definition wrap (v : value) (nx : loc) : value * loc :=
  (VObject Other nx [("jquery", VString "1.5"); ("0", v)], S nx).

Definition first_instance : value * world :=
  construct Counter.1 (VString "first") five Counter.2.

Definition second_instance : value * world :=
  construct Counter.1 (VString "second") nine first_instance.2.

(** A module with a member [length], and one which defines [toString]. *)
Definition List_definition : value :=
  VObject Plain 50 [("length", VNumber 0); ("getName", VFunction 51)].

Definition List : Constructor * world :=
  module no_index "List" Module List_definition {| next := 52; supers := ∅ |}.

Definition Text_definition : value :=
  VObject Plain 60 [("toString", VFunction 61)].

Definition Text : Constructor * world :=
  module no_index "Text" Module Text_definition {| next := 62; supers := ∅ |}.

End Derivation.

(** ** jQuery.mvc.Notification and jQuery.mvc.Observer *)

Module Constructors.

Definition loc := nat.
Bind Scope nat_scope with loc.

Section constructors.

(** The values of the host program. *)
Context {V : Type}.

(** [$.mvc.Notification] and [$.mvc.Observer] *)
Inductive constructor := Notification | Observer.

#[global] Instance constructor_eq_dec : EqDecision constructor.
Proof. solve_decision. Defined.

(** An object: the constructor whose prototype it inherits from, if it
    is one of the two; whether [hasOwnProperty] can be read from it; its
    own properties. *)
Record object := {
  instance_of : option constructor;
  hasOwnProperty : bool;
  own : gmap string V
}.

Record heap := { next : loc; objects : gmap loc object }.

(** The [this] of a call: [undefined], or an object. *)
Inductive this_value :=
| this_undefined
| this_object (l : loc).

(** What a call returns: nothing, or an object. *)
Inductive result :=
| undefined
| object_ref (l : loc).

(** [this && this.hasOwnProperty && this instanceof F] *)
Definition is_instance (F : constructor) (this : this_value) (h : heap) : bool :=
  match this with
  | this_undefined => false
  | this_object l =>
      match objects h !! l with
      | Some obj => hasOwnProperty obj && bool_decide (instance_of obj = Some F)
      | None => false
      end
  end.

(** The two properties a constructor stores its arguments in. *)
Definition parameters (F : constructor) : string * string :=
  match F with
  | Notification => ("name", "body")
  | Observer => ("fn", "context")
  end.

(** [this.name = name; this.body = body;] and the like *)
Definition assign (F : constructor) (this : this_value) (a b : V) (h : heap) : heap :=
  match this with
  | this_undefined => h
  | this_object l =>
      {| next := next h;
         objects :=
           alter (λ obj, {| instance_of := instance_of obj;
                            hasOwnProperty := hasOwnProperty obj;
                            own := <[(parameters F).2 := b]>
                                     (<[(parameters F).1 := a]> (own obj)) |})
                 l (objects h) |}
  end.

(** [new F( ... )], given what a call of [F] does: a new object which
    inherits from [F.prototype] is made and [F] is called on it; the
    new object is the result unless the call returns an object. *)
Definition new (F : constructor) (call : this_value → heap → result * heap) (h : heap)
  : result * heap :=
  let l := next h in
  let h :=
    {| next := S l;
       objects := <[l := {| instance_of := Some F; hasOwnProperty := true; own := ∅ |}]>
                    (objects h) |} in
  let '(r, h) := call (this_object l) h in
  match r with
  | undefined => (object_ref l, h)
  | object_ref l' => (object_ref l', h)
  end.

(** A call of [F], which calls itself through [new] when it is not
    called on an instance; [depth] bounds the nesting of these calls.
<<
    if ( !( this && this.hasOwnProperty && this instanceof $.mvc.Notification ) ) {
      return new $.mvc.Notification( name, body );
    }
    this.name = name;
    this.body = body;
>> *)
Fixpoint call_within (depth : nat) (F : constructor) (a b : V) (this : this_value) (h : heap)
  : result * heap :=
  match depth with
  | O => (undefined, h)
  | S depth =>
      if negb (is_instance F this h) then new F (call_within depth F a b) h
      else (undefined, assign F this a b h)
  end.

(** Two levels are all a call ever needs: the call made by [new] is on
    an instance. *)
Definition call (F : constructor) (a b : V) (this : this_value) (h : heap) : result * heap :=
  call_within 2 F a b this h.

(** The instance which [F] makes of [a] and [b]. *)
Definition made (F : constructor) (a b : V) : object :=
  {| instance_of := Some F; hasOwnProperty := true;
     own := <[(parameters F).2 := b]> (<[(parameters F).1 := a]> ∅) |}.

End constructors.

End Constructors.

(** ** jQuery.mvc.model and jQuery.mvc.view *)

Module Registries.

Export Host.

Definition loc := nat.
Bind Scope nat_scope with loc.

(** A proxy or a mediator as the registries see it: its address, what
    its [getName()] returns, and, for a mediator, the entries which
    [$.each] visits on its [notificationInterests], each name with the
    identity of the function [mediator[ fn ]] when that is a function. *)
Record Instance := {
  address : loc;
  name : string;
  notificationInterests : list (string * option nat)
}.

(** [instance.getName()] *)
Definition getName (this : Instance) : string := name this.

(** What a constructor derived from [$.mvc.Proxy] or [$.mvc.Mediator]
    which keeps their [_createModule] and [getName] makes of the name it
    is given: an instance of that name. *)
Definition made (address : loc) (interests : list (string * option nat)) : string → Instance :=
  λ name, {| address := address; name := name; notificationInterests := interests |}.

(** [++guid] on a number of the host: up to 2^53 every whole number is
    a number of the host; one more than 2^53 is 2^53 again. *)
Definition increment (guid : Z) : Z := if guid <? 2 ^ 53 then guid + 1 else guid.

Arguments increment : simpl never.

Section registries.

(** The bodies of notifications. *)
Context {Body : Type}.

(** The closure variables of the model and of the view, and the
    notifier, whose observers have the addresses of the mediators as
    contexts; two objects are [==] when they are the same object. *)
Record state := State {
  proxyMap : gmap string Instance;
  proxyGuid : Z;
  mediatorMap : gmap string Instance;
  mediatorGuid : Z;
  notifier : @Notifier.state loc Body
}.

Definition set_proxyMap (m : gmap string Instance) (s : state) : state :=
  State m (proxyGuid s) (mediatorMap s) (mediatorGuid s) (notifier s).

Definition set_proxyGuid (guid : Z) (s : state) : state :=
  State (proxyMap s) guid (mediatorMap s) (mediatorGuid s) (notifier s).

Definition set_mediatorMap (m : gmap string Instance) (s : state) : state :=
  State (proxyMap s) (proxyGuid s) m (mediatorGuid s) (notifier s).

Definition set_mediatorGuid (guid : Z) (s : state) : state :=
  State (proxyMap s) (proxyGuid s) (mediatorMap s) guid (notifier s).

Definition set_notifier (n : @Notifier.state loc Body) (s : state) : state :=
  State (proxyMap s) (proxyGuid s) (mediatorMap s) (mediatorGuid s) n.

(** No proxy, no mediator, no observer: the registries when the files
    have been loaded. *)
Definition empty : state :=
  {| proxyMap := ∅; proxyGuid := 0; mediatorMap := ∅; mediatorGuid := 0;
     notifier := Notifier.initial |}.

(** A call of the notifier on behalf of a registry. *)
Definition on_notifier (f : @Notifier.state loc Body → outcome (@Notifier.state loc Body))
  (s : state) : outcome state :=
  match f (notifier s) with
  | Returned n => Returned (set_notifier n s)
  | Thrown e n => Thrown e (set_notifier n s)
  end.

(** The two loops of the view over the interests of a mediator, which
    call the notifier and nothing else:
<<
    $.each( mediator.notificationInterests, function( name, fn ) {
      if ( $.isFunction( fn = mediator[ fn ] ) ) {
        $.mvc.notifier.register( name, $.mvc.Observer( fn, mediator ) );
      }
    });
>>
    and
<<
    $.each( mediator.notificationInterests, function( name, fn ) {
      $.mvc.notifier.remove( name, mediator );
    });
>> *)
Definition register_interests (mediator : Instance) (n : @Notifier.state loc Body)
  : outcome (@Notifier.state loc Body) :=
  each (λ '(notificationName, fn) n,
          match fn with
          | Some fn =>
              Notifier.register notificationName
                {| Notifier.fn := fn; Notifier.context := address mediator |} n
          | None => Returned n
          end) (notificationInterests mediator) n.

Definition remove_interests (mediator : Instance) (n : @Notifier.state loc Body)
  : outcome (@Notifier.state loc Body) :=
  each (λ '(notificationName, _) n,
          Notifier.remove (Ctx:=loc) Nat.eqb notificationName (address mediator) n)
       (notificationInterests mediator) n.

(** The callbacks which [$.mvc.Proxy] and [$.mvc.Mediator] themselves
    define, [_register: function() { }] and [_remove: function() { }]. *)
Definition no_callback : Instance → state → outcome state := λ _ s, Returned s.

(** The callbacks [_register] and [_remove] of the instances: code of
    the program, which may do anything to the registries, and throw. *)
Variable _register : Instance → state → outcome state.
Variable _remove : Instance → state → outcome state.

(** [$.mvc.model.has] and [$.mvc.view.has] *)
Definition model_has (name : string) (s : state) : bool := defined (proxyMap s) name.

Definition view_has (name : string) (s : state) : bool := defined (mediatorMap s) name.

(** [$.mvc.model.get]: what is stored under the name, or the member of
    [Object.prototype] of that name; [Undefined] is [null] here. *)
Definition model_get (name : string) (s : state) : property Instance :=
  if model_has name s then read (proxyMap s) name else Undefined.

(** [$.mvc.model.register( name, proxy, options, data )]; [proxy name]
    is the instance which [new proxy( name, options, data )] makes (a
    constructor which throws, or which calls the registries itself, is
    left out).  Without a name, one is made from the counter.
<<
    if ( typeof name !== "string" ) { ... name = "proxy-" + ( ++proxyGuid ); }
    if ( $.mvc.model.has( name ) ) {
      throw "jQuery.mvc.model: A proxy named '" + name + "' already exists.";
    }
    proxy = proxyMap[ name ] = new proxy( name, options, data );
    proxy._register();
>> *)
Definition model_register (name : option string) (proxy : string → Instance) (s : state)
  : outcome state :=
  let '(name, s) :=
    match name with
    | Some name => (name, s)
    | None =>
        let guid := increment (proxyGuid s) in
        ("proxy-" +:+ pretty guid, set_proxyGuid guid s)
    end in
  if model_has name s then
    Thrown (Exception ("jQuery.mvc.model: A proxy named '" +:+ name +:+ "' already exists.")) s
  else
    let proxy := proxy name in
    let s := set_proxyMap (<[name := proxy]> (proxyMap s)) s in
    _register proxy s.

(** The argument of [remove]: a name, or an instance. *)
Definition key_of (arg : string + Instance) : string :=
  match arg with
  | inl name => name
  | inr instance => getName instance
  end.

(** [$.mvc.model.remove]
<<
    if ( typeof proxy === "object" ) { proxy = proxy.getName(); }
    proxy = proxyMap[ proxy ];
    if ( proxy !== undefined ) {
      delete proxyMap[ proxy.getName() ];
      proxy._remove();
    }
>>
    Under a name which the map only inherits, [proxy] is a member of
    [Object.prototype], which has no [getName]: the call throws. *)
Definition model_remove (arg : string + Instance) (s : state) : outcome state :=
  match read (proxyMap s) (key_of arg) with
  | Own proxy =>
      let s := set_proxyMap (delete (getName proxy) (proxyMap s)) s in
      _remove proxy s
  | Inherited _ => Thrown TypeError s
  | Undefined => Returned s
  end.

(** [$.mvc.view.register( name, mediator, options, element )]
<<
    mediator = mediatorMap[ name ] = new mediator( name, options, element );
    $.each( mediator.notificationInterests, ... );
    mediator._register();
>> *)
Definition view_register (name : option string) (mediator : string → Instance) (s : state)
  : outcome state :=
  let '(name, s) :=
    match name with
    | Some name => (name, s)
    | None =>
        let guid := increment (mediatorGuid s) in
        ("mediator-" +:+ pretty guid, set_mediatorGuid guid s)
    end in
  if view_has name s then
    Thrown (Exception ("jQuery.mvc.view: A mediator named '" +:+ name +:+ "' already exists."))
           s
  else
    let mediator := mediator name in
    let s := set_mediatorMap (<[name := mediator]> (mediatorMap s)) s in
    match on_notifier (register_interests mediator) s with
    | Returned s => _register mediator s
    | Thrown e s => Thrown e s
    end.

(** [$.mvc.view.remove]
<<
    if ( typeof mediator === "object" ) { mediator = mediator.getName(); }
    mediator = mediatorMap[ mediator ];
    if ( mediator !== undefined ) {
      $.each( mediator.notificationInterests, ... );
      delete mediatorMap[ mediator.getName() ];
      mediator._remove();
    }
>>
    A member of [Object.prototype] has no [notificationInterests], and
    [$.each( undefined, ... )] throws. *)
Definition view_remove (arg : string + Instance) (s : state) : outcome state :=
  match read (mediatorMap s) (key_of arg) with
  | Own mediator =>
      match on_notifier (remove_interests mediator) s with
      | Returned s =>
          let s := set_mediatorMap (delete (getName mediator) (mediatorMap s)) s in
          _remove mediator s
      | Thrown e s => Thrown e s
      end
  | Inherited _ => Thrown TypeError s
  | Undefined => Returned s
  end.

(** An instance is registered with the model, or with the view, when
    it is the one stored under its name. *)
Definition model_registered (proxy : Instance) (s : state) : Prop :=
  proxyMap s !! getName proxy = Some proxy.

Definition view_registered (mediator : Instance) (s : state) : Prop :=
  mediatorMap s !! getName mediator = Some mediator.

(** A call of one of the operations of the two registries. *)
Inductive call :=
| ModelRegister (name : option string) (proxy : string → Instance)
| ModelRemove (arg : string + Instance)
| ViewRegister (name : option string) (mediator : string → Instance)
| ViewRemove (arg : string + Instance).

Definition exec (c : call) (s : state) : outcome state :=
  match c with
  | ModelRegister name proxy => model_register name proxy s
  | ModelRemove arg => model_remove arg s
  | ViewRegister name mediator => view_register name mediator s
  | ViewRemove arg => view_remove arg s
  end.

(** The state after a sequence of calls, whether they return or throw. *)
Definition execs (cs : list call) (s : state) : state :=
  foldl (λ s c, state_of (exec c s)) s cs.

(** A registration which leaves the name to the registry, or a
    removal. *)
Definition unnamed (c : call) : bool :=
  match c with
  | ModelRegister None _ | ViewRegister None _ | ModelRemove _ | ViewRemove _ => true
  | _ => false
  end.

(** Every key of the two maps is a name made from a value which the
    counter of the map has had. *)
Definition generated (s : state) : Prop :=
  0 ≤ proxyGuid s ∧ 0 ≤ mediatorGuid s ∧
  (∀ k, is_Some (proxyMap s !! k) →
        ∃ n, k = "proxy-" +:+ pretty n ∧ 0 < n ≤ proxyGuid s) ∧
  (∀ k, is_Some (mediatorMap s !! k) →
        ∃ n, k = "mediator-" +:+ pretty n ∧ 0 < n ≤ mediatorGuid s).

(** The names of the interests of a mediator are no names of members of
    [Object.prototype]. *)
Definition ordinary_interests (mediator : Instance) : Prop :=
  Forall (λ p : string * option nat, inherited p.1 = None) (notificationInterests mediator).

(** The observers which [view.register] registers for the notification
    [n], given the interests of a mediator: one for each interest in [n]
    whose handler is a function, with the mediator as its context. *)
Definition interested (address : loc) (n : string) (interests : list (string * option nat))
  : list (@Notifier.Observer loc) :=
  omap (λ '(k, fn),
          if decide (k = n)
          then (λ f, {| Notifier.fn := f; Notifier.context := address |}) <$> fn
          else None) interests.

End registries.

(** *** Instances *)

(** A mediator which handles [tick] with its function 0, and the
    registries which hold it, and then a proxy as well. *)
Definition tracker : Instance := made 1 [("tick", Some 0%nat)] "tracker".

Definition with_tracker : @state Z :=
  state_of (view_register no_callback (Some "tracker") (made 1 [("tick", Some 0%nat)]) empty).

Definition with_store : @state Z :=
  state_of (model_register no_callback (Some "store") (made 2 []) with_tracker).

(** A constructor whose prototype overrides [getName]: its instances
    all call themselves [other]. *)
Definition misnamed (address : loc) (interests : list (string * option nat))
  : string → Instance :=
  λ _, {| address := address; name := "other"; notificationInterests := interests |}.

End Registries.

(** ** jQuery.mvc.controller *)

Module Controller.

Import Registries.

Section controller.

(** The bodies of notifications. *)
Context {Body : Type}.

(** The closure variable [commandMap], which holds for each
    notification the observer made for its command, and the notifier. *)
Record state := State {
  commandMap : gmap string (@Notifier.Observer loc);
  notifier : @Notifier.state loc Body
}.

Definition initial : state := {| commandMap := ∅; notifier := Notifier.initial |}.

(** The address of the object [$.mvc.controller], the context of the
    observers which the controller registers. *)
Variable controller : loc.

(** The variable [name] which the message of [register] reads.  The
    function has no variable of that name (the notification is
    [notificationName]): it is a global variable of the host, when the
    host has one. *)
Variable name : option string.

(** [$.mvc.controller.has] *)
Definition has (notificationName : string) (s : state) : bool :=
  defined (commandMap s) notificationName.

(** [$.mvc.controller.get]; [Undefined] is [null] here. *)
Definition get (name : string) (s : state) : property (@Notifier.Observer loc) :=
  if has name s then read (commandMap s) name else Undefined.

(** [$.mvc.controller.register( notificationName, command, options )];
    [fn] is the identity of the function which the call makes,
<<
    function( notification ) {
      var instance = new command( options );
      instance.execute( notification );
    }
>> *)
Definition register (notificationName : string) (fn : nat) (s : state) : outcome state :=
  if has notificationName s then
    match name with
    | Some name =>
        Thrown (Exception
                  ("jQuery.mvc.controller: A command is already registered for notifications named '"
                     +:+ name +:+ "'.")) s
    | None => Thrown ReferenceError s
    end
  else
    let observer := {| Notifier.fn := fn; Notifier.context := controller |} in
    let s := {| commandMap := <[notificationName := observer]> (commandMap s);
                notifier := notifier s |} in
    match Notifier.register notificationName observer (notifier s) with
    | Returned n => Returned {| commandMap := commandMap s; notifier := n |}
    | Thrown e n => Thrown e {| commandMap := commandMap s; notifier := n |}
    end.

(** [$.mvc.controller.remove]
<<
    var observer = commandMap[ notificationName ];
    if ( observer !== undefined ) {
      $.mvc.notifier.remove( notificationName, $.mvc.controller );
      delete commandMap[ notificationName ];
    }
>> *)
Definition remove (notificationName : string) (s : state) : outcome state :=
  match read (commandMap s) notificationName with
  | Undefined => Returned s
  | _ =>
      match Notifier.remove (Ctx:=loc) Nat.eqb notificationName controller (notifier s) with
      | Returned n =>
          Returned {| commandMap := delete notificationName (commandMap s); notifier := n |}
      | Thrown e n => Thrown e {| commandMap := commandMap s; notifier := n |}
      end
  end.

(** What is done to the controller, and to the notifier by the rest of
    the program with [register] and [remove]: by the view for its
    mediators, by observing functions. *)
Inductive call :=
| Register (notificationName : string) (fn : nat)
| Remove (notificationName : string)
| Elsewhere (notificationName : string) (c : @Notifier.Observer loc + loc).

Definition exec (c : call) (s : state) : outcome state :=
  match c with
  | Register notificationName fn => register notificationName fn s
  | Remove notificationName => remove notificationName s
  | Elsewhere notificationName c =>
      match
        match c with
        | inl observer => Notifier.register notificationName observer (notifier s)
        | inr context =>
            Notifier.remove (Ctx:=loc) Nat.eqb notificationName context (notifier s)
        end
      with
      | Returned n => Returned {| commandMap := commandMap s; notifier := n |}
      | Thrown e n => Thrown e {| commandMap := commandMap s; notifier := n |}
      end
  end.

(** The state after a sequence of calls, whether they return or throw. *)
Definition execs (cs : list call) (s : state) : state :=
  foldl (λ s c, state_of (exec c s)) s cs.

(** The rest of the program does not use the controller as a context. *)
Definition foreign (c : call) : Prop :=
  match c with
  | Elsewhere _ (inl observer) => Notifier.context observer ≠ controller
  | Elsewhere _ (inr context) => context ≠ controller
  | _ => True
  end.

(** The observers of a notification whose context is the controller. *)
Definition commands_of (notificationName : string) (s : state)
  : list (@Notifier.Observer loc) :=
  filter (λ observer, Notifier.context observer = controller)
         (Notifier.observers_of notificationName (notifier s)).

End controller.

End Controller.

(** * Its properties *)

(** ** The notifier *)

Module NotifierFacts.

Import Notifier.

(** *** Dictionaries *)

Lemma read_stored {A} (dictionary : gmap string A) name a :
  dictionary !! name = Some a → read dictionary name = Own a.
Proof. unfold Host.read. by intros ->. Qed.

Lemma read_ordinary {A} (dictionary : gmap string A) name :
  inherited name = None →
  read dictionary name =
  match dictionary !! name with
  | Some a => Own a
  | None => Undefined
  end.
Proof. unfold Host.read. by intros ->. Qed.

Lemma read_absent {A} (dictionary : gmap string A) name :
  dictionary !! name = None →
  read dictionary name =
  match inherited name with
  | Some m => Inherited m
  | None => Undefined
  end.
Proof. unfold Host.read. by intros ->. Qed.

Lemma defined_ordinary {A} (dictionary : gmap string A) name :
  inherited name = None →
  defined dictionary name = bool_decide (is_Some (dictionary !! name)).
Proof.
  intros Hname. unfold Host.defined. rewrite read_ordinary by done.
  destruct (dictionary !! name) eqn:Hlook.
  - symmetry. apply bool_decide_eq_true. by eexists.
  - symmetry. apply bool_decide_eq_false. by intros [? ?].
Qed.

Lemma each_app {A S} (f : A → S → outcome S) l1 l2 s :
  each f (l1 ++ l2) s =
  match each f l1 s with
  | Returned s => each f l2 s
  | Thrown e s => Thrown e s
  end.
Proof.
  revert s. induction l1 as [|x l1 IH]; intros s; simpl; [done|].
  destruct (f x s); [apply IH|done].
Qed.

Section facts.

Context {Ctx Body : Type}.
Variable loose_eq : Ctx → Ctx → bool.
Variable o : Options.
Variable handler : nat → Ctx → @Notification Body → @state Ctx Body → list (@call Ctx Body).

(** Inside this section the definitions of the notifier are taken at
    [Ctx] and [Body], with [loose_eq], [o] and [handler]. *)
Local Abbreviation Notification := (@Notifier.Notification Body).
Local Abbreviation Observer := (@Notifier.Observer Ctx).
Local Abbreviation Observer_notify := (@Notifier.Observer_notify Ctx Body loose_eq handler).
Local Abbreviation bursts := (@Notifier.bursts Ctx Body).
Local Abbreviation call := (@Notifier.call Ctx Body).
Local Abbreviation calls := (@Notifier.calls Ctx Body).
Local Abbreviation consistent := (@Notifier.consistent Ctx Body).
Local Abbreviation deliveries := (@Notifier.deliveries Ctx Body).
Local Abbreviation dequeue := (@Notifier.dequeue Ctx Body loose_eq o handler).
Local Abbreviation discreet := (@Notifier.discreet Ctx Body loose_eq handler).
Local Abbreviation dispatcher := (@Notifier.dispatcher Ctx Body).
Local Abbreviation emit := (@Notifier.emit Ctx Body).
Local Abbreviation event := (@Notifier.event Ctx Body).
Local Abbreviation exec := (@Notifier.exec Ctx Body loose_eq o handler).
Local Abbreviation execs := (@Notifier.execs Ctx Body loose_eq o handler).
Local Abbreviation fire := (@Notifier.fire Ctx Body loose_eq o handler).
Local Abbreviation fires := (@Notifier.fires Ctx Body loose_eq o handler).
Local Abbreviation has := (@Notifier.has Ctx Body).
Local Abbreviation idle := (@Notifier.idle Ctx Body).
Local Abbreviation initial := (@Notifier.initial Ctx Body).
Local Abbreviation kept := (@Notifier.kept Ctx loose_eq).
Local Abbreviation named := (@Notifier.named Ctx Body).
Local Abbreviation no_dangling := (@Notifier.no_dangling Ctx Body).
Local Abbreviation notify := (@Notifier.notify Ctx Body loose_eq o handler).
Local Abbreviation notify_with := (@Notifier.notify_with Ctx Body).
Local Abbreviation observers_of := (@Notifier.observers_of Ctx Body).
Local Abbreviation paced := (@Notifier.paced Ctx Body o).
Local Abbreviation perform := (@Notifier.perform Ctx Body loose_eq).
Local Abbreviation queue := (@Notifier.queue Ctx Body).
Local Abbreviation register := (@Notifier.register Ctx Body).
Local Abbreviation registry_call := (@Notifier.registry_call Ctx Body).
Local Abbreviation remove := (@Notifier.remove Ctx Body loose_eq).
Local Abbreviation remove_loop := (@Notifier.remove_loop Ctx loose_eq).
Local Abbreviation run := (@Notifier.run Ctx Body loose_eq o handler).
Local Abbreviation set_notificationSync := (@Notifier.set_notificationSync Ctx Body).
Local Abbreviation set_observerMap := (@Notifier.set_observerMap Ctx Body).
Local Abbreviation set_queue := (@Notifier.set_queue Ctx Body).
Local Abbreviation set_timers := (@Notifier.set_timers Ctx Body).
Local Abbreviation settle := (@Notifier.settle Ctx Body loose_eq o handler).
Local Abbreviation slice := (@Notifier.slice Ctx Body o).
Local Abbreviation state := (@Notifier.state Ctx Body).
Local Abbreviation step := (@Notifier.step Ctx Body).
Local Abbreviation stuck := (@Notifier.stuck Ctx Body).
Local Abbreviation task := (@Notifier.task Ctx Body).

(** *** The loop of [remove] *)

Lemma filter_Forall_id {A} (P : A → Prop) `{∀ x, Decision (P x)} (l : list A) :
  Forall P l → filter P l = l.
Proof.
  induction 1 as [|x l Hx _ IH]; [done|].
  by rewrite filter_cons_True, IH.
Qed.

Lemma filter_Forall_nil {A} (P : A → Prop) `{∀ x, Decision (P x)} (l : list A) :
  Forall (λ x, ¬ P x) l → filter P l = [].
Proof.
  induction 1 as [|x l Hx _ IH]; [done|].
  by rewrite filter_cons_False, IH.
Qed.

Lemma remove_loop_spec ctx fuel : ∀ observers i n,
  (fuel = n - i)%nat → (i ≤ n)%nat → (n ≤ length observers)%nat →
  Forall (kept ctx) (take i observers) →
  ∃ observers' n',
    remove_loop fuel ctx observers i n = (observers', n') ∧
    (n' ≤ length observers')%nat ∧
    take n' observers' ≡ₚ filter (kept ctx) (take n observers).
Proof.
  induction fuel as [|fuel IH]; intros observers i n Hfuel Hin Hn Hkept; simpl.
  - assert (i = n) as -> by lia.
    exists observers, n. split_and!; [done|done|].
    by rewrite filter_Forall_id.
  - assert ((i <? n)%nat = true) as -> by (apply Nat.ltb_lt; lia).
    destruct (lookup_lt_is_Some_2 observers i) as [oi Hoi]; [lia|].
    destruct (lookup_lt_is_Some_2 observers (n - 1)) as [last Hlast]; [lia|].
    rewrite Hoi, Hlast.
    assert (take n observers = take (n - 1) observers ++ [last]) as Htake.
    { replace n with (S (n - 1)) at 1 by lia. by apply take_S_r. }
    destruct (loose_eq (context oi) ctx) eqn:Heq.
    + destruct (IH (<[i:=last]> observers) i (n - 1)%nat) as (obs' & n' & Hrun & Hlen & Hperm).
      * lia.
      * lia.
      * rewrite length_insert. lia.
      * by rewrite take_insert_ge.
      * exists obs', n'. split_and!; [done|done|].
        rewrite Hperm, Htake, filter_app.
        destruct (decide (i = n - 1)%nat) as [->|Hne].
        -- rewrite take_insert_ge by lia.
           assert (last = oi) as -> by congruence.
           rewrite filter_cons_False, filter_nil, app_nil_r; [done|].
           unfold Notifier.kept. congruence.
        -- rewrite take_insert_lt by lia.
           assert (take (n - 1) observers !! i = Some oi) as Hi.
           { rewrite lookup_take. case_decide; [done|lia]. }
           apply list_elem_of_split_length in Hi as (l1 & l2 & Hsplit & Hl1).
           rewrite Hsplit.
           rewrite insert_app_r_alt by lia.
           replace (i - length l1)%nat with O by lia. simpl.
           rewrite !filter_app, !filter_cons.
           rewrite (decide_False (P := kept ctx oi)) by (unfold Notifier.kept; congruence).
           rewrite filter_nil.
           destruct (decide (kept ctx last)); simpl.
           ++ by rewrite <- Permutation_middle, Permutation_cons_append, <- app_assoc.
           ++ by rewrite app_nil_r.
    + destruct (IH observers (i + 1)%nat n) as (obs' & n' & Hrun & Hlen & Hperm).
      * lia.
      * lia.
      * lia.
      * replace (i + 1)%nat with (S i) by lia.
        rewrite (take_S_r _ _ _ Hoi). apply Forall_app. split; [done|].
        by apply Forall_singleton.
      * by exists obs', n'.
Qed.

Lemma remove_loop_all ctx observers :
  ∃ observers' n',
    remove_loop (length observers) ctx observers 0 (length observers) = (observers', n') ∧
    (n' ≤ length observers')%nat ∧
    take n' observers' ≡ₚ filter (kept ctx) observers.
Proof.
  destruct (remove_loop_spec ctx (length observers) observers 0%nat (length observers))
    as (obs' & n' & Hrun & Hlen & Hperm); [lia|lia|lia|by rewrite take_0|].
  exists obs', n'. by rewrite (take_ge observers) in Hperm by lia.
Qed.

Lemma remove_loop_kept ctx observers fuel : ∀ i n,
  (fuel = n - i)%nat → (n ≤ length observers)%nat → Forall (kept ctx) observers →
  remove_loop fuel ctx observers i n = (observers, n).
Proof.
  induction fuel as [|fuel IH]; intros i n Hfuel Hn Hall; simpl; [done|].
  assert ((i <? n)%nat = true) as -> by (apply Nat.ltb_lt; lia).
  destruct (lookup_lt_is_Some_2 observers i) as [oi Hoi]; [lia|].
  destruct (lookup_lt_is_Some_2 observers (n - 1)) as [last Hlast]; [lia|].
  rewrite Hoi, Hlast.
  assert (kept ctx oi) as Hk by exact (Forall_lookup_1 _ _ _ _ Hall Hoi).
  unfold Notifier.kept in Hk. rewrite Hk. apply IH; [lia|done|done].
Qed.

Lemma set_observerMap_id (s : state) : set_observerMap (observerMap s) s = s.
Proof. by destruct s. Qed.

(** *** Removal *)

(** How [remove] ends: it returns, unless nothing is stored under the
    name and [Object.prototype] has a function with parameters there;
    then it throws and changes nothing. *)
Lemma remove_outcome (notificationName : string) (ctx : Ctx) (s : state) :
  remove notificationName ctx s = Returned (state_of (remove notificationName ctx s)) ∨
  (remove notificationName ctx s = Thrown TypeError s ∧
   observerMap s !! notificationName = None ∧
   ∃ k, inherited notificationName = Some (Method (S k))).
Proof.
  unfold Notifier.remove, Host.read.
  destruct (observerMap s !! notificationName) as [observers|] eqn:Hlook.
  - left. destruct (remove_loop _ _ _ _ _) as [observers' n]. by destruct (n =? 0)%nat.
  - destruct (inherited notificationName) as [[[|k]|]|]; [by left| |by left|by left].
    right. split_and!; [done|done|by exists k].
Qed.

(** What [remove] does to [observerMap], whether it returns or throws:
    under the name, a permutation of the observers kept, or no key when
    none is kept; under another name, nothing; and nothing to the
    dispatcher. *)
Lemma remove_registry (notificationName : string) (ctx : Ctx) (s : state) :
  let s' := state_of (remove notificationName ctx s) in
  (∃ rest, rest ≡ₚ filter (kept ctx) (observers_of notificationName s) ∧
           observerMap s' !! notificationName = (if rest is [] then None else Some rest)) ∧
  (∀ other, other ≠ notificationName →
            observerMap s' !! other = observerMap s !! other) ∧
  dispatcher s' = dispatcher s.
Proof.
  unfold Notifier.remove, Notifier.observers_of, Host.read.
  destruct (observerMap s !! notificationName) as [observers|] eqn:Hlook; simpl.
  - destruct (remove_loop_all ctx observers) as (obs' & n' & -> & Hlen & Hperm).
    destruct (Nat.eqb_spec n' 0) as [->|Hn'].
    + split_and!.
      * exists []. simpl. rewrite take_0 in Hperm. split; [done|]. apply lookup_delete_eq.
      * intros other Hne. simpl. by rewrite lookup_delete_ne.
      * done.
    + assert (take n' obs' ≠ []) as Hrest.
      { intros Hnil. apply (f_equal length) in Hnil. rewrite length_take in Hnil.
        simpl in Hnil. lia. }
      split_and!.
      * exists (take n' obs'). split; [done|]. simpl. rewrite lookup_insert_eq.
        by destruct (take n' obs').
      * intros other Hne. simpl. by rewrite lookup_insert_ne.
      * done.
  - assert (∀ r : outcome state, state_of r = s →
              (∃ rest : list Observer, rest ≡ₚ filter (kept ctx) [] ∧
                 observerMap (state_of r) !! notificationName =
                 (if rest is [] then None else Some rest)) ∧
              (∀ other, other ≠ notificationName →
                 observerMap (state_of r) !! other = observerMap s !! other) ∧
              dispatcher (state_of r) = dispatcher s) as H.
    { intros r ->. split_and!; [|done|done]. exists []. by rewrite filter_nil. }
    apply H. by destruct (inherited notificationName) as [[[|k]|]|].
Qed.

Lemma remove_dispatcher notificationName ctx s :
  dispatcher (state_of (remove notificationName ctx s)) = dispatcher s.
Proof. apply remove_registry. Qed.

(** With every observer under the name kept, and some observer there,
    [remove] changes nothing. *)
Lemma remove_nothing notificationName ctx s :
  Forall (kept ctx) (observers_of notificationName s) →
  observerMap s !! notificationName ≠ Some [] →
  state_of (remove notificationName ctx s) = s.
Proof.
  unfold Notifier.remove, Notifier.observers_of, Host.read.
  destruct (observerMap s !! notificationName) as [observers|] eqn:Hlook; simpl.
  - intros Hall Hsome. rewrite remove_loop_kept; [|lia|done|done].
    destruct (Nat.eqb_spec (length observers) 0) as [Hz|_].
    + destruct observers; [done|discriminate].
    + rewrite take_ge by lia. rewrite insert_id by done. apply set_observerMap_id.
  - intros _ _. by destruct (inherited notificationName) as [[[|k]|]|].
Qed.

(** C7.  [remove( notificationName, context )] leaves under
    [notificationName] exactly the observers whose context is not [==] to
    [context], in some order, and deletes the key when none is left;
    observers under other names and the dispatcher are untouched; when
    nothing is stored under [notificationName] the state does not
    change at all; and removing a second time changes nothing more.
    The call returns, with one exception: when nothing is stored under
    the name and [Object.prototype] has a function with parameters
    under it ([constructor], [hasOwnProperty], ...), it throws a
    [TypeError]. *)
Theorem remove_exactly (notificationName : string) (ctx : Ctx) (s : state) :
  let r := remove notificationName ctx s in
  let s' := state_of r in
  (∃ rest, rest ≡ₚ filter (kept ctx) (observers_of notificationName s) ∧
           observerMap s' !! notificationName = (if rest is [] then None else Some rest)) ∧
  (∀ other, other ≠ notificationName →
            observerMap s' !! other = observerMap s !! other) ∧
  dispatcher s' = dispatcher s ∧
  (observerMap s !! notificationName = None → s' = s) ∧
  state_of (remove notificationName ctx s') = s' ∧
  (r = Returned s' ∨
   r = Thrown TypeError s ∧ observerMap s !! notificationName = None ∧
   ∃ k, inherited notificationName = Some (Method (S k))) ∧
  (inherited notificationName = None → r = Returned s').
Proof.
  intros r s'.
  destruct (remove_registry notificationName ctx s) as (Hname & Hother & Hdisp).
  split_and!; [done|done|done| | | |].
  - intros Hnone. apply remove_nothing.
    + unfold Notifier.observers_of. by rewrite Hnone.
    + by rewrite Hnone.
  - destruct Hname as (rest & Hperm & Hrest). fold r s' in Hrest.
    apply remove_nothing.
    + unfold Notifier.observers_of. rewrite Hrest. destruct rest; [done|]. simpl.
      rewrite Hperm. apply Forall_forall. intros x Hx.
      by apply list_elem_of_filter in Hx as [Hx _].
    + rewrite Hrest. by destruct rest.
  - apply remove_outcome.
  - intros Hname'. destruct (remove_outcome notificationName ctx s) as [H|(_ & _ & k & Hk)];
      [done|congruence].
Qed.

(** *** The registry *)

(** How [register] ends. *)
Lemma register_outcome notificationName observer s :
  register notificationName observer s =
  match observerMap s !! notificationName, inherited notificationName with
  | None, Some _ => Thrown TypeError s
  | _, _ =>
      Returned
        (set_observerMap
           (<[notificationName := observers_of notificationName s ++ [observer]]>
              (observerMap s)) s)
  end.
Proof.
  unfold Notifier.register, Host.read, Notifier.observers_of.
  destruct (observerMap s !! notificationName); [done|].
  by destruct (inherited notificationName).
Qed.

Lemma register_ordinary notificationName observer s :
  inherited notificationName = None →
  register notificationName observer s =
  Returned
    (set_observerMap
       (<[notificationName := observers_of notificationName s ++ [observer]]>
          (observerMap s)) s).
Proof.
  intros Hname. rewrite register_outcome, Hname.
  by destruct (observerMap s !! notificationName).
Qed.

Lemma register_observers notificationName observer s other :
  inherited notificationName = None →
  observers_of other (state_of (register notificationName observer s)) =
  if decide (other = notificationName)
  then observers_of other s ++ [observer] else observers_of other s.
Proof.
  intros Hname. rewrite register_ordinary by done. unfold Notifier.observers_of. simpl.
  case_decide; simplify_map_eq; done.
Qed.

Lemma register_dispatcher notificationName observer s :
  dispatcher (state_of (register notificationName observer s)) = dispatcher s.
Proof.
  rewrite register_outcome.
  by destruct (observerMap s !! notificationName), (inherited notificationName).
Qed.

Lemma register_no_dangling notificationName observer s :
  no_dangling s → no_dangling (state_of (register notificationName observer s)).
Proof.
  intros Hs. rewrite register_outcome.
  assert (no_dangling
            (set_observerMap
               (<[notificationName := observers_of notificationName s ++ [observer]]>
                  (observerMap s)) s)) as H.
  { intros other observers. simpl.
    destruct (decide (other = notificationName)) as [->|Hne].
    - rewrite lookup_insert_eq. intros [= <-]. by destruct (observers_of _ _).
    - rewrite lookup_insert_ne by done. apply Hs. }
  by destruct (observerMap s !! notificationName), (inherited notificationName).
Qed.

Lemma remove_no_dangling notificationName ctx s :
  no_dangling s → no_dangling (state_of (remove notificationName ctx s)).
Proof.
  intros Hs other observers.
  destruct (remove_registry notificationName ctx s) as ((rest & _ & Hrest) & Hother & _).
  destruct (decide (other = notificationName)) as [->|Hne].
  - rewrite Hrest. destruct rest; [done|]. by intros [= <-].
  - rewrite Hother by done. apply Hs.
Qed.

(** [no_dangling] reads [observerMap] only. *)
Lemma no_dangling_observerMap s s' :
  observerMap s' = observerMap s → no_dangling s → no_dangling s'.
Proof. unfold Notifier.no_dangling. by intros ->. Qed.

Section no_dangling.

(** Whatever [queue] starts keeps [no_dangling]. *)
Variable dq : state → outcome state.
Hypothesis dq_no_dangling : ∀ s, no_dangling s → no_dangling (state_of (dq s)).

Lemma each_invariant {A} (I : state → Prop) (f : A → state → outcome state) l :
  (∀ x s, I s → I (state_of (f x s))) → ∀ s, I s → I (state_of (each f l s)).
Proof.
  intros Hf. induction l as [|x l IH]; intros s Hs; simpl; [done|].
  specialize (Hf x s Hs). destruct (f x s); [by apply IH|done].
Qed.

Lemma queue_no_dangling t s : no_dangling s → no_dangling (state_of (queue dq t s)).
Proof.
  intros Hs. unfold Notifier.queue. simpl.
  destruct (inprogress s); [by destruct s|]. apply dq_no_dangling. by destruct s.
Qed.

Lemma notify_with_no_dangling notification s :
  no_dangling s → no_dangling (state_of (notify_with dq notification s)).
Proof.
  intros Hs. unfold Notifier.notify_with.
  destruct (read _ _); [|done|done].
  apply each_invariant; [|done]. intros observer s' Hs'. by apply queue_no_dangling.
Qed.

Lemma perform_no_dangling c : ∀ s,
  no_dangling s → no_dangling (state_of (perform dq c s)).
Proof.
  induction c as [n ob|n ctx|notification|message|c IH]; intros s Hs; simpl.
  - by apply register_no_dangling.
  - by apply remove_no_dangling.
  - by apply notify_with_no_dangling.
  - done.
  - by apply IH.
Qed.

Lemma Observer_notify_no_dangling observer notification s :
  no_dangling s → no_dangling (state_of (Observer_notify dq observer notification s)).
Proof.
  intros Hs. unfold Notifier.Observer_notify.
  apply each_invariant; [intros c s'; apply perform_no_dangling|by destruct s].
Qed.

End no_dangling.

Lemma run_no_dangling depth : ∀ s, no_dangling s → no_dangling (state_of (run depth s)).
Proof.
  induction depth as [|depth IH]; intros s Hs; simpl.
  - destruct (notificationQueue s) as [|[observer notification] q]; [by destruct s|done].
  - destruct (notificationQueue s) as [|[observer notification] q] eqn:Hq; [by destruct s|].
    pose proof (Observer_notify_no_dangling (run depth) IH observer notification
                  (set_queue true q s)) as H1.
    destruct (Notifier.Observer_notify _ _ _ _ _ _) as [s1|e s1]; simpl in *.
    + assert (no_dangling s1) as Hs1 by (apply H1; by destruct s).
      destruct (_ >? _); [by destruct s1|]. apply IH. by destruct s1.
    + apply H1. by destruct s.
Qed.

Lemma dequeue_no_dangling s : no_dangling s → no_dangling (state_of (dequeue s)).
Proof. apply run_no_dangling. Qed.

Lemma exec_no_dangling st s : no_dangling s → no_dangling (state_of (exec st s)).
Proof.
  intros Hs. destruct st as [c|]; simpl.
  - apply perform_no_dangling; [apply dequeue_no_dangling|done].
  - unfold Notifier.fire. destruct (timers s) eqn:Ht; [done|].
    apply dequeue_no_dangling. by destruct s.
Qed.

Lemma execs_no_dangling steps : ∀ s, no_dangling s → no_dangling (execs steps s).
Proof.
  induction steps as [|st steps IH]; intros s Hs; simpl; [done|].
  by apply IH, exec_no_dangling.
Qed.

(** C6.  After every sequence of calls of [register] and [remove]
    (interleaved with broadcasts and deliveries, whose observing
    functions may register, remove, broadcast and throw as well), no key
    of [observerMap] holds an empty array, and a notification name which
    is not the name of a member of [Object.prototype] passes the test
    [observerMap[ name ] !== undefined] exactly when its array of
    observers is not empty.  In particular, when such a name has no
    observer, registering one and removing it by its context, a context
    which is [==] to itself, leaves the name absent again. *)
Theorem registry_invariant (steps : list step) :
  let s := execs steps initial in
  no_dangling s ∧
  (∀ notificationName,
     inherited notificationName = None →
     (has notificationName s = true ↔ observers_of notificationName s ≠ [])) ∧
  (∀ notificationName observer,
     inherited notificationName = None →
     has notificationName s = false →
     loose_eq (context observer) (context observer) = true →
     ∃ s1 s2,
       register notificationName observer s = Returned s1 ∧
       remove notificationName (context observer) s1 = Returned s2 ∧
       has notificationName s1 = true ∧ has notificationName s2 = false).
Proof.
  intros s.
  assert (no_dangling s) as Hs.
  { apply execs_no_dangling. intros n l. unfold Notifier.initial. simpl.
    by rewrite lookup_empty. }
  split_and!; [done| |].
  - intros n Hn. unfold Notifier.has, Notifier.observers_of.
    rewrite defined_ordinary, bool_decide_eq_true by done.
    destruct (observerMap s !! n) as [l|] eqn:Hlook; simpl.
    + split; [intros _; by eapply Hs|by eauto].
    + split; [by intros [? ?]|done].
  - intros n ob Hn Hhas Hrefl.
    unfold Notifier.has in Hhas. rewrite defined_ordinary in Hhas by done.
    apply bool_decide_eq_false in Hhas.
    assert (observers_of n s = []) as Hnone.
    { unfold Notifier.observers_of. destruct (observerMap s !! n); [|done].
      destruct Hhas; eauto. }
    eexists _, _. split; [by apply register_ordinary|].
    rewrite Hnone. simpl.
    set (s1 := set_observerMap (<[n:=[ob]]> (observerMap s)) s).
    destruct (remove_outcome n (context ob) s1) as [Hr|(_ & _ & k & Hk)]; [|congruence].
    split; [exact Hr|]. split.
    + unfold Notifier.has. rewrite defined_ordinary by done.
      apply bool_decide_eq_true. simpl. rewrite lookup_insert_eq. by eexists.
    + unfold Notifier.has. rewrite defined_ordinary by done. apply bool_decide_eq_false.
      destruct (remove_registry n (context ob) s1) as ((rest & Hperm & Hrest) & _).
      fold s1. rewrite Hrest.
      assert (observers_of n s1 = [ob]) as Hone.
      { unfold Notifier.observers_of, s1. simpl. by rewrite lookup_insert_eq. }
      rewrite Hone in Hperm.
      rewrite filter_cons_False, filter_nil in Hperm by (unfold Notifier.kept; congruence).
      apply Permutation_nil_r in Hperm as ->. by intros [? ?].
Qed.

(** *** Observing functions at work *)

Lemma calls_app l1 l2 : calls (l1 ++ l2) = calls l1 ++ calls l2.
Proof.
  induction l1 as [|[ob n|d] l1 IH]; simpl; [done|by rewrite IH|done].
Qed.

Lemma calls_Called (q : list task) : calls (map (λ t : task, Called t.1 t.2) q) = q.
Proof. induction q as [|[observer notification] q IH]; simpl; [done|by rewrite IH]. Qed.

(** While the sentinel is at the head of the queue, [notify] only
    queues. *)
Lemma each_queue_inprogress dq notification observers : ∀ s,
  inprogress s = true →
  each (λ observer, queue dq (observer, notification)) observers s =
  Returned
    (set_queue true
       (notificationQueue s ++ map (λ observer, (observer, notification)) observers) s).
Proof.
  induction observers as [|observer observers IH]; intros s Hin; simpl.
  - rewrite app_nil_r. destruct s. simpl in *. by subst.
  - unfold Notifier.queue at 1. simpl. rewrite Hin. rewrite IH by done. simpl.
    by rewrite <- app_assoc.
Qed.

(** A call made while the sentinel is at the head of the queue adds to
    the queue at most, and leaves the rest of the dispatcher alone; an
    exception it throws is one of the host or of the program. *)
Lemma perform_inprogress dq c : ∀ s,
  inprogress s = true →
  (∃ added,
     dispatcher (state_of (perform dq c s)) =
     (notificationQueue s ++ added, true, notificationSync s, timers s, log s)) ∧
  (∀ e s', perform dq c s = Thrown e s' → e ≠ Unfinished).
Proof.
  induction c as [n ob|n ctx|notification|message|c IH]; intros s Hin; simpl.
  - split; [|by rewrite register_outcome; repeat case_match; intros e s' [= <- _]].
    exists []. rewrite register_dispatcher, app_nil_r. unfold Notifier.dispatcher. by rewrite Hin.
  - split.
    + exists []. rewrite remove_dispatcher, app_nil_r. unfold Notifier.dispatcher. by rewrite Hin.
    + intros e s'. destruct (remove_outcome n ctx s) as [->|(-> & _)]; [done|].
      by intros [= <- _].
  - unfold Notifier.notify_with. destruct (read _ _) as [observers|m|].
    + rewrite each_queue_inprogress by done. split; [by eexists|done].
    + split; [|by intros e s' [= <- _]].
      exists []. rewrite app_nil_r. unfold Notifier.dispatcher. simpl. by rewrite Hin.
    + split; [|done].
      exists []. rewrite app_nil_r. unfold Notifier.dispatcher. simpl. by rewrite Hin.
  - split; [|by intros e s' [= <- _]].
    exists []. rewrite app_nil_r. unfold Notifier.dispatcher. simpl. by rewrite Hin.
  - split; [|done]. by destruct (IH s Hin) as [H _].
Qed.

Lemma script_inprogress dq script : ∀ s,
  inprogress s = true →
  (∃ added,
     dispatcher (state_of (each (perform dq) script s)) =
     (notificationQueue s ++ added, true, notificationSync s, timers s, log s)) ∧
  (∀ e s', each (perform dq) script s = Thrown e s' → e ≠ Unfinished).
Proof.
  induction script as [|c script IH]; intros s Hin; simpl.
  - split; [|done]. exists []. rewrite app_nil_r. unfold Notifier.dispatcher. by rewrite Hin.
  - destruct (perform_inprogress dq c s Hin) as [[added Hd] He].
    destruct (perform dq c s) as [s1|e s1]; simpl in *.
    + unfold Notifier.dispatcher in Hd. injection Hd as Hq Hb Hsync Ht Hlog.
      destruct (IH s1 Hb) as [[added' Hd'] He']. split; [|done].
      exists (added ++ added'). rewrite Hd', Hq, Hsync, Ht, Hlog. by rewrite <- app_assoc.
    + split; [by exists added|]. intros e' s' [= <- _]. by eapply He.
Qed.

Lemma Observer_notify_inprogress dq observer notification s :
  inprogress s = true →
  (∃ added,
     dispatcher (state_of (Observer_notify dq observer notification s)) =
     (notificationQueue s ++ added, true, notificationSync s, timers s,
      log s ++ [Called observer notification])) ∧
  (∀ e s', Observer_notify dq observer notification s = Thrown e s' → e ≠ Unfinished).
Proof.
  intros Hin. unfold Notifier.Observer_notify.
  by apply (script_inprogress dq _ (emit (Called observer notification) s)).
Qed.

(** *** One turn of the queue *)

Section turn.

(** What is known of the observing functions: nothing ([K] false, [P]
    empty), or that they return ([K]) and that they broadcast to no
    observer a delivery which [P] holds of. *)
Variable P : task → Prop.
Context {P_dec : ∀ t, Decision (P t)}.
Variable K : Prop.
Hypothesis observed : ∀ dq observer notification s,
  inprogress s = true →
  (K → ∃ s', Observer_notify dq observer notification s = Returned s') ∧
  Forall (λ t, ¬ P t)
         (drop (length (notificationQueue s))
               (notificationQueue (state_of (Observer_notify dq observer notification s)))).

(** A run of the queue calls some observing functions, which may add to
    the queue.  It ends in one of three ways: with the queue empty and
    idle, fewer than [slice] functions called; or with [slice] functions
    called and one timer set; or with the exception of the last function
    called, the sentinel left in place and no timer set. *)
Lemma run_turn depth : ∀ s,
  (slice s < depth)%nat →
  ∃ s' called added,
    state_of (run depth s) = s' ∧
    called ++ notificationQueue s' = notificationQueue s ++ added ∧
    Forall (λ t, ¬ P t) added ∧
    ((run depth s = Returned s' ∧ inprogress s' = false ∧ notificationQueue s' = [] ∧
      timers s' = timers s ∧
      notificationSync s' = notificationSync s + Z.of_nat (length called) ∧
      (length called < slice s)%nat ∧
      log s' = log s ++ map (λ t : task, Called t.1 t.2) called) ∨
     (run depth s = Returned s' ∧ inprogress s' = true ∧
      timers s' = timers s ++ [delay o] ∧ notificationSync s' = 0 ∧
      length called = slice s ∧
      log s' = log s ++ map (λ t : task, Called t.1 t.2) called ++ [Yielded (delay o)]) ∨
     (∃ e, run depth s = Thrown e s' ∧ e ≠ Unfinished ∧ ¬ K ∧ inprogress s' = true ∧
      timers s' = timers s ∧
      notificationSync s' = notificationSync s + Z.of_nat (length called) - 1 ∧
      (0 < length called ≤ slice s)%nat ∧
      log s' = log s ++ map (λ t : task, Called t.1 t.2) called)).
Proof.
  induction depth as [|depth IH]; intros s Hdepth; [lia|].
  simpl. destruct (notificationQueue s) as [|[observer notification] q] eqn:Hq.
  { exists (set_queue false [] s), [], []. simpl. rewrite app_nil_r.
    split_and!; [done|done|done|]. left. unfold Notifier.slice.
    split_and!; [done|done|done|done|lia|lia|done]. }
  set (s1 := set_queue true q s).
  destruct (Observer_notify_inprogress (run depth) observer notification s1 eq_refl)
    as [[add1 Hd] He].
  destruct (observed (run depth) observer notification s1 eq_refl) as [Hret Hadd].
  unfold Notifier.dispatcher in Hd. injection Hd as Hq2 Hb2 Hsync2 Ht2 Hlog2.
  simpl in Hq2, Hsync2, Ht2, Hlog2, Hadd.
  rewrite Hq2, drop_app_length in Hadd.
  destruct (Notifier.Observer_notify _ _ _ _ _ _) as [s2|e s2] eqn:Hon; simpl in *.
  - destruct (Z.gtb_spec (notificationSync s2 + 1) (maxSync o)) as [Hgt|Hngt].
    + eexists _, [(observer, notification)], add1.
      split; [reflexivity|]. simpl.
      split_and!; [by rewrite Hq2|done|]. right. left.
      rewrite Hlog2, Ht2, <- app_assoc. unfold Notifier.slice.
      split_and!; [done|done|done|done|lia|done].
    + set (s3 := set_notificationSync (notificationSync s2 + 1) s2).
      assert (slice s = S (slice s3)) as Hslice.
      { unfold Notifier.slice, s3. simpl. lia. }
      destruct (IH s3) as (s' & called & added & Hs' & Happ & Hall & Hcases); [lia|].
      exists s', ((observer, notification) :: called), (add1 ++ added).
      split_and!; [done| |by apply Forall_app|].
      * simpl. rewrite Happ. simpl. by rewrite Hq2, <- app_assoc.
      * destruct Hcases as [(Hr & Hin & Hqq & Htm & Hs & Hlen & Hl)
                           |[(Hr & Hin & Htm & Hs & Hlen & Hl)
                            |(e & Hr & Hne & HK & Hin & Htm & Hs & Hlen & Hl)]].
        -- left. rewrite Hl, Hs, Htm. simpl. rewrite Hlog2, Ht2, <- app_assoc.
           split_and!; [done|done|done|done|lia|lia|done].
        -- right. left. rewrite Hl, Htm. simpl. rewrite Hlog2, Ht2, <- app_assoc.
           split_and!; [done|done|done|done|lia|done].
        -- right. right. exists e. rewrite Hl, Hs, Htm. simpl. rewrite Hlog2, Ht2, <- app_assoc.
           split_and!; [done|done|done|done|done|lia|lia|lia|done].
  - eexists _, [(observer, notification)], add1.
    split; [reflexivity|]. simpl.
    split_and!; [by rewrite Hq2|done|]. right. right. exists e.
    unfold Notifier.slice.
    split_and!; [done|by eapply He| |done|done|lia|lia|lia|done].
    intros HK. by destruct (Hret HK).
Qed.

(** The depth which [dequeue] gives a run is never used up. *)
Lemma dequeue_turn s :
  ∃ s' called added,
    state_of (dequeue s) = s' ∧
    called ++ notificationQueue s' = notificationQueue s ++ added ∧
    Forall (λ t, ¬ P t) added ∧
    ((dequeue s = Returned s' ∧ inprogress s' = false ∧ notificationQueue s' = [] ∧
      timers s' = timers s ∧
      notificationSync s' = notificationSync s + Z.of_nat (length called) ∧
      (length called < slice s)%nat ∧
      log s' = log s ++ map (λ t : task, Called t.1 t.2) called) ∨
     (dequeue s = Returned s' ∧ inprogress s' = true ∧
      timers s' = timers s ++ [delay o] ∧ notificationSync s' = 0 ∧
      length called = slice s ∧
      log s' = log s ++ map (λ t : task, Called t.1 t.2) called ++ [Yielded (delay o)]) ∨
     (∃ e, dequeue s = Thrown e s' ∧ e ≠ Unfinished ∧ ¬ K ∧ inprogress s' = true ∧
      timers s' = timers s ∧
      notificationSync s' = notificationSync s + Z.of_nat (length called) - 1 ∧
      (0 < length called ≤ slice s)%nat ∧
      log s' = log s ++ map (λ t : task, Called t.1 t.2) called)).
Proof. apply run_turn. lia. Qed.

Lemma dequeue_returns s : K → ∃ s', dequeue s = Returned s'.
Proof.
  intros HK. destruct (dequeue_turn s) as (s' & called & added & _ & _ & _ & Hcases).
  destruct Hcases as [(Hr & _)|[(Hr & _)|(e & _ & _ & HnK & _)]]; [by eexists|by eexists|done].
Qed.

(** *** Deliveries *)

(** A run of the queue moves deliveries from the queue to the log and
    adds, after them, those which the observing functions queue. *)
Lemma dequeue_deliveries s :
  ∃ more, deliveries (state_of (dequeue s)) = deliveries s ++ more ∧
          Forall (λ t, ¬ P t) more.
Proof.
  destruct (dequeue_turn s) as (s' & called & added & -> & Happ & Hall & Hcases).
  exists added. split; [|done]. unfold Notifier.deliveries.
  assert (calls (log s') = calls (log s) ++ called) as ->.
  { destruct Hcases as [(_ & _ & _ & _ & _ & _ & ->)
                       |[(_ & _ & _ & _ & _ & ->)|(e & _ & _ & _ & _ & _ & _ & _ & ->)]];
      rewrite ?calls_app, calls_Called; simpl; by rewrite ?app_nil_r. }
  by rewrite <- !app_assoc, Happ.
Qed.

Lemma queue_deliveries t s :
  ∃ more, deliveries (state_of (queue dequeue t s)) = deliveries s ++ t :: more ∧
          Forall (λ t, ¬ P t) more.
Proof.
  unfold Notifier.queue. simpl. destruct (inprogress s).
  - exists []. split; [|done]. unfold Notifier.deliveries. simpl. by rewrite app_assoc.
  - destruct (dequeue_deliveries (set_queue false (notificationQueue s ++ [t]) s))
      as (more & -> & Hall).
    exists more. split; [|done]. unfold Notifier.deliveries. simpl.
    by rewrite <- !app_assoc.
Qed.

Lemma queue_returns t s : K → ∃ s', queue dequeue t s = Returned s'.
Proof.
  intros HK. unfold Notifier.queue. simpl. destruct (inprogress s); [by eexists|].
  by apply dequeue_returns.
Qed.

(** The loop of [notify] queues a delivery for each observer of the
    list, up to the one whose observing function, called at once,
    throws; between them are the deliveries which the observing
    functions called meanwhile have queued. *)
Lemma each_queue_deliveries notification observers : ∀ s,
  ∃ taken more,
    taken `prefix_of` observers ∧
    deliveries (state_of (each (λ observer, queue dequeue (observer, notification))
                               observers s)) = deliveries s ++ more ∧
    filter P more = filter P (map (λ observer, (observer, notification)) taken) ∧
    (K → taken = observers ∧
         ∃ s', each (λ observer, queue dequeue (observer, notification)) observers s =
               Returned s').
Proof.
  induction observers as [|observer observers IH]; intros s; simpl.
  { exists [], []. rewrite app_nil_r. split_and!; [done|done|done|]. by eauto. }
  destruct (queue_deliveries (observer, notification) s) as (more1 & Hd1 & Hall1).
  pose proof (queue_returns (observer, notification) s) as Hret.
  destruct (queue dequeue (observer, notification) s) as [s1|e s1]; simpl in *.
  - destruct (IH s1) as (taken & more & Hpre & Hd & Hf & HK).
    exists (observer :: taken), ((observer, notification) :: more1 ++ more).
    split_and!.
    + by apply prefix_cons.
    + rewrite Hd, Hd1. by rewrite <- app_assoc.
    + change ((observer, notification) :: more1 ++ more)
        with ([(observer, notification)] ++ more1 ++ more).
      change (map (λ observer0, (observer0, notification)) (observer :: taken))
        with ([(observer, notification)] ++ map (λ observer0, (observer0, notification)) taken).
      by rewrite !filter_app, Hf, (filter_Forall_nil _ more1).
    + intros HK'. destruct (HK HK') as [-> Hr]. done.
  - exists [observer], ((observer, notification) :: more1). split_and!.
    + apply prefix_cons, prefix_nil.
    + done.
    + change ((observer, notification) :: more1) with ([(observer, notification)] ++ more1).
      by rewrite filter_app, (filter_Forall_nil _ more1), app_nil_r.
    + intros HK. by destruct (Hret HK).
Qed.

Lemma notify_deliveries notification s :
  ∃ taken more,
    taken `prefix_of` observers_of (name notification) s ∧
    deliveries (state_of (notify notification s)) = deliveries s ++ more ∧
    filter P more = filter P (map (λ observer, (observer, notification)) taken) ∧
    (K → inherited (name notification) = None →
     taken = observers_of (name notification) s ∧
     ∃ s', notify notification s = Returned s').
Proof.
  unfold Notifier.notify, Notifier.notify_with, Notifier.observers_of, Host.read.
  destruct (observerMap s !! name notification) as [observers|] eqn:Hlook; simpl.
  - destruct (each_queue_deliveries notification observers s)
      as (taken & more & Hpre & Hd & Hf & HK).
    exists taken, more. split_and!; [done|done|done|]. intros HK' _. by apply HK.
  - exists [], []. rewrite app_nil_r. split_and!; [done| |done|].
    + by destruct (inherited (name notification)).
    + intros _ ->. by eauto.
Qed.

Lemma fire_deliveries s :
  ∃ more, deliveries (state_of (fire s)) = deliveries s ++ more ∧
          Forall (λ t, ¬ P t) more.
Proof.
  unfold Notifier.fire. destruct (timers s) as [|d ts].
  - exists []. by rewrite app_nil_r.
  - apply (dequeue_deliveries (set_timers ts s)).
Qed.

Lemma deliveries_dispatcher s s' : dispatcher s' = dispatcher s → deliveries s' = deliveries s.
Proof.
  unfold Notifier.dispatcher, Notifier.deliveries. intros H. by injection H as -> _ _ _ ->.
Qed.

(** Whatever is done, the deliveries made and queued stay, in their
    order, the first ones. *)
Lemma perform_prefix c : ∀ s,
  deliveries s `prefix_of` deliveries (state_of (perform dequeue c s)).
Proof.
  induction c as [n ob|n ctx|notification|message|c IH]; intros s; simpl.
  - by rewrite (deliveries_dispatcher _ _ (register_dispatcher n ob s)).
  - by rewrite (deliveries_dispatcher _ _ (remove_dispatcher n ctx s)).
  - destruct (notify_deliveries notification s) as (taken & more & _ & Hd & _).
    unfold Notifier.notify in Hd. rewrite Hd. by eexists.
  - done.
  - apply IH.
Qed.

Lemma exec_prefix st s : deliveries s `prefix_of` deliveries (state_of (exec st s)).
Proof.
  destruct st as [c|]; simpl; [apply perform_prefix|].
  destruct (fire_deliveries s) as (more & -> & _). by eexists.
Qed.

Lemma execs_prefix steps : ∀ s, deliveries s `prefix_of` deliveries (execs steps s).
Proof.
  induction steps as [|st steps IH]; intros s; [done|].
  etrans; [apply exec_prefix|apply IH].
Qed.

(** *** The counter and the timer *)

Lemma paced_dispatcher s s' : dispatcher s' = dispatcher s → paced s → paced s'.
Proof.
  unfold Notifier.dispatcher, Notifier.paced. intros H. by injection H as -> -> -> -> _.
Qed.

Lemma dequeue_paced s :
  timers s = [] → 0 ≤ notificationSync s ≤ Z.max 0 (maxSync o) →
  paced (state_of (dequeue s)).
Proof.
  intros Ht Hsync.
  destruct (dequeue_turn s) as (s' & called & added & -> & _ & _ & Hcases).
  unfold Notifier.paced, Notifier.slice in *.
  destruct Hcases as [(_ & Hb & Hq & Htm & Hs & Hlen & _)
                     |[(_ & Hb & Htm & Hs & Hlen & _)
                      |(e & _ & _ & _ & Hb & Htm & Hs & Hlen & _)]];
    rewrite Hs, Htm, Hb, Ht.
  - split_and!; [lia|lia|by left|done].
  - split_and!; [lia|lia|by right|done].
  - split_and!; [lia|lia|by left|done].
Qed.

Lemma queue_paced t s : paced s → paced (state_of (queue dequeue t s)).
Proof.
  intros (Hsync & Ht & Hq). unfold Notifier.queue. simpl.
  destruct (inprogress s) eqn:Hin.
  - unfold Notifier.paced. simpl. split_and!; [lia|lia|done|done].
  - apply dequeue_paced; [|done]. simpl. by destruct Ht as [?|(_ & ? & _)].
Qed.

Lemma fire_paced s : paced s → paced (state_of (fire s)).
Proof.
  intros Hs. unfold Notifier.fire. destruct (timers s) as [|d ts] eqn:Ht; [done|].
  destruct Hs as (Hsync & [Hnil|(Hone & _ & _)] & _); [congruence|].
  apply dequeue_paced; [|done]. simpl. congruence.
Qed.

Lemma perform_paced c : ∀ s, paced s → paced (state_of (perform dequeue c s)).
Proof.
  induction c as [n ob|n ctx|notification|message|c IH]; intros s Hs; simpl.
  - eapply paced_dispatcher; [apply register_dispatcher|done].
  - eapply paced_dispatcher; [apply remove_dispatcher|done].
  - unfold Notifier.notify_with. destruct (read _ _); [|done|done].
    apply each_invariant; [|done]. intros observer s'. apply queue_paced.
  - done.
  - by apply IH.
Qed.

Lemma exec_paced st s : paced s → paced (state_of (exec st s)).
Proof. destruct st; simpl; [apply perform_paced|apply fire_paced]. Qed.

Lemma execs_paced steps : ∀ s, paced s → paced (execs steps s).
Proof.
  induction steps as [|st steps IH]; intros s Hs; simpl; [done|].
  by apply IH, exec_paced.
Qed.

(** *** Observing functions which return *)

Lemma idle_consistent s : idle s → consistent s.
Proof. intros (Hb & Hq & Ht). unfold Notifier.consistent. by rewrite Hb. Qed.

Lemma consistent_dispatcher s s' :
  dispatcher s' = dispatcher s → consistent s → consistent s'.
Proof.
  unfold Notifier.dispatcher, Notifier.consistent. intros H. by injection H as -> -> _ -> _.
Qed.

Lemma dequeue_consistent s : K → timers s = [] → consistent (state_of (dequeue s)).
Proof.
  intros HK Ht.
  destruct (dequeue_turn s) as (s' & called & added & -> & _ & _ & Hcases).
  unfold Notifier.consistent.
  destruct Hcases as [(_ & Hb & Hq & Htm & _)
                     |[(_ & Hb & Htm & _)|(e & _ & _ & HnK & _)]]; [| |done];
    rewrite Hb, Htm, Ht; [done|by eexists].
Qed.

Lemma queue_consistent t s : K → consistent s → consistent (state_of (queue dequeue t s)).
Proof.
  intros HK. unfold Notifier.queue. simpl. destruct (inprogress s) eqn:Hb.
  - unfold Notifier.consistent. simpl. by rewrite Hb.
  - unfold Notifier.consistent at 1. rewrite Hb. intros [_ Ht]. by apply dequeue_consistent.
Qed.

Lemma fire_consistent s : K → consistent s → consistent (state_of (fire s)).
Proof.
  intros HK Hs. unfold Notifier.fire. destruct (timers s) as [|d ts] eqn:Ht; [done|].
  apply dequeue_consistent; [done|]. unfold Notifier.consistent in Hs.
  destruct (inprogress s).
  - destruct Hs as [d' Hd]. simpl. congruence.
  - destruct Hs as [_ Hnil]. congruence.
Qed.

Lemma perform_consistent c : ∀ s,
  K → consistent s → consistent (state_of (perform dequeue c s)).
Proof.
  induction c as [n ob|n ctx|notification|message|c IH]; intros s HK Hs; simpl.
  - eapply consistent_dispatcher; [apply register_dispatcher|done].
  - eapply consistent_dispatcher; [apply remove_dispatcher|done].
  - unfold Notifier.notify_with. destruct (read _ _); [|done|done].
    apply each_invariant; [|done]. intros observer s'. by apply queue_consistent.
  - done.
  - by apply IH.
Qed.

Lemma exec_consistent st s : K → consistent s → consistent (state_of (exec st s)).
Proof. destruct st; simpl; [apply perform_consistent|apply fire_consistent]. Qed.

Lemma execs_consistent steps : ∀ s, K → consistent s → consistent (execs steps s).
Proof.
  induction steps as [|st steps IH]; intros s HK Hs; simpl; [done|].
  by apply IH, exec_consistent.
Qed.

(** A timer which comes due while functions are queued calls one of
    them at least. *)
Lemma fire_progress s :
  K → consistent s →
  ∃ called, calls (log (state_of (fire s))) = calls (log s) ++ called ∧
            (notificationQueue s ≠ [] → called ≠ []).
Proof.
  intros HK Hs. unfold Notifier.fire, Notifier.consistent in *.
  destruct (inprogress s) eqn:Hb.
  - destruct Hs as [d ->].
    destruct (dequeue_turn (set_timers [] s))
      as (s' & called & added & -> & Happ & _ & Hcases).
    exists called. split.
    + destruct Hcases as [(_ & _ & _ & _ & _ & _ & ->)
                         |[(_ & _ & _ & _ & _ & ->)|(e & _ & _ & _ & _ & _ & _ & _ & ->)]];
        rewrite ?calls_app, calls_Called; simpl; by rewrite ?app_nil_r.
    + intros Hq ->. simpl in Happ.
      destruct Hcases as [(_ & _ & Hq' & _)|[(_ & _ & _ & _ & Hlen & _)|(e & _ & _ & HnK & _)]].
      * rewrite Hq' in Happ. by destruct (notificationQueue s).
      * unfold Notifier.slice in Hlen. simpl in Hlen. lia.
      * done.
  - destruct Hs as [Hq ->]. exists []. by rewrite app_nil_r.
Qed.

Lemma prefix_of_app_length {A} (l k1 k2 : list A) :
  l `prefix_of` k1 ++ k2 → (length l ≤ length k1)%nat → l `prefix_of` k1.
Proof.
  intros [r Hr] Hlen. exists (drop (length l) k1).
  apply (f_equal (take (length l))) in Hr.
  rewrite take_app_le in Hr by done. rewrite take_app_length in Hr.
  rewrite <- Hr at 1. by rewrite take_drop.
Qed.

(** As many timers as there are queued functions bring all of them to
    a call. *)
Lemma fires_drain k : ∀ s (l : list task),
  K → consistent s → l `prefix_of` deliveries s →
  (length l ≤ length (calls (log s)) + k)%nat →
  l `prefix_of` calls (log (fires k s)).
Proof.
  induction k as [|k IH]; intros s l HK Hs Hpre Hlen; simpl.
  - apply (prefix_of_app_length _ _ _ Hpre). lia.
  - destruct (fire_progress s HK Hs) as (called & Hcalled & Hsome).
    destruct (fire_deliveries s) as (more & Hd & _).
    apply IH; [done|by apply fire_consistent| |].
    + rewrite Hd. by apply prefix_app_r.
    + rewrite Hcalled, length_app.
      destruct (notificationQueue s) as [|t q] eqn:Hq.
      * unfold Notifier.deliveries in Hpre. rewrite Hq, app_nil_r in Hpre.
        apply prefix_length in Hpre. lia.
      * assert (called ≠ []) as Hne by by apply Hsome.
        destruct called; [done|]. simpl. lia.
Qed.

Lemma fires_deliveries k : ∀ s,
  ∃ more, deliveries (fires k s) = deliveries s ++ more ∧ Forall (λ t, ¬ P t) more.
Proof.
  induction k as [|k IH]; intros s; simpl.
  - exists []. by rewrite app_nil_r.
  - destruct (fire_deliveries s) as (more1 & Hd1 & Hall1).
    destruct (IH (state_of (fire s))) as (more & Hd & Hall).
    exists (more1 ++ more). rewrite Hd, Hd1, <- app_assoc. split; [done|].
    by apply Forall_app.
Qed.

(** Left to the timers, the notifier calls all that is queued, and
    after it only deliveries which observing functions have queued
    meanwhile. *)
Lemma settle_calls s :
  K → consistent s →
  ∃ more, calls (log (settle s)) ++ notificationQueue (settle s) = deliveries s ++ more ∧
          deliveries s `prefix_of` calls (log (settle s)) ∧
          Forall (λ t, ¬ P t) more.
Proof.
  intros HK Hs. unfold Notifier.settle.
  destruct (fires_deliveries (S (length (notificationQueue s))) s) as (more & Hd & Hall).
  exists more. split_and!; [done| |done].
  apply fires_drain; [done|done|done|].
  unfold Notifier.deliveries. rewrite length_app. lia.
Qed.

Lemma filter_prefix_between (l m k : list task) :
  l `prefix_of` m → m `prefix_of` l ++ k → Forall (λ t, ¬ P t) k →
  filter P m = filter P l.
Proof.
  intros [r ->] [r' Hr'] Hall. rewrite <- app_assoc in Hr'.
  apply app_inv_head in Hr'. rewrite filter_app.
  assert (Forall (λ t, ¬ P t) r) as Hr.
  { rewrite Hr' in Hall. by apply Forall_app in Hall as [? _]. }
  by rewrite (filter_Forall_nil _ r), app_nil_r.
Qed.

Lemma settle_filter s :
  K → consistent s → filter P (calls (log (settle s))) = filter P (deliveries s).
Proof.
  intros HK Hs. destruct (settle_calls s HK Hs) as (more & Heq & Hpre & Hall).
  apply (filter_prefix_between _ _ more); [done| |done].
  rewrite <- Heq. by apply prefix_app_r.
Qed.

(** *** How many observing functions one turn calls *)

Lemma dequeue_bound s :
  (length (calls (log (state_of (dequeue s)))) ≤ length (calls (log s)) + slice s)%nat.
Proof.
  destruct (dequeue_turn s) as (s' & called & added & -> & _ & _ & Hcases).
  destruct Hcases as [(_ & _ & _ & _ & _ & Hlen & ->)
                     |[(_ & _ & _ & _ & Hlen & ->)|(e & _ & _ & _ & _ & _ & _ & Hlen & ->)]];
    rewrite ?calls_app, calls_Called, ?length_app; simpl; lia.
Qed.

Lemma each_queue_bound notification observers : ∀ s,
  consistent s →
  (length (calls (log (state_of (each (λ observer, queue dequeue (observer, notification))
                                      observers s))))
   ≤ length (calls (log s)) + slice s)%nat.
Proof.
  induction observers as [|observer observers IH]; intros s Hs; [simpl; lia|].
  destruct (inprogress s) eqn:Hin.
  { rewrite each_queue_inprogress by done. simpl. lia. }
  unfold Notifier.consistent in Hs. rewrite Hin in Hs. destruct Hs as [Hq Ht].
  cbn [Host.each]. unfold Notifier.queue at 1. simpl. rewrite Hin, Hq. simpl app.
  match goal with
  | |- context [Notifier.dequeue _ _ _ ?s0] =>
      destruct (dequeue_turn s0) as (s' & called & added & Hs' & _ & _ & Hcases);
      change (slice s0) with (slice s) in Hcases
  end.
  destruct Hcases as [(Hr & Hb & Hqq & Htm & Hsync & Hlen & Hl)
                     |[(Hr & Hb & Htm & Hsync & Hlen & Hl)
                      |(e & Hr & _ & _ & Hb & Htm & Hsync & Hlen & Hl)]];
    rewrite Hr.
  - assert (consistent s') as Hcons.
    { apply idle_consistent. split_and!; [done|done|]. by rewrite Htm. }
    etrans; [apply (IH s' Hcons)|].
    rewrite Hl, calls_app, calls_Called, length_app.
    unfold Notifier.slice in *. rewrite Hsync. simpl in *. lia.
  - rewrite each_queue_inprogress by done. simpl.
    rewrite Hl, !calls_app, calls_Called, !length_app. simpl. lia.
  - simpl. rewrite Hl, calls_app, calls_Called, length_app. simpl. lia.
Qed.

End turn.

(** Nothing need be known of the observing functions, [K] being false
    and [P] empty. *)
Lemma observed_anyhow dq observer notification (s : state) :
  inprogress s = true →
  (False → ∃ s', Observer_notify dq observer notification s = Returned s') ∧
  Forall (λ t : task, ¬ False)
         (drop (length (notificationQueue s))
               (notificationQueue (state_of (Observer_notify dq observer notification s)))).
Proof. intros _. split; [done|]. apply Forall_forall. tauto. Qed.

Lemma observed_discreet (P : task → Prop) :
  discreet P →
  ∀ dq observer notification (s : state),
    inprogress s = true →
    (True → ∃ s', Observer_notify dq observer notification s = Returned s') ∧
    Forall (λ t : task, ¬ P t)
           (drop (length (notificationQueue s))
                 (notificationQueue (state_of (Observer_notify dq observer notification s)))).
Proof.
  intros HP dq observer notification s Hin.
  destruct (HP dq observer notification s Hin) as (s' & Hr & Hall).
  rewrite Hr. split; [by eauto|done].
Qed.

(** X3.  In one turn, a call of [notify] or a timer coming due, at most
    [slice] observing functions are called, which is [maxSync + 1] when
    the counter is at 0, one more than [maxSync]; and a call of [notify]
    while the queue waits for its timer calls none. *)
Theorem turn_bound (s : state) :
  consistent s →
  (length (calls (log (state_of (fire s)))) ≤ length (calls (log s)) + slice s)%nat ∧
  (∀ notification,
     (length (calls (log (state_of (notify notification s))))
      ≤ length (calls (log s)) + slice s)%nat) ∧
  (inprogress s = true → ∀ notification, log (state_of (notify notification s)) = log s) ∧
  (0 ≤ notificationSync s → 0 ≤ maxSync o → Z.of_nat (slice s) ≤ maxSync o + 1).
Proof.
  intros Hs. split_and!.
  - unfold Notifier.fire. destruct (timers s) as [|d ts]; [simpl; lia|].
    apply (dequeue_bound (λ _, False) False observed_anyhow (set_timers ts s)).
  - intros notification. unfold Notifier.notify, Notifier.notify_with.
    destruct (read _ _) as [observers| |]; [|simpl; lia|simpl; lia].
    by apply (each_queue_bound (λ _, False) False observed_anyhow).
  - intros Hin notification. unfold Notifier.notify, Notifier.notify_with.
    destruct (read _ _) as [observers| |]; [|done|done].
    by rewrite each_queue_inprogress.
  - intros Hsync Hmax. unfold Notifier.slice. lia.
Qed.

(** *** Observing functions which return and do not broadcast *)

Section exact.

Hypothesis silent : discreet (λ _, True).

(** A run of the queue either calls all that is queued and leaves the
    queue idle, or calls [slice] observing functions, sets one timer and
    leaves the rest queued. *)
Lemma dequeue_exact s :
  ∃ s', dequeue s = Returned s' ∧
  let q := notificationQueue s in
  ((length q < slice s)%nat ∧
   log s' = log s ++ map (λ t : task, Called t.1 t.2) q ∧
   notificationQueue s' = [] ∧ inprogress s' = false ∧
   notificationSync s' = notificationSync s + Z.of_nat (length q) ∧
   timers s' = timers s) ∨
  ((slice s ≤ length q)%nat ∧
   log s' =
     log s ++ map (λ t : task, Called t.1 t.2) (take (slice s) q) ++ [Yielded (delay o)] ∧
   notificationQueue s' = drop (slice s) q ∧ inprogress s' = true ∧
   notificationSync s' = 0 ∧
   timers s' = timers s ++ [delay o]).
Proof.
  destruct (dequeue_turn (λ _, True) True (observed_discreet _ silent) s)
    as (s' & called & added & _ & Happ & Hall & Hcases).
  assert (added = []) as ->.
  { destruct added as [|t added]; [done|]. by inversion Hall as [|? ? Ht]. }
  rewrite app_nil_r in Happ. exists s'.
  destruct Hcases as [(Hr & Hb & Hq & Htm & Hs & Hlen & Hl)
                     |[(Hr & Hb & Htm & Hs & Hlen & Hl)|(e & _ & _ & HnK & _)]];
    [| |done]; (split; [done|]); cbn zeta.
  - left. rewrite Hq, app_nil_r in Happ. subst called.
    split_and!; done.
  - right. rewrite <- Happ.
    rewrite <- Hlen, take_app_length, drop_app_length, length_app.
    split_and!; [lia|done|done|done|done|done].
Qed.

Lemma fire_shape s :
  consistent s →
  idle (state_of (fire s)) ∨
  (consistent (state_of (fire s)) ∧
   (length (notificationQueue (state_of (fire s))) < length (notificationQueue s))%nat).
Proof.
  unfold Notifier.consistent at 1, Notifier.fire. destruct (inprogress s) eqn:Hb.
  - intros [d ->].
    destruct (dequeue_exact (set_timers [] s)) as (s' & -> & Hcases). simpl in *.
    destruct Hcases as [(Hlen & _ & Hq & Hb' & _ & Htm)|(Hlen & _ & Hq & Hb' & _ & Htm)].
    + by left.
    + right. unfold Notifier.consistent. rewrite Hb', Htm, Hq, length_drop.
      split; [by eexists|]. unfold Notifier.slice in *. lia.
  - intros [Hq Ht]. rewrite Ht. by left.
Qed.

Lemma fires_idle k : ∀ s, idle s → fires k s = s.
Proof.
  induction k as [|k IH]; intros s Hs; simpl; [done|].
  assert (state_of (fire s) = s) as ->; [|by apply IH].
  unfold Notifier.fire. by destruct Hs as (_ & _ & ->).
Qed.

Lemma fires_settles k : ∀ s,
  consistent s → (length (notificationQueue s) < k)%nat → idle (fires k s).
Proof.
  induction k as [|k IH]; intros s Hs Hlen; simpl; [lia|].
  destruct (fire_shape s Hs) as [Hidle|[Hcons Hless]].
  - by rewrite fires_idle.
  - apply IH; [done|lia].
Qed.

Lemma settle_idle s : consistent s → idle (settle s).
Proof. intros Hs. apply fires_settles; [done|lia]. Qed.

(** *** The slices of a long queue *)

Lemma bursts_Called (c : list task) :
  bursts (map (λ t : task, Called t.1 t.2) c) = [length c].
Proof. induction c as [|[observer notification] c IH]; simpl; [done|by rewrite IH]. Qed.

Lemma bursts_Yielded (c : list task) d (l : list event) :
  bursts (map (λ t : task, Called t.1 t.2) c ++ Yielded d :: l) = length c :: bursts l.
Proof. induction c as [|[observer notification] c IH]; simpl; [done|by rewrite IH]. Qed.

Lemma fires_slices k : ∀ s,
  (length (notificationQueue s) < k)%nat →
  inprogress s = true → (∃ d, timers s = [d]) → notificationSync s = 0 → 0 ≤ maxSync o →
  let m := Z.to_nat (maxSync o + 1) in
  let n := length (notificationQueue s) in
  ∃ added, log (fires k s) = log s ++ added ∧ calls added = notificationQueue s ∧
           bursts added = replicate (n / m) m ++ [n mod m]%nat.
Proof.
  induction k as [|k IH]; intros s Hk Hin [d Ht] Hsync Hmax m n; [lia|].
  cbn [Notifier.fires]. unfold Notifier.fire at 1. rewrite Ht.
  destruct (dequeue_exact (set_timers [] s)) as (s' & -> & Hcases).
  cbn [Host.state_of]. cbn zeta in Hcases.
  change (notificationQueue (set_timers [] s)) with (notificationQueue s) in Hcases.
  assert (slice (set_timers [] s) = m) as Hslice.
  { unfold Notifier.slice. simpl. rewrite Hsync. unfold m. lia. }
  rewrite Hslice in Hcases.
  destruct Hcases as [(Hlen & Hl & Hq & Hb & _ & Htm)|(Hlen & Hl & Hq & Hb & Hs & Htm)].
  - rewrite fires_idle by done. exists (map (λ t : task, Called t.1 t.2) (notificationQueue s)).
    split_and!; [done|by apply calls_Called|].
    rewrite bursts_Called. fold n in Hlen |- *.
    by rewrite Nat.div_small, Nat.mod_small.
  - destruct (IH s') as (added & Hadded & Hcalls & Hbursts); [| | | | |].
    + rewrite Hq, length_drop. lia.
    + done.
    + rewrite Htm. by eexists.
    + done.
    + done.
    + rewrite Hq, length_drop in Hbursts. fold m n in Hbursts.
      exists (map (λ t : task, Called t.1 t.2) (take m (notificationQueue s))
                ++ Yielded (delay o) :: added).
      split_and!.
      * rewrite Hadded, Hl. simpl. by rewrite <- !app_assoc.
      * rewrite calls_app, calls_Called. simpl. rewrite Hcalls, Hq. apply take_drop.
      * rewrite bursts_Yielded, Hbursts, length_take.
        fold n. fold n in Hlen.
        assert (m ≠ 0)%nat as Hm by (unfold m; lia).
        assert (n = (n - m) + 1 * m)%nat as Hn by lia.
        assert (n / m = S ((n - m) / m))%nat as ->.
        { rewrite Hn at 1. rewrite Nat.div_add by done. lia. }
        assert (n mod m = (n - m) mod m)%nat as ->.
        { rewrite Hn at 1. by rewrite Nat.Div0.mod_add. }
        by replace (m `min` n)%nat with m by lia.
Qed.

End exact.

(** X4.  When the observing functions return and do not broadcast, a queue
    which waits for its timer, with the counter at 0, is called in
    slices of [maxSync + 1] observing functions, each ended by a call of
    [setTimeout], and the rest in a last one: [n] queued functions take
    [n / (maxSync + 1)] more timers. *)
Theorem time_slices (s : state) :
  discreet (λ _, True) →
  consistent s → inprogress s = true → notificationSync s = 0 → 0 ≤ maxSync o →
  let m := Z.to_nat (maxSync o + 1) in
  let n := length (notificationQueue s) in
  ∃ added, log (settle s) = log s ++ added ∧ calls added = notificationQueue s ∧
           bursts added = replicate (n / m) m ++ [n mod m]%nat.
Proof.
  intros Hsilent Hs Hin Hsync Hmax. apply fires_slices; [done|lia|done| |done|done].
  unfold Notifier.consistent in Hs. by rewrite Hin in Hs.
Qed.

(** *** From the start *)

Lemma initial_consistent : consistent initial.
Proof. by split. Qed.

Lemma initial_paced : paced initial.
Proof. unfold Notifier.paced. simpl. split_and!; [done|lia|by left|done]. Qed.

(** X2.  Whatever is done to the notifier from the start, and whatever the
    observing functions do, between two turns of the host the counter
    [notificationSync] is between 0 and [maxSync] (it is 0 when
    [maxSync] is negative); at most one timer is pending, and then the
    queue is in progress, the timer is set to [delay] and the counter is
    0; and a queue which is not in progress is empty.  When the
    observing functions return, a queue in progress has its timer
    pending. *)
Theorem one_timer_pending (steps : list step) :
  let s := execs steps initial in
  0 ≤ notificationSync s ≤ Z.max 0 (maxSync o) ∧
  (timers s = [] ∨
   timers s = [delay o] ∧ inprogress s = true ∧ notificationSync s = 0) ∧
  (inprogress s = false → notificationQueue s = []) ∧
  (discreet (λ _, False) → inprogress s = true → timers s = [delay o]).
Proof.
  intros s.
  destruct (execs_paced (λ _, False) False observed_anyhow steps initial initial_paced)
    as (Hsync & Ht & Hq).
  assert (discreet (λ _, False) → consistent s) as Hc.
  { intros Hreturn.
    exact (execs_consistent (λ _, False) True (observed_discreet _ Hreturn)
             steps initial I initial_consistent). }
  fold s in Hsync, Ht, Hq. clearbody s.
  split_and!; [lia|lia|done|done|].
  intros Hreturn Hin. specialize (Hc Hreturn).
  unfold Notifier.consistent in Hc. rewrite Hin in Hc.
  destruct Hc as [d Hd]. destruct Ht as [Hnil|(Hone & _)]; [congruence|done].
Qed.

(** X1.  When the observing functions return, the notifier, left to the
    timers, calls all the observing functions that are queued, in the
    order of the queue; after them it calls only what observing
    functions have queued meanwhile.  And whatever is done to it in
    between (registrations, removals, broadcasts, timers coming due),
    the deliveries made and queued by then stay the first ones made, in
    their order. *)
Theorem nothing_is_dropped (P : task → Prop) `{!∀ t, Decision (P t)} (s : state) :
  discreet P → consistent s →
  deliveries s `prefix_of` calls (log (settle s)) ∧
  filter P (calls (log (settle s))) = filter P (deliveries s) ∧
  (∀ steps, deliveries s `prefix_of` calls (log (settle (execs steps s)))).
Proof.
  intros HP Hs. pose proof (observed_discreet P HP) as Hobs.
  destruct (settle_calls P True Hobs s I Hs) as (more & _ & Hpre & _).
  split_and!; [done|by apply (settle_filter P True Hobs)|].
  intros steps.
  assert (consistent (execs steps s)) as Hs' by by apply (execs_consistent P True Hobs).
  destruct (settle_calls P True Hobs (execs steps s) I Hs') as (more' & _ & Hpre' & _).
  etrans; [|exact Hpre']. apply (execs_prefix P True Hobs).
Qed.

(** Once an observing function has thrown, nothing is called any more:
    the sentinel stays at the head of the queue with no timer to call
    [next], and [notify] only queues. *)
Lemma perform_stuck c : ∀ s,
  stuck s →
  stuck (state_of (perform dequeue c s)) ∧ log (state_of (perform dequeue c s)) = log s.
Proof.
  intros s [Hin Ht].
  destruct (perform_inprogress dequeue c s Hin) as [[added Hd] _].
  unfold Notifier.dispatcher in Hd. injection Hd as _ Hb _ Htm Hl.
  unfold Notifier.stuck. by rewrite Hb, Htm, Hl.
Qed.

(** X22.  An exception of an observing function leaves the queue in
    progress with no timer pending, and from then on no observing
    function is called, whatever is registered, removed or broadcast and
    however many timers come due. *)
Theorem exception_stops_delivery (s : state) (e : exception) (s' : state) :
  timers s = [] → dequeue s = Thrown e s' →
  stuck s' ∧ ∀ steps, stuck (execs steps s') ∧ log (execs steps s') = log s'.
Proof.
  intros Ht Hthrown.
  destruct (dequeue_turn (λ _, False) False observed_anyhow s)
    as (s'' & called & added & Hs'' & _ & _ & Hcases).
  rewrite Hthrown in Hs'', Hcases. simpl in Hs''. subst s''.
  assert (stuck s') as Hstuck.
  { destruct Hcases as [(Hr & _)|[(Hr & _)|(e' & _ & _ & _ & Hb & Htm & _)]];
      [done|done|]. split; [done|congruence]. }
  split; [done|]. intros steps. revert Hstuck. generalize s'. clear.
  induction steps as [|st steps IH]; intros s Hs; [done|].
  simpl. assert (stuck (state_of (exec st s)) ∧ log (state_of (exec st s)) = log s) as [H1 H2].
  { destruct st as [c|]; simpl; [by apply perform_stuck|].
    unfold Notifier.fire. destruct Hs as [Hb Ht]. by rewrite Ht. }
  destruct (IH _ H1) as [H3 H4]. split; [done|congruence].
Qed.

(** *** Registration, removal and broadcast *)

Lemma registers_ordinary e observers : ∀ s,
  inherited e = None →
  ∃ s1, each (register e) observers s = Returned s1 ∧
        observers_of e s1 = observers_of e s ++ observers ∧
        dispatcher s1 = dispatcher s.
Proof.
  induction observers as [|observer observers IH]; intros s He; simpl.
  - exists s. by rewrite app_nil_r.
  - pose proof (register_observers e observer s e He) as Hobs.
    pose proof (register_dispatcher e observer s) as Hd.
    rewrite register_ordinary in * by done. simpl in *.
    match goal with
    | |- context [Host.each _ _ ?s0] => destruct (IH s0 He) as (s1 & Hr & Hobs1 & Hd1)
    end.
    exists s1.
    rewrite Hr, Hobs1, Hobs, decide_True, Hd1, Hd by done. by rewrite <- app_assoc.
Qed.

Lemma registry_call_dispatcher c s :
  registry_call c → dispatcher (state_of (perform dequeue c s)) = dispatcher s.
Proof.
  destruct c as [n ob|n ctx| | |]; simpl; [intros _|intros _|done..].
  - apply register_dispatcher.
  - apply remove_dispatcher.
Qed.

Lemma registry_calls_dispatcher cs : ∀ s,
  Forall registry_call cs → dispatcher (execs (map Perform cs) s) = dispatcher s.
Proof.
  induction cs as [|c cs IH]; intros s Hcs; [done|].
  inversion Hcs as [|? ? Hc Hcs']; subst. simpl.
  rewrite IH by done. by apply registry_call_dispatcher.
Qed.

Lemma filter_named_map e (notification : Notification) (observers : list Observer) :
  name notification = e →
  filter (named e) (map (λ observer, (observer, notification)) observers) =
  map (λ observer, (observer, notification)) observers.
Proof.
  intros He. apply filter_Forall_id. apply Forall_forall.
  intros t (observer & -> & _)%list_elem_of_fmap. done.
Qed.

Lemma filter_all {A} (l : list A) : filter (λ _, True) l = l.
Proof. apply filter_Forall_id. by apply Forall_forall. Qed.

(** A broadcast and what the timers make of it, when the observing
    functions return and queue nothing which [P] holds of. *)
Lemma notify_settled (P : task → Prop) `{!∀ t, Decision (P t)}
  (notification : Notification) (s : state) :
  discreet P → consistent s → inherited (name notification) = None →
  ∃ s', notify notification s = Returned s' ∧ consistent s' ∧
        filter P (deliveries s') =
          filter P (deliveries s) ++
          filter P (map (λ observer, (observer, notification))
                        (observers_of (name notification) s)) ∧
        ∀ s'', dispatcher s'' = dispatcher s' →
               filter P (calls (log (settle s''))) = filter P (deliveries s').
Proof.
  intros HP Hs Hname. pose proof (observed_discreet P HP) as Hobs.
  destruct (notify_deliveries P True Hobs notification s)
    as (taken & more & _ & Hd & Hf & HK).
  destruct (HK I Hname) as (-> & s' & Hr). rewrite Hr in Hd. simpl in Hd.
  assert (consistent s') as Hs'.
  { pose proof (perform_consistent P True Hobs (Notify notification) s I Hs) as Hpc.
    simpl in Hpc. unfold Notifier.notify in Hr. by rewrite Hr in Hpc. }
  exists s'. split_and!; [done|done|by rewrite Hd, filter_app, Hf|].
  intros s'' Hd''. rewrite (settle_filter P True Hobs).
  - by rewrite (deliveries_dispatcher _ _ Hd'').
  - done.
  - by apply (consistent_dispatcher s').
Qed.

Lemma execs_initial_consistent (P : task → Prop) (steps : list step) :
  discreet P → consistent (execs steps initial).
Proof.
  intros HP.
  exact (execs_consistent P True (observed_discreet P HP) steps initial I initial_consistent).
Qed.



(** X5.  After [remove( name, context )], for a name which is not the name
    of a member of [Object.prototype], a notification of that name goes
    to the observers that were registered for it whose context is not
    [==] to the one removed, to each of them once, and to no other,
    when the observing functions return and do not themselves broadcast
    a notification of that name. *)
Theorem removed_is_not_notified (steps : list step) (notification : Notification)
  (ctx : Ctx) :
  let s := execs steps initial in
  let e := name notification in
  inherited e = None → discreet (named e) →
  ∃ s1 s2 observers,
    remove e ctx s = Returned s1 ∧
    notify notification s1 = Returned s2 ∧
    filter (named e) (deliveries s2) =
      filter (named e) (deliveries s) ++
      map (λ observer, (observer, notification)) observers ∧
    observers ≡ₚ filter (kept ctx) (observers_of e s) ∧
    Forall (λ observer, loose_eq (context observer) ctx = false) observers.
Proof.
  intros s e He HP.
  assert (consistent s) as Hs by by apply (execs_initial_consistent (named e)).
  destruct (remove_registry e ctx s) as ((rest & Hperm & Hrest) & _ & Hd).
  destruct (remove_outcome e ctx s) as [Hr|(_ & _ & k & Hk)]; [|congruence].
  set (s1 := state_of (remove e ctx s)) in *.
  assert (consistent s1) as Hs1 by by apply (consistent_dispatcher s).
  destruct (notify_settled (named e) notification s1 HP Hs1 He)
    as (s2 & Hr2 & _ & Hf & _).
  exists s1, s2, rest. split_and!; [done|done| |done|].
  - rewrite Hf, (deliveries_dispatcher _ _ Hd), filter_named_map by done.
    do 2 f_equal. unfold Notifier.observers_of. fold e. rewrite Hrest. by destruct rest.
  - rewrite Hperm. apply Forall_forall. intros observer Hin.
    by apply list_elem_of_filter in Hin as [Hkept _].
Qed.

End facts.

(** *** On a run *)

(** Observing functions which do nothing return and queue nothing. *)
Lemma quiet_discreet (P : @task nat Z → Prop) : discreet Nat.eqb quiet P.
Proof.
  intros dq observer notification s _. eexists. split; [reflexivity|].
  simpl. by rewrite drop_all.
Qed.

(** An observing function which broadcasts [tock] returns and queues
    deliveries of [tock] only. *)
Lemma relaying_discreet : discreet Nat.eqb relaying (named "tick").
Proof.
  intros dq observer notification s Hin.
  unfold Notifier.Observer_notify, relaying.
  destruct (Nat.eqb (fn observer) 0 && String.eqb (name notification) "tick").
  - simpl. unfold Notifier.notify_with.
    destruct (read _ _) as [observers|m|] eqn:Hread.
    + rewrite each_queue_inprogress by done. eexists. split; [reflexivity|].
      simpl. rewrite drop_app_length. apply Forall_forall.
      intros t (ob & -> & _)%list_elem_of_fmap. by vm_compute.
    + unfold Host.read in Hread. destruct (_ !! _); [done|]. by vm_compute in Hread.
    + eexists. split; [reflexivity|]. simpl. by rewrite drop_all.
  - eexists. split; [reflexivity|]. simpl. by rewrite drop_all.
Qed.

(** C2.  With the default [maxSync] of 5, thirteen observers of one
    notification are called in bursts of six, six and one: six
    observing functions run between the two calls of [setTimeout]. *)
Theorem six_calls_between_yields :
  maxSync default_options = 5 ∧
  bursts (log (settle Nat.eqb default_options quiet
                 (execs Nat.eqb default_options quiet (tick_to thirteen) initial)))
  = [6; 6; 1]%nat.
Proof. split; [done|]. by vm_compute. Qed.

(** The snapshot on a run: the first of three observers removes the
    second and registers a fourth while it is called; the three
    observers of the moment of [notify] are the ones called, and the
    change shows in the registry afterwards. *)
Example snapshot_under_change :
  let s := settle Nat.eqb default_options meddling
             (execs Nat.eqb default_options meddling
                    (tick_to (map observer_no [0; 1; 2]%nat)) initial) in
  calls (log s) = map (λ i, (observer_no i, tick)) [0; 1; 2]%nat ∧
  observers_of "tick" s = map observer_no [0; 2; 7]%nat.
Proof. by vm_compute. Qed.

(** Observing functions which register and remove under an ordinary
    name return and queue nothing. *)
Lemma meddling_discreet (P : @task nat Z → Prop) : discreet Nat.eqb meddling P.
Proof.
  intros dq observer notification s Hin.
  unfold Notifier.Observer_notify, meddling. destruct (Nat.eqb (fn observer) 0).
  - cbn [Host.each Notifier.perform].
    set (s0 := emit (Called observer notification) s).
    destruct (remove_outcome Nat.eqb "tick" 1%nat s0) as [Hr|(_ & _ & k & Hk)];
      [|by vm_compute in Hk].
    rewrite Hr, register_ordinary by done. eexists. split; [reflexivity|].
    pose proof (remove_dispatcher Nat.eqb "tick" 1%nat s0) as Hd.
    unfold Notifier.dispatcher in Hd. injection Hd as Hq _ _ _ _.
    simpl. rewrite Hq. simpl. by rewrite drop_all.
  - eexists. split; [reflexivity|]. simpl. by rewrite drop_all.
Qed.





Lemma registry_invariant_witness :
  let s := execs Nat.eqb default_options meddling
                 (tick_to (map observer_no [0; 1]%nat) ++ [Perform (Remove "tick" 0%nat)])
                 initial in
  inherited "tack" = None ∧ has "tack" s = false ∧
  ∃ s1 s2,
    register "tack" (observer_no 7) s = Returned s1 ∧
    remove Nat.eqb "tack" 7%nat s1 = Returned s2 ∧
    has "tack" s1 = true ∧ has "tack" s2 = false.
Proof.
  intros s. split; [reflexivity|]. split; [by vm_compute|].
  apply (proj2 (proj2 (registry_invariant Nat.eqb default_options meddling
                         (tick_to (map observer_no [0; 1]%nat)
                            ++ [Perform (Remove "tick" 0%nat)])))
               "tack" (observer_no 7) eq_refl).
  - by vm_compute.
  - reflexivity.
Defined.

(** Under the name of a member of [Object.prototype] the test
    [observerMap[ name ] !== undefined] holds although no observer is
    registered, and none can be. *)
Lemma an_inherited_name_is_present :
  has "toString" (@initial nat Z) = true ∧
  observers_of "toString" (@initial nat Z) = [] ∧
  register "toString" (observer_no 0) (@initial nat Z) = Thrown TypeError initial.
Proof. by vm_compute. Qed.

(** With nothing registered for it, [remove( "constructor", context )]
    is no no-op: it throws. *)
Lemma remove_throws :
  observers_of "constructor" (@initial nat Z) = [] ∧
  remove Nat.eqb "constructor" 3%nat (@initial nat Z) = Thrown TypeError initial.
Proof. by vm_compute. Qed.

Lemma remove_exactly_witness :
  let s := execs Nat.eqb default_options quiet
                 (map (λ i, Perform (Register "tick" (observer_no i))) [0; 1; 0; 2]%nat)
                 initial in
  inherited "tick" = None ∧
  remove Nat.eqb "tick" 0%nat s = Returned (state_of (remove Nat.eqb "tick" 0%nat s)).
Proof.
  intros s. split; [reflexivity|].
  destruct (remove_exactly Nat.eqb "tick" 0%nat s) as (_ & _ & _ & _ & _ & _ & Hreturns).
  exact (Hreturns eq_refl).
Defined.

(** A removal on a run: of the observers on the contexts 0, 1, 0 and 2
    those on 0 go. *)
Example remove_on_a_run :
  let s := execs Nat.eqb default_options quiet
                 (map (λ i, Perform (Register "tick" (observer_no i))) [0; 1; 0; 2]%nat)
                 initial in
  observers_of "tick" (state_of (remove Nat.eqb "tick" 0%nat s)) = map observer_no [2; 1]%nat.
Proof. by vm_compute. Qed.

Lemma nothing_is_dropped_witness :
  deliveries paused `prefix_of` calls (log (settle Nat.eqb default_options quiet paused)) ∧
  filter (λ _, True) (calls (log (settle Nat.eqb default_options quiet paused))) =
    filter (λ _, True) (deliveries paused).
Proof.
  destruct (nothing_is_dropped Nat.eqb default_options quiet (λ _, True) paused
              (quiet_discreet _)) as (H1 & H2 & _).
  - vm_compute. by exists 10.
  - by split.
Defined.

Lemma turn_bound_witness :
  (length (calls (log (state_of (fire Nat.eqb default_options quiet paused))))
   ≤ length (calls (log paused)) + slice default_options paused)%nat.
Proof.
  refine (proj1 (turn_bound Nat.eqb default_options quiet paused _)).
  vm_compute. by exists 10.
Defined.

Lemma time_slices_witness :
  ∃ added,
    log (settle Nat.eqb default_options quiet paused) = log paused ++ added ∧
    calls added = notificationQueue paused ∧
    bursts added = [6; 1]%nat.
Proof.
  destruct (time_slices Nat.eqb default_options quiet paused (quiet_discreet _))
    as (added & Hl & Hc & Hb).
  - vm_compute. by exists 10.
  - by vm_compute.
  - by vm_compute.
  - done.
  - exists added. split_and!; [exact Hl|exact Hc|]. rewrite Hb. by vm_compute.
Defined.

Lemma removed_is_not_notified_witness :
  let s := execs Nat.eqb default_options relaying
                 (map (λ i, Perform (Register "tick" (observer_no i))) [0; 1; 0; 2]%nat)
                 initial in
  inherited "tick" = None ∧
  ∃ s1 s2 observers,
    remove Nat.eqb "tick" 0%nat s = Returned s1 ∧
    notify Nat.eqb default_options relaying tick s1 = Returned s2 ∧
    filter (named "tick") (deliveries s2) =
      map (λ observer, (observer, tick)) observers ∧
    observers ≡ₚ map observer_no [1; 2]%nat.
Proof.
  intros s. split; [reflexivity|].
  destruct (removed_is_not_notified Nat.eqb default_options relaying
              (map (λ i, Perform (Register "tick" (observer_no i))) [0; 1; 0; 2]%nat)
              tick 0%nat eq_refl relaying_discreet)
    as (s1 & s2 & observers & H1 & H2 & H3 & H4 & _).
  exists s1, s2, observers. split_and!; [exact H1|exact H2|exact H3|].
  etrans; [exact H4|]. by vm_compute.
Defined.

Lemma exception_stops_delivery_witness :
  let s := set_queue false [(observer_no 1, tick); (observer_no 2, tick)] initial in
  ∃ s', dequeue Nat.eqb default_options failing s = Thrown (Exception "no") s' ∧
        stuck s' ∧ notificationQueue s' = [(observer_no 2, tick)].
Proof.
  intros s. eexists. split; [by vm_compute|]. split; [|by vm_compute].
  refine (proj1 (exception_stops_delivery Nat.eqb default_options failing s
                   (Exception "no") _ eq_refl _)).
  by vm_compute.
Defined.

End NotifierFacts.

(** ** Derivation *)

Module DerivationFacts.

Import Derivation.


Section facts.

Context {W : Type}.
Variable apply : loc → value → list value → W → completion * W.
Variable hidden : completion.

Local Abbreviation _super := (Derivation._super apply hidden).

(** X23.  Called by a function which is not strict mode code and has a
    function as its [__super], [_super] applies that function to its own
    [this] and arguments and returns what it returns; called by such a
    function without one, or from outside any function, it throws its
    message.  Called by strict mode code it throws, whatever the
    [__super] of the caller: the engine does not tell who the caller
    is. *)
Theorem _super_dispatch (sup : gmap loc value) (this : value) (arguments : list value)
  (w : W) :
  (∀ f g, sup !! f = Some (VFunction g) →
          _super sup (Within f false) this arguments w = apply g this arguments w) ∧
  (∀ f, (∀ g, sup !! f ≠ Some (VFunction g)) →
        _super sup (Within f false) this arguments w = (Throw no_super, w)) ∧
  _super sup Toplevel this arguments w = (Throw no_super, w) ∧
  (hidden = Return VNull ∨ (∃ e, hidden = Throw e) →
   ∀ f, ∃ e, _super sup (Within f true) this arguments w = (Throw e, w)).
Proof.
  split_and!.
  - intros f g Hsup. unfold Derivation._super. simpl. by rewrite Hsup.
  - intros f Hnone. unfold Derivation._super. simpl.
    destruct (sup !! f) as [v|] eqn:Hsup; simpl; [|done].
    destruct v as [| | | | |g|]; simpl; try done. by destruct (Hnone g).
  - done.
  - intros Hhidden f. unfold Derivation._super. simpl.
    destruct Hhidden as [->|[e ->]]; by eexists.
Qed.

End facts.

Section modules.

(** The host's reading of a [length] which is no number. *)
Variable indices : value → nat.

Local Abbreviation module := (Derivation.module indices).
Local Abbreviation derive := (Derivation.derive indices).
Local Abbreviation visited := (Derivation.visited indices).

Lemma visited_properties P : read_prop "length" P = VUndefined → visited P = P.
Proof. unfold Derivation.visited. by intros ->. Qed.

Lemma record_super_overrides B sup name fn f :
  overrides B name fn f →
  record_super B sup (name, fn) = <[f := read_prop name B]> sup.
Proof.
  intros (Hname & -> & Hfun & Hne). unfold Derivation.record_super.
  destruct (String.eqb_spec name "constructor") as [|_]; [done|].
  rewrite Hfun. destruct (read_prop name B) as [| | | | |g|]; try done. simpl.
  destruct (Nat.eqb_spec f g) as [->|_]; [done|]. done.
Qed.

Lemma record_super_other B sup name fn :
  (∀ f, ¬ overrides B name fn f) → record_super B sup (name, fn) = sup.
Proof.
  intros Hnone. unfold Derivation.record_super.
  destruct (String.eqb_spec name "constructor") as [|Hname]; [done|].
  destruct fn as [| | | | |f|]; simpl; try by rewrite ?andb_false_r.
  destruct (read_prop name B) as [| | | | |g|] eqn:Hg; simpl; try done.
  destruct (Nat.eqb_spec f g) as [->|Hne]; [done|]. simpl.
  destruct (Hnone f). unfold Derivation.overrides. rewrite Hg. split_and!; [done|done|done|congruence].
Qed.

(** Whether an entry overrides, for a given function, can be told. *)
Lemma overrides_dec B name fn f : overrides B name fn f ∨ ¬ overrides B name fn f.
Proof.
  unfold Derivation.overrides.
  destruct (String.eqb_spec name "constructor") as [|Hname]; [right; tauto|].
  destruct fn as [| | | | |f'|]; try by (right; intros (_ & [=] & _)).
  destruct (decide (f' = f)) as [->|Hf]; [|right; intros (_ & [=] & _); done].
  destruct (read_prop name B) as [| | | | |g|]; try by (right; intros (_ & _ & [=] & _)).
  destruct (decide (g = f)) as [->|Hg]; [right; intros (_ & _ & _ & Hne); done|].
  left. split_and!; [done|done|done|congruence].
Qed.

Lemma overrides_cases B name fn :
  (∃ f, overrides B name fn f) ∨ (∀ f, ¬ overrides B name fn f).
Proof.
  destruct fn as [| | | | |f'|];
    try (right; intros f (_ & Hfn & _); discriminate Hfn).
  destruct (overrides_dec B name (VFunction f') f') as [Hov|Hov].
  - left. by exists f'.
  - right. intros f Hf. apply Hov. destruct Hf as (H1 & Hfn & H2).
    assert (f = f') as -> by congruence. destruct H2. by repeat split.
Qed.

Lemma each_super_snoc B P entry sup :
  each_super B (P ++ [entry]) sup = record_super B (each_super B P sup) entry.
Proof. unfold Derivation.each_super. by rewrite foldl_app. Qed.

Lemma each_super_unchanged B P f : ∀ sup,
  (∀ k fn, (k, fn) ∈ P → ¬ overrides B k fn f) →
  each_super B P sup !! f = sup !! f.
Proof.
  unfold Derivation.each_super.
  induction P as [|[k fn] P IH]; intros sup Hnone; cbn [foldl]; [done|].
  rewrite IH by (intros k' fn' Hin; apply Hnone; by right).
  destruct (overrides_cases B k fn) as [[f' Hov]|Hov].
  - rewrite (record_super_overrides _ _ _ _ _ Hov).
    apply lookup_insert_ne. intros ->. by apply (Hnone k fn); [left|].
  - by rewrite record_super_other.
Qed.

Lemma each_super_recorded B P f sup k fn :
  (k, fn) ∈ P → overrides B k fn f →
  ∃ k', (k', fn) ∈ P ∧ overrides B k' fn f ∧
        each_super B P sup !! f = Some (read_prop k' B).
Proof.
  induction P as [|[k2 fn2] P IH] using rev_ind; intros Hin Hov; [by apply elem_of_nil in Hin|].
  rewrite each_super_snoc.
  destruct (overrides_dec B k2 fn2 f) as [Hov2|Hov2].
  - assert (fn2 = fn) as -> by (destruct Hov as (_ & -> & _), Hov2 as (_ & -> & _); done).
    exists k2. split_and!; [apply elem_of_app; right; by apply list_elem_of_singleton|done|].
    rewrite (record_super_overrides _ _ _ _ _ Hov2). apply lookup_insert_eq.
  - assert ((k, fn) ∈ P) as Hin'.
    { apply elem_of_app in Hin as [Hin|Hin]; [done|].
      apply list_elem_of_singleton in Hin as [= -> ->]. done. }
    destruct (IH Hin' Hov) as (k' & Hk' & Hov' & Hlook).
    exists k'. split_and!; [apply elem_of_app; by left|done|].
    destruct (overrides_cases B k2 fn2) as [[f' Hov3]|Hov3].
    + rewrite (record_super_overrides _ _ _ _ _ Hov3).
      rewrite lookup_insert_ne; [done|]. by intros ->.
    + by rewrite record_super_other.
Qed.

(** What [module] records is what the function it hands to [$.each]
    makes of the entries visited. *)
Lemma module_supers name base proto h :
  supers (module name base proto h).2 =
  each_super (properties (prototype base))
             (visited (properties (prototype (module name base proto h).1))) (supers h).
Proof.
  unfold Derivation.module.
  destruct (extend_new _ _) as [options nx].
  destruct (extend _ _ _ _) as [bprops nx'].
  by destruct (extend _ _ _ _) as [bprops' nx''].
Qed.


Lemma write_absent target name x v : target ∉ objs v → write target name x v = v.
Proof.
  induction v as [| | | | | |k l props IH] using value_ind; try done.
  simpl. intros Hnot.
  apply not_elem_of_cons in Hnot as [Hl Hprops].
  assert (map (λ p, (p.1, write target name x p.2)) props = props) as ->.
  { clear Hl. induction props as [|[k' w] props IHprops]; [done|].
    simpl in *. apply not_elem_of_app in Hprops as [Hw Hprops].
    inversion IH as [|? ? Hhead Htail]; subst. simpl in Hhead.
    by rewrite Hhead, IHprops. }
  by destruct (Nat.eqb_spec l target) as [->|_].
Qed.

Lemma below_mono n n' ls : (n ≤ n')%nat → below n ls → below n' ls.
Proof. intros Hle Hb. eapply Forall_impl; [exact Hb|]. simpl. intros l Hl. lia. Qed.

Lemma objs_get_prop name props : objs (get_prop name props) ⊆ objs_props props.
Proof.
  induction props as [|[k w] props IH]; simpl; [done|].
  unfold Derivation.objs_props. simpl. destruct (String.eqb k name); intros l Hl; apply elem_of_app.
  - by left.
  - right. by apply IH.
Qed.

Lemma owned_get_prop name props : owned (get_prop name props) ⊆ owned_props props.
Proof.
  induction props as [|[k w] props IH]; simpl; [done|].
  unfold Derivation.owned_props. simpl. destruct (String.eqb k name); intros l Hl; apply elem_of_app.
  - by left.
  - right. by apply IH.
Qed.

Lemma objs_set_prop name v props l :
  l ∈ objs_props (set_prop name v props) → l ∈ objs_props props ∨ l ∈ objs v.
Proof.
  unfold Derivation.objs_props. induction props as [|[k w] props IH]; simpl.
  - rewrite app_nil_r. by right.
  - destruct (String.eqb k name); simpl; intros [Hl|Hl]%elem_of_app.
    + by right.
    + left. apply elem_of_app. by right.
    + left. apply elem_of_app. by left.
    + destruct (IH Hl) as [H|H]; [left; apply elem_of_app; by right|by right].
Qed.

Lemma owned_set_prop name v props l :
  l ∈ owned_props (set_prop name v props) → l ∈ owned_props props ∨ l ∈ owned v.
Proof.
  unfold Derivation.owned_props. induction props as [|[k w] props IH]; simpl.
  - rewrite app_nil_r. by right.
  - destruct (String.eqb k name); simpl; intros [Hl|Hl]%elem_of_app.
    + by right.
    + left. apply elem_of_app. by right.
    + left. apply elem_of_app. by left.
    + destruct (IH Hl) as [H|H]; [left; apply elem_of_app; by right|by right].
Qed.

Lemma get_set_prop name v props : get_prop name (set_prop name v props) = v.
Proof.
  induction props as [|[k w] props IH]; simpl.
  - by rewrite String.eqb_refl.
  - destruct (String.eqb k name) eqn:Hk; simpl; by rewrite Hk.
Qed.

(** *** What a deep [extend] allocates and what it keeps *)

Lemma extend_nil tl tp k l nx : extend tl tp (VObject k l []) nx = (tp, nx).
Proof. done. Qed.

Lemma extend_cons tl tp k l name copy ps nx :
  extend tl tp (VObject k l ((name, copy) :: ps)) nx =
  if is_target tl copy then extend tl tp (VObject k l ps) nx
  else
    match copy with
    | VUndefined => extend tl tp (VObject k l ps) nx
    | VObject Other _ _ => extend tl (set_prop name copy tp) (VObject k l ps) nx
    | VObject k' _ _ =>
        let '(cl, cprops, nx) := clone_of k' (get_prop name tp) nx in
        let '(cprops, nx) := extend cl cprops copy nx in
        extend tl (set_prop name (VObject k' cl cprops) tp) (VObject k l ps) nx
    | _ => extend tl (set_prop name copy tp) (VObject k l ps) nx
    end.
Proof. by destruct copy as [| | | | | |[] ? ?]. Qed.

Lemma clone_of_spec k src nx cl cprops nx1 :
  clone_of k src nx = (cl, cprops, nx1) →
  (nx ≤ nx1)%nat ∧
  (∀ a, a ∈ cl :: objs_props cprops → a ∈ objs src ∨ (nx ≤ a < nx1)%nat) ∧
  (k ≠ Other →
   ∀ a, a ∈ cl :: owned_props cprops → a ∈ owned src ∨ (nx ≤ a < nx1)%nat).
Proof.
  intros Hclone. unfold Derivation.clone_of in Hclone.
  destruct src as [| | | | | |k' l' p']; try destruct (kind_eqb k k') eqn:Hkk;
    injection Hclone as <- <- <-;
    try (split_and!; [lia| |intros _];
         intros a [->|Ha]%elem_of_cons;
         solve [right; lia|by apply elem_of_nil in Ha]).
  split_and!; [lia|by left|].
  intros Hk a Ha. left. by destruct k, k'.
Qed.

Lemma extend_ok_leaf options :
  (∀ tl tp nx, extend tl tp options nx = (tp, nx)) → extend_ok options.
Proof.
  intros Heq tl tp nx tp' nx' H. rewrite Heq in H. injection H as <- <-.
  split_and!; [lia|by left|by left].
Qed.

Lemma extend_spec options : extend_ok options.
Proof.
  induction options as [| | | | | |k l props IH] using value_ind;
    try by apply extend_ok_leaf.
  induction props as [|[name copy] ps IHps].
  { by apply extend_ok_leaf. }
  inversion IH as [|? ? Hcopy Hps]; subst. simpl in Hcopy.
  specialize (IHps Hps). clear IH.
  intros tl tp nx tp' nx' Hext.
  rewrite extend_cons in Hext.
  assert (∀ a, a ∈ objs (VObject k l ps) → a ∈ objs (VObject k l ((name, copy) :: ps)))
    as Hrest.
  { simpl. intros a [->|Ha]%elem_of_cons; [by left|right].
    apply elem_of_app. by right. }
  assert (∀ a, a ∈ objs copy → a ∈ objs (VObject k l ((name, copy) :: ps))) as Hhead.
  { simpl. intros a Ha. right. apply elem_of_app. by left. }
  (* the entry is skipped *)
  assert (extend tl tp (VObject k l ps) nx = (tp', nx') →
          (nx ≤ nx')%nat ∧
          (∀ a, a ∈ objs_props tp' →
                a ∈ objs_props tp ∨ a ∈ objs (VObject k l ((name, copy) :: ps)) ∨
                (nx ≤ a < nx')%nat) ∧
          (∀ a, a ∈ owned_props tp' → a ∈ owned_props tp ∨ (nx ≤ a < nx')%nat)) as Hskip.
  { intros Hext'. destruct (IHps _ _ _ _ _ Hext') as (Hle & Hb & Ho).
    split_and!; [done| |done].
    intros a Ha. destruct (Hb a Ha) as [H|[H|H]]; [by left|right; left; by apply Hrest|].
    by right; right. }
  (* the value is stored as it is *)
  assert (owned copy = [] →
          extend tl (set_prop name copy tp) (VObject k l ps) nx = (tp', nx') →
          (nx ≤ nx')%nat ∧
          (∀ a, a ∈ objs_props tp' →
                a ∈ objs_props tp ∨ a ∈ objs (VObject k l ((name, copy) :: ps)) ∨
                (nx ≤ a < nx')%nat) ∧
          (∀ a, a ∈ owned_props tp' → a ∈ owned_props tp ∨ (nx ≤ a < nx')%nat)) as Hstore.
  { intros Hown Hext'.
    destruct (IHps _ _ _ _ _ Hext') as (Hle & Hb & Ho).
    split_and!; [done| |].
    - intros a Ha. destruct (Hb a Ha) as [H|[H|H]].
      + apply objs_set_prop in H as [H|H]; [by left|right; left; by apply Hhead].
      + right; left; by apply Hrest.
      + by right; right.
    - intros a Ha. destruct (Ho a Ha) as [H|H]; [|by right].
      apply owned_set_prop in H as [H|H]; [by left|].
      rewrite Hown in H. by apply elem_of_nil in H. }
  destruct (is_target tl copy); [by apply Hskip|].
  destruct copy as [| | | | | |k' l' p']; try by apply Hstore.
  { by apply Hskip. }
  destruct (decide (k' = Other)) as [->|Hk']; [by apply Hstore|].
  assert ((let '(cl, cprops, nx) := clone_of k' (get_prop name tp) nx in
           let '(cprops, nx) := extend cl cprops (VObject k' l' p') nx in
           extend tl (set_prop name (VObject k' cl cprops) tp) (VObject k l ps) nx)
          = (tp', nx')) as Hext' by (destruct k'; [exact Hext|exact Hext|done]).
  clear Hext Hstore Hskip. rename Hext' into Hext.
  destruct (clone_of k' (get_prop name tp) nx) as [[cl cprops] nx1] eqn:Hclone.
  destruct (extend cl cprops (VObject k' l' p') nx1) as [cprops' nx2] eqn:Hnested.
  destruct (clone_of_spec _ _ _ _ _ _ Hclone) as (Hle1 & Hcb & Hco).
  specialize (Hco Hk').
  destruct (Hcopy _ _ _ _ _ Hnested) as (Hle2 & Hb2 & Ho2).
  destruct (IHps _ _ _ _ _ Hext) as (Hle3 & Hb3 & Ho3).
  split_and!; [lia| |].
  - intros a Ha. destruct (Hb3 a Ha) as [H|[H|H]];
      [|right; left; by apply Hrest|right; right; lia].
    apply objs_set_prop in H as [H|H]; [by left|].
    simpl in H. apply elem_of_cons in H as [->|H].
    + destruct (Hcb cl) as [Hin|Hin]; [by left| |right; right; lia].
      left. by apply (objs_get_prop name).
    + destruct (Hb2 a H) as [Hin|[Hin|Hin]];
        [|right; left; by apply Hhead|right; right; lia].
      destruct (Hcb a) as [Hin'|Hin']; [by right| |right; right; lia].
      left. by apply (objs_get_prop name).
  - intros a Ha. destruct (Ho3 a Ha) as [H|H]; [|right; lia].
    apply owned_set_prop in H as [H|H]; [by left|].
    assert (a ∈ cl :: owned_props cprops') as Ha' by (by destruct k').
    apply elem_of_cons in Ha' as [->|Ha'].
    + destruct (Hco cl) as [Hin|Hin]; [by left| |right; lia].
      left. by apply (owned_get_prop name).
    + destruct (Ho2 a Ha') as [Hin|Hin]; [|right; lia].
      destruct (Hco a) as [Hin'|Hin']; [by right| |right; lia].
      left. by apply (owned_get_prop name).
Qed.

Lemma get_set_prop_ne name name' v props :
  name ≠ name' → get_prop name (set_prop name' v props) = get_prop name props.
Proof.
  intros Hne. induction props as [|[k w] props IH]; simpl.
  - destruct (String.eqb_spec name' name); [congruence|done].
  - destruct (String.eqb_spec k name') as [->|Hk]; simpl.
    + destruct (String.eqb_spec name' name); [congruence|done].
    + by rewrite IH.
Qed.

(** The same, key by key: a plain object or array under [name] in the
    target afterwards was under [name] before, or is new. *)
Lemma extend_key options name : ∀ tl tp nx tp' nx',
  extend tl tp options nx = (tp', nx') →
  ∀ a, a ∈ owned (get_prop name tp') →
       a ∈ owned (get_prop name tp) ∨ (nx ≤ a < nx')%nat.
Proof.
  destruct options as [| | | | | |k l ps];
    try (intros tl tp nx tp' nx' [= <- <-] a Ha; by left).
  induction ps as [|[name0 copy] ps IH]; intros tl tp nx tp' nx' Hext a Ha.
  { injection Hext as <- <-. by left. }
  rewrite extend_cons in Hext.
  assert (owned copy = [] →
          extend tl (set_prop name0 copy tp) (VObject k l ps) nx = (tp', nx') →
          a ∈ owned (get_prop name tp) ∨ (nx ≤ a < nx')%nat) as Hstore.
  { intros Hown Hext'. destruct (IH _ _ _ _ _ Hext' a Ha) as [H|H]; [|by right].
    destruct (decide (name = name0)) as [->|Hne].
    - rewrite get_set_prop, Hown in H. by apply elem_of_nil in H.
    - rewrite get_set_prop_ne in H by done. by left. }
  destruct (is_target tl copy); [by apply (IH _ _ _ _ _ Hext)|].
  destruct copy as [| | | | | |k' l' p']; try by apply Hstore.
  { by apply (IH _ _ _ _ _ Hext). }
  destruct (decide (k' = Other)) as [->|Hk']; [by apply Hstore|].
  assert ((let '(cl, cprops, nx) := clone_of k' (get_prop name0 tp) nx in
           let '(cprops, nx) := extend cl cprops (VObject k' l' p') nx in
           extend tl (set_prop name0 (VObject k' cl cprops) tp) (VObject k l ps) nx)
          = (tp', nx')) as Hext' by (destruct k'; [exact Hext|exact Hext|done]).
  clear Hext Hstore. rename Hext' into Hext.
  destruct (clone_of k' (get_prop name0 tp) nx) as [[cl cprops] nx1] eqn:Hclone.
  destruct (extend cl cprops (VObject k' l' p') nx1) as [cprops' nx2] eqn:Hnested.
  destruct (clone_of_spec _ _ _ _ _ _ Hclone) as (Hle1 & _ & Hco).
  specialize (Hco Hk').
  destruct (extend_spec _ _ _ _ _ _ Hnested) as (Hle2 & _ & Ho2).
  destruct (extend_spec _ _ _ _ _ _ Hext) as (Hle3 & _ & _).
  destruct (IH _ _ _ _ _ Hext a Ha) as [H|H]; [|right; lia].
  destruct (decide (name = name0)) as [->|Hne].
  - rewrite get_set_prop in H.
    assert (a ∈ cl :: owned_props cprops') as Ha' by (by destruct k').
    apply elem_of_cons in Ha' as [->|Ha'].
    + destruct (Hco cl) as [Hin|Hin]; [by left|by left|right; lia].
    + destruct (Ho2 a Ha') as [Hin|Hin]; [|right; lia].
      destruct (Hco a) as [Hin'|Hin']; [by right|by left|right; lia].
  - rewrite get_set_prop_ne in H by done. by left.
Qed.

(** [$.extend( true, {}, ... )] makes a new plain object in which every
    plain object and array is new; the other objects in it are those of
    the arguments. *)
Lemma extend_new_spec args nx v nx' :
  extend_new args nx = (v, nx') →
  (nx < nx')%nat ∧
  (∀ a, a ∈ objs v → (∃ arg, arg ∈ args ∧ a ∈ objs arg) ∨ (nx ≤ a < nx')%nat) ∧
  (∀ a, a ∈ owned v → (nx ≤ a < nx')%nat).
Proof.
  unfold Derivation.extend_new.
  assert (∀ args acc,
            let r := foldl (λ '(props, nx') a, extend nx props a nx') acc args in
            (acc.2 ≤ r.2)%nat ∧
            (∀ a, a ∈ objs_props r.1 →
                  a ∈ objs_props acc.1 ∨ (∃ arg, arg ∈ args ∧ a ∈ objs arg) ∨
                  (acc.2 ≤ a < r.2)%nat) ∧
            (∀ a, a ∈ owned_props r.1 →
                  a ∈ owned_props acc.1 ∨ (acc.2 ≤ a < r.2)%nat)) as Hfold.
  { clear. intros args. induction args as [|arg args IH]; intros [props n]; simpl.
    - split_and!; [lia|by left|by left].
    - destruct (extend nx props arg n) as [props1 n1] eqn:Hext.
      destruct (extend_spec _ _ _ _ _ _ Hext) as (Hle & Hb & Ho).
      destruct (IH (props1, n1)) as (Hle' & Hb' & Ho'). simpl in *.
      split_and!; [lia| |].
      + intros a Ha. destruct (Hb' a Ha) as [H|[(arg' & Harg & H)|H]].
        * destruct (Hb a H) as [H'|[H'|H']]; [by left| |right; right; lia].
          right; left. exists arg. split; [by left|done].
        * right; left. exists arg'. split; [by right|done].
        * right; right. lia.
      + intros a Ha. destruct (Ho' a Ha) as [H|H]; [|right; lia].
        destruct (Ho a H) as [H'|H']; [by left|right; lia]. }
  specialize (Hfold args ([], S nx)). simpl in Hfold.
  destruct (foldl _ _ args) as [props n]. simpl in Hfold.
  destruct Hfold as (Hle & Hb & Ho).
  intros [= <- <-]. split_and!; [lia| |].
  - simpl. intros a [->|Ha]%elem_of_cons; [right; lia|].
    destruct (Hb a Ha) as [H|[H|H]]; [by apply elem_of_nil in H|by left|right; lia].
  - simpl. intros a [->|Ha]%elem_of_cons; [lia|].
    destruct (Ho a Ha) as [H|H]; [by apply elem_of_nil in H|lia].
Qed.

Lemma objs_properties v a : a ∈ objs_props (properties v) → a ∈ objs v.
Proof.
  destruct v; simpl; try (intros Ha; by apply elem_of_nil in Ha).
  intros Ha. by right.
Qed.

Lemma below_elem n ls a : below n ls → a ∈ ls → (a < n)%nat.
Proof. intros Hb Ha. exact (proj1 (Forall_forall _ _) Hb a Ha). Qed.

(** A derivation: the new prototype holds objects that exist by then,
    and every plain object or array of its [options] is new. *)
Lemma module_spec name base proto h :
  (next h < next (module name base proto h).2)%nat ∧
  (∀ a, a ∈ owned (get_prop "options"
                     (properties (prototype (module name base proto h).1))) →
        (next h < a < next (module name base proto h).2)%nat) ∧
  (below (next h) (objs (prototype base)) → below (next h) (objs proto) →
   below (next (module name base proto h).2)
         (objs (prototype (module name base proto h).1))).
Proof.
  unfold Derivation.module.
  set (bprops := properties (prototype base)).
  destruct (extend_new [get_prop "options" bprops] (S (next h))) as [options nx] eqn:Hnew.
  set (settings := VObject Plain (S nx) _).
  destruct (extend (next h) (set_prop "options" options bprops) settings (S (S nx)))
    as [bprops2 nx2] eqn:Hext2.
  destruct (extend (next h) bprops2 proto nx2) as [bprops3 nx3] eqn:Hext3.
  simpl.
  destruct (extend_new_spec _ _ _ _ Hnew) as (Hlt & Hob & Hoo).
  destruct (extend_spec _ _ _ _ _ _ Hext2) as (Hle2 & Hb2 & _).
  destruct (extend_spec _ _ _ _ _ _ Hext3) as (Hle3 & Hb3 & _).
  split_and!; [lia| |].
  - intros a Ha.
    destruct (extend_key _ "options" _ _ _ _ _ Hext3 a Ha) as [H|H]; [|lia].
    destruct (extend_key _ "options" _ _ _ _ _ Hext2 a H) as [H'|H']; [|lia].
    rewrite get_set_prop in H'. apply Hoo in H'. lia.
  - intros Hbase Hproto.
    assert (∀ a, a ∈ objs_props bprops → (a < next h)%nat) as Hbp.
    { intros a Ha. apply (below_elem _ _ _ Hbase). by apply objs_properties. }
    apply Forall_cons. split; [lia|]. apply Forall_forall. intros a Ha.
    destruct (Hb3 a Ha) as [H|[H|H]]; [|apply (below_elem _ _ _ Hproto) in H; lia|lia].
    destruct (Hb2 a H) as [H'|[H'|H']]; [| |lia].
    + apply objs_set_prop in H' as [H'|H']; [apply Hbp in H'; lia|].
      destruct (Hob a H') as [(arg & Harg & Hin)|Hin]; [|lia].
      apply list_elem_of_singleton in Harg as ->.
      apply objs_get_prop, Hbp in Hin. lia.
    + simpl in H'. rewrite app_nil_r in H'.
      apply elem_of_cons in H' as [->|H']; [lia|].
      apply (below_elem _ _ _ Hbase) in H'. lia.
Qed.

Lemma derive_spec chain : ∀ base h,
  below (next h) (objs (prototype base)) →
  Forall (λ p, below (next h) (objs p.2)) chain →
  (next h ≤ next (derive chain base h).2)%nat ∧
  below (next (derive chain base h).2) (objs (prototype (derive chain base h).1)).
Proof.
  induction chain as [|[name proto] chain IH]; intros base h Hbase Hchain; simpl.
  - split; [lia|done].
  - apply Forall_cons in Hchain as [Hproto Hchain]. simpl in Hproto.
    destruct (module_spec name base proto h) as (Hlt & _ & Hb).
    specialize (Hb Hbase Hproto).
    destruct (module name base proto h) as [C h1]. simpl in *.
    destruct (IH C h1) as (Hle & Hb').
    + done.
    + eapply Forall_impl; [exact Hchain|]. intros p Hp. eapply below_mono; [|exact Hp]. lia.
    + split; [lia|done].
Qed.

(** A construction: every plain object or array of the [options] of the
    instance is new, and the other objects in them are those of the
    prototype and of the argument. *)
Lemma construct_spec C name options h :
  (next h < next (construct C name options h).2)%nat ∧
  (∀ a, a ∈ objs (get_prop "options" (properties (construct C name options h).1)) →
        a ∈ objs (prototype C) ∨ a ∈ objs options ∨
        (next h < a < next (construct C name options h).2)%nat) ∧
  (∀ a, a ∈ owned (get_prop "options" (properties (construct C name options h).1)) →
        (next h < a < next (construct C name options h).2)%nat).
Proof.
  unfold Derivation.construct, Derivation._createModule.
  destruct (extend_new _ _) as [opts nx] eqn:Hnew. simpl.
  rewrite get_set_prop.
  destruct (extend_new_spec _ _ _ _ Hnew) as (Hlt & Hob & Hoo).
  split_and!; [lia| |].
  - intros a Ha. destruct (Hob a Ha) as [(arg & Harg & Hin)|Hin]; [|right; right; lia].
    apply elem_of_cons in Harg as [->|Harg].
    + left. rewrite get_set_prop_ne in Hin by done.
      by apply objs_properties, (objs_get_prop "options").
    + apply list_elem_of_singleton in Harg as ->. by right; left.
  - intros a Ha. apply Hoo in Ha. lia.
Qed.


(** *** What a deep [extend] stores *)

(** One property of [options] at a time: it is passed over, or a value
    is stored under its name, which is the property itself unless that
    is a plain object or an array. *)
Lemma extend_step tl tp k l name copy ps nx :
  (extend tl tp (VObject k l ((name, copy) :: ps)) nx = extend tl tp (VObject k l ps) nx ∧
   (is_target tl copy = true ∨ copy = VUndefined)) ∨
  (∃ v nx1,
     extend tl tp (VObject k l ((name, copy) :: ps)) nx =
       extend tl (set_prop name v tp) (VObject k l ps) nx1 ∧
     is_target tl copy = false ∧ copy ≠ VUndefined ∧
     (owned copy = [] → v = copy ∧ nx1 = nx)).
Proof.
  rewrite extend_cons. destruct (is_target tl copy) eqn:Htarget; [left; by auto|].
  destruct copy as [| | | | | |k' l' p']; try (right; by eexists _, _).
  { left. by auto. }
  destruct k'; try (right; by eexists _, _).
  - destruct (clone_of Plain (get_prop name tp) nx) as [[cl cprops] nx1].
    destruct (extend cl cprops (VObject Plain l' p') nx1) as [cprops' nx2].
    right. by eexists _, _.
  - destruct (clone_of Array (get_prop name tp) nx) as [[cl cprops] nx1].
    destruct (extend cl cprops (VObject Array l' p') nx1) as [cprops' nx2].
    right. by eexists _, _.
Qed.

(** A name under which [options] holds nothing, or [undefined], keeps
    what it had in the target. *)
Lemma extend_absent options name : ∀ tl tp nx,
  (∀ v, (name, v) ∈ properties options → v = VUndefined) →
  get_prop name (extend tl tp options nx).1 = get_prop name tp.
Proof.
  destruct options as [| | | | | |k l ps]; try done.
  induction ps as [|[name0 copy] ps IH]; intros tl tp nx Hnone; [done|].
  cbn [properties] in *.
  assert (∀ v, (name, v) ∈ ps → v = VUndefined) as Hnone'.
  { intros v Hin. apply Hnone. by right. }
  destruct (extend_step tl tp k l name0 copy ps nx)
    as [[-> _]|(v & nx1 & -> & _ & Hdef & _)]; [by apply IH|].
  rewrite IH by done. apply get_set_prop_ne. intros ->.
  apply Hdef, Hnone. by left.
Qed.

(** A name under which [options] holds a value that is stored as it is
    has that value in the target afterwards. *)
Lemma extend_stored name copy k l ps : ∀ tl tp nx,
  NoDup ps.*1 → (name, copy) ∈ ps → atom copy = true →
  get_prop name (extend tl tp (VObject k l ps) nx).1 = copy.
Proof.
  induction ps as [|[name0 copy0] ps IH]; intros tl tp nx Hdup Hin Hatom.
  { by apply elem_of_nil in Hin. }
  apply NoDup_cons in Hdup as [Hfresh Hdup]. simpl in Hfresh.
  apply elem_of_cons in Hin as [[= <- <-]|Hin].
  - destruct (extend_step tl tp k l name copy ps nx)
      as [[_ [Htarget| ->]]|(v & nx1 & -> & _ & _ & Hsame)]; [by destruct copy|done|].
    destruct Hsame as [-> ->]; [by destruct copy|].
    rewrite (extend_absent (VObject k l ps)); [apply get_set_prop|].
    intros v Hv. exfalso. apply Hfresh. apply list_elem_of_fmap. by exists (name, v).
  - destruct (extend_step tl tp k l name0 copy0 ps nx)
      as [[-> _]|(v & nx1 & -> & _)]; by apply IH.
Qed.

(** *** The name, the namespace and the members of a module *)

Lemma split_dotless s : dotless s = true → split "."%char s = [s].
Proof.
  induction s as [|c s IH]; simpl; [done|]. intros [Hc Hs]%andb_true_iff.
  apply negb_true_iff in Hc. by rewrite Hc, IH.
Qed.

Lemma split_dot a b :
  dotless a = true → split "."%char (a +:+ String "."%char b) = a :: split "."%char b.
Proof.
  induction a as [|c a IH]; simpl; [done|]. intros [Hc Ha]%andb_true_iff.
  apply negb_true_iff in Hc. by rewrite Hc, IH.
Qed.

Lemma resolve_dotless name : dotless name = true → resolve name = (name, EmptyString).
Proof.
  intros Hname. unfold Derivation.resolve. rewrite split_dotless by done. simpl.
  by rewrite String.eqb_refl.
Qed.

Lemma resolve_dot ns nm :
  dotless ns = true → dotless nm = true → nm ≠ EmptyString →
  resolve (ns +:+ String "."%char nm) = (nm, if String.eqb ns nm then EmptyString else ns).
Proof.
  intros Hns Hnm Hne. unfold Derivation.resolve.
  rewrite split_dot, split_dotless by done. simpl. by destruct nm.
Qed.

Lemma resolve_dot_nothing ns :
  dotless ns = true → resolve (ns +:+ ".") = (ns, EmptyString).
Proof.
  intros Hns. unfold Derivation.resolve. rewrite split_dot by done. simpl.
  by rewrite String.eqb_refl.
Qed.

(** The new prototype is what the two calls of [extend] make of the
    base prototype with its copied [options]. *)
Lemma module_prototype name base proto h :
  ∃ options nx nx',
    extend_new [get_prop "options" (properties (prototype base))] (S (next h))
      = (options, nx) ∧
    properties (prototype (module name base proto h).1) =
    (extend (next h)
       (extend (next h) (set_prop "options" options (properties (prototype base)))
          (VObject Plain (S nx)
             [("name", VString (resolve name).1); ("namespace", VString (resolve name).2);
              ("base", prototype base); ("constructor", VFunction nx)])
          (S (S nx))).1
       proto nx').1.
Proof.
  unfold Derivation.module.
  destruct (extend_new _ _) as [options nx]. exists options, nx.
  change (match split "." name !! 1%nat with
          | Some (String c s) => String c s
          | _ => default EmptyString (split "." name !! 0%nat)
          end) with (resolve name).1.
  change (if String.eqb (default EmptyString (split "." name !! 0%nat)) (resolve name).1
          then EmptyString else default EmptyString (split "." name !! 0%nat))
    with (resolve name).2.
  destruct (extend _ _ _ _) as [bprops nx']. exists nx'.
  by destruct (extend _ _ proto _) as [bprops' nx''].
Qed.

Lemma settings_no_options (name v : string) (w : value) (c : loc) x :
  ("options"%string, x) ∉ [("name"%string, VString name); ("namespace"%string, VString v);
                           ("base"%string, w); ("constructor"%string, VFunction c)].
Proof.
  rewrite !elem_of_cons, elem_of_nil. intros [[=]|[[=]|[[=]|[[=]|[]]]]].
Qed.

Lemma settings_keys (name v : string) (w : value) (c : loc) k x :
  (k, x) ∈ [("name"%string, VString name); ("namespace"%string, VString v);
            ("base"%string, w); ("constructor"%string, VFunction c)] →
  k ∈ reserved.
Proof.
  unfold Derivation.reserved. rewrite !elem_of_cons, elem_of_nil.
  intros [[= -> _]|[[= -> _]|[[= -> _]|[[= -> _]|[]]]]]; auto 10.
Qed.



(** X8.  An instance has the name it is constructed with.  In its options, a
    primitive value or a function given in the argument is under its
    name, and so is one of the default options of the module under
    whose name the argument holds nothing, or [undefined]. *)
Theorem construct_merges (C : Constructor) (name options : value) (h : world) :
  let instance := properties (construct C name options h).1 in
  let defaults := properties (get_prop "options" (properties (prototype C))) in
  let merged := properties (get_prop "options" instance) in
  get_prop "name" instance = name ∧
  (NoDup (properties options).*1 →
   ∀ k v, (k, v) ∈ properties options → atom v = true → get_prop k merged = v) ∧
  (NoDup defaults.*1 →
   ∀ k d, (k, d) ∈ defaults → atom d = true →
          (∀ v, (k, v) ∈ properties options → v = VUndefined) →
          get_prop k merged = d).
Proof.
  intros instance defaults merged.
  assert (instance = set_prop "options"
            (VObject Plain (S (next h))
               (extend (S (next h))
                  (extend (S (next h)) [] (get_prop "options" (properties (prototype C)))
                          (S (S (next h)))).1
                  options
                  (extend (S (next h)) [] (get_prop "options" (properties (prototype C)))
                          (S (S (next h)))).2).1)
            (set_prop "name" name (properties (prototype C)))) as Hinstance.
  { unfold instance, Derivation.construct, Derivation._createModule, Derivation.extend_new.
    simpl. rewrite get_set_prop_ne by done.
    destruct (extend _ [] _ _) as [props nx]. simpl.
    by destruct (extend _ props _ _) as [props' nx']. }
  assert (merged =
            (extend (S (next h))
               (extend (S (next h)) [] (get_prop "options" (properties (prototype C)))
                       (S (S (next h)))).1
               options
               (extend (S (next h)) [] (get_prop "options" (properties (prototype C)))
                       (S (S (next h)))).2).1) as Hmerged.
  { unfold merged. by rewrite Hinstance, get_set_prop. }
  split_and!.
  - rewrite Hinstance, get_set_prop_ne by done. apply get_set_prop.
  - intros Hdup k v Hin Hatom. rewrite Hmerged.
    destruct options as [| | | | | |k' l ps]; try by apply elem_of_nil in Hin.
    by apply extend_stored.
  - intros Hdup k d Hin Hatom Hnone. rewrite Hmerged, extend_absent by done.
    unfold defaults in *.
    destruct (get_prop "options" (properties (prototype C))) as [| | | | | |k' l ps];
      try by apply elem_of_nil in Hin.
    by apply extend_stored.
Qed.

(** *** The content of a deep copy *)

Lemma get_prop_fresh name props : name ∉ props.*1 → get_prop name props = VUndefined.
Proof.
  induction props as [|[k v] props IH]; simpl; [done|].
  rewrite not_elem_of_cons. intros [Hne Hfresh].
  destruct (String.eqb_spec k name); [congruence|by apply IH].
Qed.

Lemma set_prop_fresh name v props :
  name ∉ props.*1 → set_prop name v props = props ++ [(name, v)].
Proof.
  induction props as [|[k w] props IH]; simpl; [done|].
  rewrite not_elem_of_cons. intros [Hne Hfresh].
  destruct (String.eqb_spec k name); [congruence|by rewrite IH].
Qed.

Lemma extend_cons_store tl tp k l name copy ps nx :
  owned copy = [] → copy ≠ VUndefined → is_target tl copy = false →
  extend tl tp (VObject k l ((name, copy) :: ps)) nx =
  extend tl (set_prop name copy tp) (VObject k l ps) nx.
Proof.
  intros Hown Hdef Htarget.
  destruct (extend_step tl tp k l name copy ps nx)
    as [[_ [H|H]]|(v & nx1 & -> & _ & _ & Hsame)]; [congruence|done|].
  by destruct (Hsame Hown) as [-> ->].
Qed.

Lemma extend_cons_clone tl tp k l name k' l' p' ps nx :
  k' ≠ Other → is_target tl (VObject k' l' p') = false →
  extend tl tp (VObject k l ((name, VObject k' l' p') :: ps)) nx =
  let '(cl, cprops, nx) := clone_of k' (get_prop name tp) nx in
  let '(cprops, nx) := extend cl cprops (VObject k' l' p') nx in
  extend tl (set_prop name (VObject k' cl cprops) tp) (VObject k l ps) nx.
Proof. intros Hk Htarget. rewrite extend_cons, Htarget. by destruct k'. Qed.

Lemma extend_no_properties options tl tp nx :
  properties options = [] → extend tl tp options nx = (tp, nx).
Proof.
  destruct options as [| | | | | |k l ps]; try done. cbn [properties]. intros ->.
  apply extend_nil.
Qed.

Lemma extend_copies_all options : extend_copies options.
Proof.
  induction options as [| | | | | |k l props IH] using value_ind;
    try (intros k l ps [=]).
  intros k0 l0 ps [= <- <- <-] Hk Hclean b tl tp nx Hb Htl Hnx Hkeys.
  assert (NoDup props.*1 ∧ Forall (λ p, p.2 ≠ VUndefined) props ∧
          foldr (λ p rest, clean p.2 ∧ rest) True props) as (Hdup & Hdef & Hcl)
    by (by destruct k).
  assert (below b (objs_props props)) as Hbp.
  { unfold Derivation.below in Hb. simpl in Hb. by apply Forall_cons in Hb as [_ Hb]. }
  clear Hclean Hb. revert tp nx Hnx Hkeys.
  induction props as [|[name copy] props IHp]; intros tp nx Hnx Hkeys.
  { exists [], nx. by rewrite extend_nil, app_nil_r. }
  apply Forall_cons in IH as [IHcopy IH]. simpl in IHcopy.
  apply NoDup_cons in Hdup as [Hname Hdup]. simpl in Hname.
  apply Forall_cons in Hdef as [Hcopy Hdef]. simpl in Hcopy.
  destruct Hcl as [Hclean Hcl]. simpl in Hclean.
  unfold Derivation.objs_props in Hbp. simpl in Hbp.
  apply Forall_app in Hbp as [Hbcopy Hbp].
  assert (name ∉ tp.*1) as Hfresh by (apply Hkeys; by left).
  assert (∀ x, ∀ key, key ∈ props.*1 → key ∉ (tp ++ [(name, x)]).*1) as Hkeys'.
  { intros x key Hin. rewrite fmap_app, elem_of_app. simpl.
    intros [H|H%list_elem_of_singleton].
    - by apply (Hkeys key); [right|].
    - by subst. }
  assert (is_target tl copy = false) as Htarget.
  { destruct copy as [| | | | | |k' l' p']; try done. simpl.
    apply Nat.eqb_neq. apply Forall_cons in Hbcopy as [Hl' _]. lia. }
  destruct (decide (owned copy = [])) as [Hown|Hown].
  - rewrite extend_cons_store, set_prop_fresh by done.
    destruct (IHp IH Hdup Hdef Hcl Hbp (tp ++ [(name, copy)]) nx Hnx (Hkeys' copy))
      as (tp' & nx' & -> & Hle & Hmap).
    exists ((name, copy) :: tp'), nx'. rewrite <- app_assoc. simpl.
    split_and!; [done|done|].
    rewrite Hmap. do 2 f_equal.
  - destruct copy as [| | | | | |k' l' p']; try done.
    assert (k' ≠ Other) as Hk' by (by intros ->).
    rewrite extend_cons_clone, get_prop_fresh by done. simpl clone_of. cbv iota beta.
    destruct (IHcopy k' l' p' eq_refl Hk' Hclean b nx [] (S nx) Hbcopy Hnx)
      as (cp & nx1 & Hnested & Hle1 & Hmap1); [lia|by intros key _ H%elem_of_nil|].
    rewrite Hnested. simpl app. rewrite set_prop_fresh by done.
    destruct (IHp IH Hdup Hdef Hcl Hbp (tp ++ [(name, VObject k' nx cp)]) nx1)
      as (tp' & nx' & -> & Hle & Hmap); [lia|by apply Hkeys'|].
    exists ((name, VObject k' nx cp) :: tp'), nx'. rewrite <- app_assoc. simpl.
    split_and!; [done|lia|].
    rewrite Hmap, Hmap1. by destruct k'.
Qed.

(** [$.extend( true, {}, v )] of a clean plain object whose objects are
    older than the copy has the content of [v]. *)
Lemma extend_new_content l ps nx :
  clean (VObject Plain l ps) → below nx (objs (VObject Plain l ps)) →
  anonymous (extend_new [VObject Plain l ps] nx).1 = anonymous (VObject Plain l ps).
Proof.
  intros Hclean Hb. unfold Derivation.extend_new. cbn [foldl].
  destruct (extend_copies_all (VObject Plain l ps) Plain l ps eq_refl) with
    (b := nx) (tl := nx) (tp := @nil (string * value)) (nx := S nx)
    as (tp' & nx' & -> & _ & Hmap); [done|done|done|lia|lia|by intros key _ H%elem_of_nil|].
  simpl. by rewrite Hmap.
Qed.


(** *** Proxies and mediators *)

(** X10.  A proxy has the name and the data it is constructed with, the data
    being the very value given and no copy of it; its options are those
    which [$.mvc.Module] would give it, and its other members those of
    the prototype. *)
Theorem proxy_keeps_data (C : Constructor) (name options data : value) (h : world) :
  let proxy := (construct_proxy C name options data h).1 in
  getName proxy = name ∧ getData proxy = data ∧
  get_prop "options" (properties proxy) =
    get_prop "options" (properties (construct C name options h).1) ∧
  next (construct_proxy C name options data h).2 = next (construct C name options h).2 ∧
  (∀ k, k ≠ "name"%string → k ≠ "data"%string → k ≠ "options"%string →
        get_prop k (properties proxy) = get_prop k (properties (prototype C))).
Proof.
  unfold Derivation.construct_proxy, Derivation.construct, Derivation.Proxy__createModule,
    Derivation._createModule, Derivation.getName, Derivation.getData.
  rewrite !get_set_prop_ne by done.
  destruct (extend_new _ _) as [opts nx]. simpl.
  split_and!.
  - rewrite !get_set_prop_ne by done. apply get_set_prop.
  - rewrite get_set_prop_ne by done. apply get_set_prop.
  - by rewrite !get_set_prop.
  - done.
  - intros k Hname Hdata Hoptions. by rewrite !get_set_prop_ne.
Qed.

Section mediator_facts.

Variable jQuery : value → loc → value * loc.

Local Abbreviation construct_mediator := (Derivation.construct_mediator jQuery).

(** X11.  What [$] returns being a jQuery selection, the element of a
    mediator is one, whatever it is constructed with: the selection
    given, itself, or what [$] makes of the value given, or of an empty
    array when the value is missing or falsy.  The mediator has the
    name it is constructed with and, when an element is given, the
    options which [$.mvc.Module] would give it. *)
Theorem mediator_element (C : Constructor) (name options element : value) (h : world) :
  (∀ v nx, is_selection (jQuery v nx).1 = true) →
  let mediator := (construct_mediator C name options element h).1 in
  getName mediator = name ∧
  is_selection (get_prop "element" (properties mediator)) = true ∧
  (is_selection element = true → get_prop "element" (properties mediator) = element) ∧
  (truthy element = true → is_selection element = false →
   ∃ nx, get_prop "element" (properties mediator) = (jQuery element nx).1) ∧
  (truthy element = false →
   ∃ l nx, get_prop "element" (properties mediator) = (jQuery (VObject Array l []) nx).1) ∧
  (truthy element = true →
   get_prop "options" (properties mediator) =
     get_prop "options" (properties (construct C name options h).1)).
Proof.
  intros Hselection.
  unfold Derivation.construct_mediator, Derivation.construct,
    Derivation.Mediator__createModule, Derivation._createModule, Derivation.getName.
  assert (∀ v, is_selection v = true → truthy v = true) as Htruthy.
  { intros v. unfold Derivation.is_selection. by destruct v. }
  destruct (truthy element) eqn:Helement.
  - rewrite !get_set_prop_ne by done.
    destruct (extend_new _ _) as [opts nx].
    destruct (is_selection element) eqn:Hsel.
    + simpl. repeat first [rewrite get_set_prop|rewrite get_set_prop_ne by done].
      by rewrite Hsel.
    + pose proof (Hselection element nx) as Hwrapped.
      destruct (jQuery element nx) as [wrapped nx'] eqn:Hwrap. simpl in *.
      repeat first [rewrite get_set_prop|rewrite get_set_prop_ne by done].
      split_and!; [done|done|done| |done|done].
      intros _ _. exists nx. by rewrite Hwrap.
  - pose proof (Hselection (VObject Array (S (next h)) []) (S (S (next h)))) as Hempty.
    destruct (jQuery (VObject Array (S (next h)) []) (S (S (next h)))) as [empty nx0]
      eqn:Hwrap.
    simpl in Hempty. rewrite !get_set_prop_ne by done.
    destruct (extend_new _ _) as [opts nx]. rewrite Hempty. simpl.
    repeat first [rewrite get_set_prop|rewrite get_set_prop_ne by done].
    split_and!; [done|done| |done| |done].
    + intros Hsel. apply Htruthy in Hsel. congruence.
    + intros _. exists (S (next h)), (S (S (next h))). by rewrite Hwrap.
Qed.

End mediator_facts.

Section super_facts.

Context {W : Type}.
Variable apply : loc → value → list value → W → completion * W.
Variable hidden : completion.

Local Abbreviation _super := (Derivation._super apply hidden).


End super_facts.

End modules.

(** C4.  The [_createModule] of [$.mvc.Proxy] overrides the one of
    [$.mvc.Module], which [module] has recorded as its [__super].
    Called from it, [_super] applies the function of the base, as long
    as the override is not strict mode code; from the same override as
    strict mode code it throws, whether the engine hides the caller
    behind [null] or behind a [TypeError]. *)
Theorem strict_caller_loses_super :
  let apply := λ g (this : value) (arguments : list value) (w : unit),
                 (Return (VFunction g), w) in
  supers Proxy.2 !! 29%nat = Some (VFunction _createModule_function) ∧
  _super apply (Return VNull) (supers Proxy.2) (Within 29 false) (VString "proxy") [] ()
    = (Return (VFunction _createModule_function), ()) ∧
  _super apply (Return VNull) (supers Proxy.2) (Within 29 true) (VString "proxy") [] ()
    = (Throw no_super, ()) ∧
  _super apply (Throw (VString "TypeError")) (supers Proxy.2) (Within 29 true)
         (VString "proxy") [] ()
    = (Throw (VString "TypeError"), ()).
Proof. by vm_compute. Qed.



Lemma construct_merges_witness :
  get_prop "count" (properties (get_prop "options" (properties first_instance.1)))
  = VNumber 5.
Proof.
  refine (proj1 (proj2 (construct_merges Counter.1 (VString "first") five Counter.2))
                _ "count"%string (VNumber 5) _ eq_refl).
  - apply NoDup_singleton.
  - by apply list_elem_of_singleton.
Defined.



Lemma mediator_element_witness :
  is_selection
    (get_prop "element"
       (properties (construct_mediator wrap Counter.1 (VString "list") five
                      (VString "#list") Counter.2).1))
  = true.
Proof.
  refine (proj1 (proj2 (mediator_element wrap Counter.1 (VString "list") five
                          (VString "#list") Counter.2 _))).
  intros v nx. reflexivity.
Defined.

Lemma _super_dispatch_witness :
  ∃ e, _super (λ g this arguments (w : unit), (Return (VFunction g), w)) (Return VNull)
              {[ 29%nat := VFunction _createModule_function ]} (Within 29 true)
              (VString "proxy") [] ()
       = (Throw e, ()).
Proof.
  exact (proj2 (proj2 (proj2
           (_super_dispatch (λ g this arguments (w : unit), (Return (VFunction g), w))
              (Return VNull) {[ 29%nat := VFunction _createModule_function ]}
              (VString "proxy") [] ()))) (or_introl eq_refl) 29%nat).
Defined.



(** The functions of [Object.prototype] are functions of the base: one
    which defines [toString] overrides that of [Object.prototype]. *)
Example toString_has_a_super :
  supers Text.2 !! 61%nat = Some (VFunction 8) ∧
  read_prop "toString" (properties (prototype Module)) = VFunction 8.
Proof. by vm_compute. Qed.



End DerivationFacts.

(** ** The constructors *)

Module ConstructorsFacts.

Import Constructors.

Section facts.

Context {V : Type}.

Local Abbreviation object := (@Constructors.object V).
Local Abbreviation heap := (@Constructors.heap V).
Local Abbreviation is_instance := (@Constructors.is_instance V).
Local Abbreviation assign := (@Constructors.assign V).
Local Abbreviation new := (@Constructors.new V).
Local Abbreviation call_within := (@Constructors.call_within V).
Local Abbreviation call := (@Constructors.call V).
Local Abbreviation made := (@Constructors.made V).

Lemma new_call_within depth F a b h :
  new F (call_within (S depth) F a b) h =
  (object_ref (next h),
   {| next := S (next h); objects := <[next h := made F a b]> (objects h) |}).
Proof.
  unfold Constructors.new. cbn [call_within]. unfold Constructors.is_instance. cbn [objects].
  rewrite lookup_insert_eq. cbn [hasOwnProperty instance_of].
  rewrite bool_decide_eq_true_2 by done. simpl.
  unfold Constructors.made. f_equal. f_equal. by rewrite alter_insert_eq.
Qed.

(** [call] is the function the source defines: it satisfies its
    recursive equation. *)
Lemma call_unfold F a b this h :
  call F a b this h =
  if negb (is_instance F this h) then new F (call F a b) h
  else (undefined, assign F this a b h).
Proof.
  unfold Constructors.call. cbn [call_within].
  destruct (negb (is_instance F this h)); [|done].
  change (new F (call_within 1 F a b) h = new F (call_within 2 F a b) h).
  by rewrite !new_call_within.
Qed.


End facts.


End ConstructorsFacts.

(** ** The registries *)

Module RegistriesFacts.

Import Registries.

(** A name made by a registry is no name of a member of
    [Object.prototype]. *)
Lemma proxy_name_ordinary (suffix : string) : inherited ("proxy-" +:+ suffix) = None.
Proof. reflexivity. Qed.

Lemma mediator_name_ordinary (suffix : string) : inherited ("mediator-" +:+ suffix) = None.
Proof. reflexivity. Qed.

Lemma defined_false {A} (dictionary : gmap string A) name :
  defined dictionary name = false ↔ dictionary !! name = None ∧ inherited name = None.
Proof.
  unfold defined, read. destruct (dictionary !! name); [by split; [|intros [? ?]]|].
  destruct (inherited name); by split; [|intros [? ?]].
Qed.

Lemma defined_insert {A} (dictionary : gmap string A) name a other :
  defined (<[name := a]> dictionary) other =
  if decide (other = name) then true else defined dictionary other.
Proof.
  unfold defined, read. destruct (decide (other = name)) as [->|Hne].
  - by rewrite lookup_insert_eq.
  - by rewrite lookup_insert_ne.
Qed.

Lemma defined_delete {A} (dictionary : gmap string A) name :
  inherited name = None → defined (delete name dictionary) name = false.
Proof. intros Hname. apply defined_false. by rewrite lookup_delete_eq. Qed.

Lemma interested_context address n interests observer :
  observer ∈ interested address n interests → Notifier.context observer = address.
Proof.
  unfold Registries.interested. intros Hin.
  apply list_elem_of_omap in Hin as ([k [fn|]] & _ & Hob);
    destruct (decide (k = n)); by simplify_eq/=.
Qed.

Lemma interested_absent address n (interests : list (string * option nat)) :
  n ∉ interests.*1 → interested address n interests = [].
Proof.
  induction interests as [|[k fn] interests IH]; simpl; [done|].
  rewrite not_elem_of_cons. intros [Hne Hn]. unfold Registries.interested in *. simpl.
  rewrite decide_False by done. by apply IH.
Qed.

Section facts.

Context {Body : Type}.

Local Abbreviation state := (@Registries.state Body).
Local Abbreviation set_proxyMap := (@Registries.set_proxyMap Body).
Local Abbreviation set_mediatorMap := (@Registries.set_mediatorMap Body).
Local Abbreviation set_notifier := (@Registries.set_notifier Body).
Local Abbreviation on_notifier := (@Registries.on_notifier Body).
Local Abbreviation register_interests := (@Registries.register_interests Body).
Local Abbreviation remove_interests := (@Registries.remove_interests Body).
Local Abbreviation model_has := (@Registries.model_has Body).
Local Abbreviation view_has := (@Registries.view_has Body).
Local Abbreviation model_registered := (@Registries.model_registered Body).
Local Abbreviation view_registered := (@Registries.view_registered Body).
Local Abbreviation observers_of := (@Notifier.observers_of loc Body).
Local Abbreviation dispatcher := (@Notifier.dispatcher loc Body).
Local Abbreviation kept := (@Notifier.kept loc Nat.eqb).

Lemma set_notifier_id (s : state) : set_notifier (notifier s) s = s.
Proof. by destruct s. Qed.

(** The loop of [register] over interests of ordinary names returns,
    having put the observers of the mediator after those there were. *)
Lemma register_interests_spec (mediator : Instance) :
  ordinary_interests mediator →
  ∀ n, ∃ n',
    register_interests mediator n = Returned n' ∧
    (∀ e, observers_of e n' =
          observers_of e n ++ interested (address mediator) e (notificationInterests mediator)) ∧
    dispatcher n' = dispatcher n.
Proof.
  unfold Registries.register_interests, Registries.ordinary_interests.
  generalize (address mediator) as ctx. intros ctx.
  induction (notificationInterests mediator) as [|[k [fn|]] interests IH]; intros Hord n; simpl.
  - exists n. split_and!; [done| |done]. intros e. by rewrite app_nil_r.
  - apply Forall_cons in Hord as [Hk Hord]. simpl in Hk.
    rewrite (NotifierFacts.register_ordinary _ _ _ Hk).
    pose proof (NotifierFacts.register_observers k
                  {| Notifier.fn := fn; Notifier.context := ctx |} n) as Hobs.
    pose proof (NotifierFacts.register_dispatcher k
                  {| Notifier.fn := fn; Notifier.context := ctx |} n) as Hd.
    rewrite (NotifierFacts.register_ordinary _ _ _ Hk) in Hobs, Hd. simpl in Hobs, Hd.
    destruct (IH Hord (Notifier.set_observerMap
                         (<[k := Notifier.observers_of k n ++
                                 [{| Notifier.fn := fn; Notifier.context := ctx |}]]>
                            (Notifier.observerMap n)) n)) as (n' & -> & Hn' & Hd').
    exists n'. split_and!; [done| |by rewrite Hd'].
    intros e. rewrite Hn', (Hobs e Hk). unfold Registries.interested. simpl.
    destruct (decide (e = k)) as [->|Hne].
    + rewrite decide_True by done. simpl. by rewrite <- app_assoc.
    + by rewrite decide_False by done.
  - apply Forall_cons in Hord as [_ Hord].
    destruct (IH Hord n) as (n' & -> & Hn' & Hd'). exists n'. split_and!; [done| |done].
    intros e. rewrite Hn'. unfold Registries.interested. simpl. by destruct (decide (k = e)).
Qed.

Lemma remove_observers k (ctx : loc) (n : @Notifier.state loc Body) e :
  (e = k → observers_of e (state_of (Notifier.remove (Ctx:=loc) Nat.eqb k ctx n)) ≡ₚ
           filter (kept ctx) (observers_of e n)) ∧
  (e ≠ k → observers_of e (state_of (Notifier.remove (Ctx:=loc) Nat.eqb k ctx n)) =
           observers_of e n).
Proof.
  destruct (NotifierFacts.remove_registry (Ctx:=loc) Nat.eqb k ctx n)
    as ((rest & Hperm & Hrest) & Hother & _).
  split.
  - intros ->. unfold Notifier.observers_of at 1. rewrite Hrest, <- Hperm. by destruct rest.
  - intros Hne. unfold Notifier.observers_of. by rewrite Hother.
Qed.

(** The loop of [remove] over interests of ordinary names returns,
    having removed the observers of the mediator from the
    notifications of the interests, and from no other. *)
Lemma remove_interests_spec (mediator : Instance) :
  ordinary_interests mediator →
  ∀ n, ∃ n',
    remove_interests mediator n = Returned n' ∧
    (∀ e, e ∈ (notificationInterests mediator).*1 →
          observers_of e n' ≡ₚ filter (kept (address mediator)) (observers_of e n)) ∧
    (∀ e, e ∉ (notificationInterests mediator).*1 → observers_of e n' = observers_of e n) ∧
    dispatcher n' = dispatcher n.
Proof.
  unfold Registries.remove_interests, Registries.ordinary_interests.
  generalize (address mediator) as ctx. intros ctx.
  induction (notificationInterests mediator) as [|[k fn] interests IH]; intros Hord n; simpl.
  { exists n. split_and!; [done|by intros e ?%elem_of_nil|done|done]. }
  apply Forall_cons in Hord as [Hk Hord]. simpl in Hk.
  destruct (NotifierFacts.remove_outcome (Ctx:=loc) Nat.eqb k ctx n) as [Hr|(_ & _ & m & Hm)];
    [|by rewrite Hk in Hm].
  pose proof (remove_observers k ctx n) as Hobs.
  pose proof (NotifierFacts.remove_dispatcher (Ctx:=loc) Nat.eqb k ctx n) as Hd.
  rewrite Hr. set (n1 := state_of (Notifier.remove (Ctx:=loc) Nat.eqb k ctx n)) in *.
  destruct (IH Hord n1) as (n' & -> & Hin & Hout & Hd').
  exists n'. split_and!; [done| | |by rewrite Hd'].
  - intros e He. destruct (Hobs e) as [Hsame Hdiff]. destruct (decide (e = k)) as [->|Hne].
    + destruct (decide (k ∈ interests.*1)) as [Hk'|Hk'].
      * rewrite (Hin _ Hk'), (Hsame eq_refl). apply reflexive_eq, NotifierFacts.filter_Forall_id.
        apply Forall_forall. intros observer Hob.
        by apply list_elem_of_filter in Hob as [Hkept _].
      * rewrite (Hout _ Hk'). by apply Hsame.
    + apply elem_of_cons in He as [->|He]; [done|]. by rewrite (Hin _ He), (Hdiff Hne).
  - intros e He. apply not_elem_of_cons in He as [Hne He]. destruct (Hobs e) as [_ Hdiff].
    by rewrite (Hout _ He), (Hdiff Hne).
Qed.

Variable _register : Instance → state → outcome state.
Variable _remove : Instance → state → outcome state.

Local Abbreviation model_register := (Registries.model_register _register).
Local Abbreviation model_remove := (Registries.model_remove _remove).
Local Abbreviation view_register := (Registries.view_register _register).
Local Abbreviation view_remove := (Registries.view_remove _remove).

Lemma remove_spec (instance : Instance) (arg : string + Instance)
  (s : state) :
  key_of arg = getName instance → inherited (getName instance) = None →
  (model_registered instance s →
   ∃ s', model_remove arg s = _remove instance s' ∧
         model_has (getName instance) s' = false ∧
         proxyMap s' = delete (getName instance) (proxyMap s) ∧
         mediatorMap s' = mediatorMap s ∧ notifier s' = notifier s) ∧
  (view_registered instance s → ordinary_interests instance →
   ∃ s', view_remove arg s = _remove instance s' ∧
         view_has (getName instance) s' = false ∧
         mediatorMap s' = delete (getName instance) (mediatorMap s) ∧
         proxyMap s' = proxyMap s).
Proof.
  intros Hkey Hname. split.
  - intros Hreg. unfold Registries.model_remove.
    rewrite Hkey, (NotifierFacts.read_stored _ _ _ Hreg).
    eexists. split_and!; [done| |done|done|done].
    unfold Registries.model_has. simpl. by apply defined_delete.
  - intros Hreg Hord. unfold Registries.view_remove.
    rewrite Hkey, (NotifierFacts.read_stored _ _ _ Hreg).
    destruct (remove_interests_spec instance Hord (notifier s)) as (n' & Hn' & _).
    unfold Registries.on_notifier. rewrite Hn'.
    eexists. split_and!; [done| |done|done].
    unfold Registries.view_has. simpl. by apply defined_delete.
Qed.

(** X15.  [remove], of the model and of the view, given an instance of an
    ordinary name which is stored under that name, or the name, calls
    [_remove] on the instance in a state in which the instance is no
    more in the registry: [has] of its name is false when the callback
    starts, and the other names are as they were. *)
Theorem removed_before_callback (instance : Instance) (arg : string + Instance)
  (s : state) :
  key_of arg = getName instance → inherited (getName instance) = None →
  (model_registered instance s →
   ∃ s', model_remove arg s = _remove instance s' ∧
         model_has (getName instance) s' = false ∧
         proxyMap s' = delete (getName instance) (proxyMap s) ∧
         mediatorMap s' = mediatorMap s ∧ notifier s' = notifier s) ∧
  (view_registered instance s → ordinary_interests instance →
   ∃ s', view_remove arg s = _remove instance s' ∧
         view_has (getName instance) s' = false ∧
         mediatorMap s' = delete (getName instance) (mediatorMap s) ∧
         proxyMap s' = proxyMap s).
Proof. apply remove_spec. Qed.

Lemma view_register_spec (name : string) (mediator : string → Instance) (s : state) :
  view_has name s = false → ordinary_interests (mediator name) →
  ∃ s',
    view_register (Some name) mediator s = _register (mediator name) s' ∧
    mediatorMap s' = <[name := mediator name]> (mediatorMap s) ∧
    view_has name s' = true ∧
    proxyMap s' = proxyMap s ∧
    (∀ n, observers_of n (notifier s') =
          observers_of n (notifier s) ++
          interested (address (mediator name)) n (notificationInterests (mediator name))) ∧
    dispatcher (notifier s') = dispatcher (notifier s).
Proof.
  intros Hfree Hord. unfold Registries.view_register. rewrite Hfree.
  destruct (register_interests_spec (mediator name) Hord (notifier s))
    as (n' & Hn' & Hobs & Hd).
  unfold Registries.on_notifier. cbn [notifier Registries.set_mediatorMap]. rewrite Hn'.
  eexists. split; [reflexivity|]. split_and!; [done| |done|done|done].
  unfold Registries.view_has. simpl. by rewrite defined_insert, decide_True.
Qed.


Lemma view_remove_spec (mediator : Instance) (arg : string + Instance) (s : state) :
  mediatorMap s !! key_of arg = Some mediator →
  ordinary_interests mediator →
  ∃ s',
    view_remove arg s = _remove mediator s' ∧
    mediatorMap s' = delete (getName mediator) (mediatorMap s) ∧
    (∀ n, n ∈ (notificationInterests mediator).*1 →
          observers_of n (notifier s') ≡ₚ
          filter (kept (address mediator)) (observers_of n (notifier s))) ∧
    (∀ n, n ∉ (notificationInterests mediator).*1 →
          observers_of n (notifier s') = observers_of n (notifier s)) ∧
    dispatcher (notifier s') = dispatcher (notifier s).
Proof.
  intros Hreg Hord. unfold Registries.view_remove.
  rewrite (NotifierFacts.read_stored _ _ _ Hreg).
  destruct (remove_interests_spec mediator Hord (notifier s)) as (n' & Hn' & Hin & Hout & Hd).
  unfold Registries.on_notifier. rewrite Hn'.
  eexists. split; [reflexivity|]. by split_and!.
Qed.


End facts.

(** *** Proxies and mediators which keep the callbacks of the base *)

Section base.

Context {Body : Type}.

Local Abbreviation state := (@Registries.state Body).
Local Abbreviation empty := (@Registries.empty Body).
Local Abbreviation model_has := (@Registries.model_has Body).
Local Abbreviation view_has := (@Registries.view_has Body).
Local Abbreviation model_get := (@Registries.model_get Body).
Local Abbreviation generated := (@Registries.generated Body).
Local Abbreviation on_notifier := (@Registries.on_notifier Body).
Local Abbreviation model_register :=
  (@Registries.model_register Body Registries.no_callback).
Local Abbreviation model_remove := (@Registries.model_remove Body Registries.no_callback).
Local Abbreviation view_register := (@Registries.view_register Body Registries.no_callback).
Local Abbreviation view_remove := (@Registries.view_remove Body Registries.no_callback).
Local Abbreviation exec :=
  (@Registries.exec Body Registries.no_callback Registries.no_callback).
Local Abbreviation execs :=
  (@Registries.execs Body Registries.no_callback Registries.no_callback).
Local Abbreviation observers_of := (@Notifier.observers_of loc Body).
Local Abbreviation dispatcher := (@Notifier.dispatcher loc Body).
Local Abbreviation kept := (@Notifier.kept loc Nat.eqb).

Lemma set_proxyMap_id (s : state) m : m = proxyMap s → Registries.set_proxyMap m s = s.
Proof. intros ->. by destruct s. Qed.

(** X13.  A proxy registered under a free name is the one that [get] gives
    for that name, the other names keep what they had, and the name is
    taken; when the proxy calls itself by that name, removing it, by
    its name or by itself, gives the registries back as they were. *)
Theorem model_register_then (name : string) (proxy : string → Instance) (s : state) :
  model_has name s = false →
  ∃ s',
    model_register (Some name) proxy s = Returned s' ∧
    model_get name s' = Own (proxy name) ∧
    (∀ other, other ≠ name → model_get other s' = model_get other s) ∧
    (∀ proxy',
       model_register (Some name) proxy' s' =
       Thrown (Exception ("jQuery.mvc.model: A proxy named '" +:+ name +:+ "' already exists."))
              s') ∧
    (getName (proxy name) = name →
     model_remove (inl name) s' = Returned s ∧
     model_remove (inr (proxy name)) s' = Returned s).
Proof.
  intros Hfree. unfold Registries.model_register. rewrite Hfree.
  apply defined_false in Hfree as [Hfree Hname].
  eexists. split; [reflexivity|]. unfold Registries.no_callback.
  split_and!.
  - unfold Registries.model_get, Registries.model_has. simpl.
    rewrite defined_insert, decide_True by done. apply NotifierFacts.read_stored, lookup_insert_eq.
  - intros other Hne. unfold Registries.model_get, Registries.model_has. simpl.
    rewrite defined_insert, decide_False by done. unfold read. by rewrite lookup_insert_ne.
  - intros proxy'. unfold Registries.model_has. simpl.
    by rewrite defined_insert, decide_True.
  - intros Hself. unfold Registries.model_remove. simpl. rewrite Hself.
    rewrite (NotifierFacts.read_stored _ _ (proxy name)) by apply lookup_insert_eq.
    rewrite Hself. unfold Registries.no_callback. split; f_equal;
      (destruct s; unfold Registries.set_proxyMap; simpl; f_equal;
       by apply delete_insert_id).
Qed.

(** *** Names left to the registries *)

Lemma on_notifier_frame f (s : state) :
  let s' := state_of (on_notifier f s) in
  proxyMap s' = proxyMap s ∧ proxyGuid s' = proxyGuid s ∧
  mediatorMap s' = mediatorMap s ∧ mediatorGuid s' = mediatorGuid s.
Proof. unfold Registries.on_notifier. by destruct (f (notifier s)). Qed.

Lemma increment_bounds guid : guid ≤ increment guid ≤ guid + 1.
Proof. unfold increment. destruct (Z.ltb_spec guid (2 ^ 53)); lia. Qed.

Lemma increment_below guid : guid < 2 ^ 53 → increment guid = guid + 1.
Proof. unfold increment. destruct (Z.ltb_spec guid (2 ^ 53)); lia. Qed.

Lemma increment_positive guid : 0 ≤ guid → 0 < increment guid.
Proof. unfold increment. destruct (Z.ltb_spec guid (2 ^ 53)); lia. Qed.

Lemma generated_insert_proxy g p (s : state) :
  generated s → proxyGuid s ≤ g → 0 < g →
  generated (Registries.set_proxyMap (<["proxy-" +:+ pretty g := p]> (proxyMap s))
                                     (Registries.set_proxyGuid g s)).
Proof.
  intros (Hp0 & Hm0 & Hp & Hm) Hle Hpos. split_and!; simpl; [lia|done| |done].
  intros k [x Hk]. destruct (decide (k = "proxy-" +:+ pretty g)) as [->|Hne].
  - exists g. split; [done|lia].
  - rewrite lookup_insert_ne in Hk by done.
    destruct (Hp k) as (n & -> & Hn); [by eexists|]. exists n. split; [done|lia].
Qed.

Lemma generated_guid g (s : state) :
  generated s → proxyGuid s ≤ g → generated (Registries.set_proxyGuid g s).
Proof.
  intros (Hp0 & Hm0 & Hp & Hm) Hle. split_and!; simpl; [lia|done| |done].
  intros k Hk. destruct (Hp k Hk) as (n & -> & Hn). exists n. split; [done|lia].
Qed.

Lemma model_register_generated proxy (s : state) :
  generated s →
  generated (state_of (model_register None proxy s)) ∧
  proxyGuid (state_of (model_register None proxy s)) ≤ proxyGuid s + 1 ∧
  mediatorGuid (state_of (model_register None proxy s)) = mediatorGuid s ∧
  (proxyGuid s < 2 ^ 53 → ∃ s', model_register None proxy s = Returned s').
Proof.
  intros Hs. pose proof Hs as (Hp0 & Hm0 & Hp & Hm).
  pose proof (increment_bounds (proxyGuid s)) as Hinc.
  unfold Registries.model_register.
  destruct (Registries.model_has _ _) eqn:Hhas; simpl.
  - split_and!; [apply generated_guid; [done|lia]|lia|done|].
    intros Hlt. rewrite increment_below in Hhas by done.
    unfold Registries.model_has in Hhas. simpl in Hhas.
    assert (defined (proxyMap s) ("proxy-" +:+ pretty (proxyGuid s + 1)) = false) as Hfree;
      [|by rewrite Hfree in Hhas].
    apply defined_false. split; [|done]. apply eq_None_not_Some. intros Hk.
    destruct (Hp _ Hk) as (n & Heq & Hn).
    apply (inj (String.app "proxy-")), (inj pretty) in Heq. lia.
  - unfold Registries.no_callback. simpl. split_and!; [|lia|done|by eexists].
    apply generated_insert_proxy; [done|lia|by apply increment_positive].
Qed.

Lemma model_remove_generated arg (s : state) :
  generated s →
  generated (state_of (model_remove arg s)) ∧
  proxyGuid (state_of (model_remove arg s)) = proxyGuid s ∧
  mediatorGuid (state_of (model_remove arg s)) = mediatorGuid s.
Proof.
  intros (Hp0 & Hm0 & Hp & Hm). unfold Registries.model_remove.
  destruct (read (proxyMap s) (key_of arg)) as [proxy|m|]; [|done|done].
  unfold Registries.no_callback. simpl. split_and!; [|done|done].
  split_and!; simpl; [done|done| |done].
  intros k [p Hk]. apply lookup_delete_Some in Hk as [_ Hk]. apply Hp. by eexists.
Qed.

Lemma view_register_generated mediator (s : state) :
  generated s →
  generated (state_of (view_register None mediator s)) ∧
  proxyGuid (state_of (view_register None mediator s)) = proxyGuid s ∧
  mediatorGuid (state_of (view_register None mediator s)) ≤ mediatorGuid s + 1 ∧
  (mediatorGuid s < 2 ^ 53 →
   ordinary_interests (mediator ("mediator-" +:+ pretty (mediatorGuid s + 1))) →
   ∃ s', view_register None mediator s = Returned s').
Proof.
  intros Hs. pose proof Hs as (Hp0 & Hm0 & Hp & Hm).
  pose proof (increment_bounds (mediatorGuid s)) as Hinc.
  unfold Registries.view_register.
  destruct (Registries.view_has _ _) eqn:Hhas; simpl.
  - split_and!; [|done|lia|].
    + split_and!; simpl; [done|lia|done|].
      intros k Hk. destruct (Hm k Hk) as (n & -> & Hn). exists n. split; [done|lia].
    + intros Hlt _. rewrite increment_below in Hhas by done.
      unfold Registries.view_has in Hhas. simpl in Hhas.
      assert (defined (mediatorMap s) ("mediator-" +:+ pretty (mediatorGuid s + 1)) = false)
        as Hfree; [|by rewrite Hfree in Hhas].
      apply defined_false. split; [|done]. apply eq_None_not_Some. intros Hk.
      destruct (Hm _ Hk) as (n & Heq & Hn).
      apply (inj (String.app "mediator-")), (inj pretty) in Heq. lia.
  - set (name := "mediator-" +:+ pretty (increment (mediatorGuid s))) in *.
    set (s0 := Registries.set_mediatorMap _ _).
    destruct (on_notifier_frame (Registries.register_interests (mediator name)) s0)
      as (Hpm & Hpg & Hmm & Hmg).
    assert (generated (state_of (on_notifier (Registries.register_interests (mediator name)) s0))
            ∧ proxyGuid (state_of (on_notifier (Registries.register_interests (mediator name))
                                               s0)) = proxyGuid s
            ∧ mediatorGuid (state_of (on_notifier
                                        (Registries.register_interests (mediator name)) s0))
              ≤ mediatorGuid s + 1) as (Hgen & Hg1 & Hg2).
    { split_and!.
      - split_and!; rewrite ?Hpm, ?Hpg, ?Hmm, ?Hmg; simpl; [done|lia|done|].
        intros k [x Hk]. destruct (decide (k = name)) as [->|Hne].
        + exists (increment (mediatorGuid s)). split; [done|].
          pose proof (increment_positive (mediatorGuid s) Hm0). lia.
        + rewrite lookup_insert_ne in Hk by done.
          destruct (Hm k) as (n & -> & Hn); [by eexists|]. exists n. split; [done|lia].
      - by rewrite Hpg.
      - rewrite Hmg. simpl. lia. }
    destruct (on_notifier _ s0) as [s1|e s1] eqn:Hon; simpl in *.
    + unfold Registries.no_callback. simpl. split_and!; [done|done|done|by eexists].
    + split_and!; [done|done|done|]. intros Hlt Hord.
      assert (name = "mediator-" +:+ pretty (mediatorGuid s + 1)) as Hname
        by (unfold name; by rewrite increment_below).
      rewrite <- Hname in Hord.
      destruct (register_interests_spec (mediator name) Hord (notifier s0))
        as (n' & Hn' & _).
      unfold Registries.on_notifier in Hon. by rewrite Hn' in Hon.
Qed.

Lemma view_remove_generated arg (s : state) :
  generated s →
  generated (state_of (view_remove arg s)) ∧
  proxyGuid (state_of (view_remove arg s)) = proxyGuid s ∧
  mediatorGuid (state_of (view_remove arg s)) = mediatorGuid s.
Proof.
  intros (Hp0 & Hm0 & Hp & Hm). unfold Registries.view_remove.
  destruct (read (mediatorMap s) (key_of arg)) as [mediator|m|]; [|done|done].
  destruct (on_notifier_frame (Registries.remove_interests mediator) s)
    as (Hpm & Hpg & Hmm & Hmg).
  destruct (on_notifier _ s) as [s1|e s1]; simpl in *.
  - unfold Registries.no_callback. simpl. split_and!; [|done|done].
    split_and!; simpl; rewrite ?Hpm, ?Hpg, ?Hmm, ?Hmg; [done|done|done|].
    intros k [p Hk]. apply lookup_delete_Some in Hk as [_ Hk]. apply Hm. by eexists.
  - split_and!; [|done|done]. split_and!; by rewrite ?Hpm, ?Hpg, ?Hmm, ?Hmg.
Qed.

Lemma exec_generated c (s : state) :
  unnamed c = true → generated s →
  let s' := state_of (exec c s) in
  generated s' ∧ proxyGuid s' ≤ proxyGuid s + 1 ∧ mediatorGuid s' ≤ mediatorGuid s + 1.
Proof.
  intros Hc Hs. destruct c as [[name|] proxy|arg|[name|] mediator|arg]; try done; simpl.
  - destruct (model_register_generated proxy s Hs) as (? & ? & ? & _). split_and!; [done|lia|lia].
  - destruct (model_remove_generated arg s Hs) as (? & ? & ?). split_and!; [done|lia|lia].
  - destruct (view_register_generated mediator s Hs) as (? & ? & ? & _).
    split_and!; [done|lia|lia].
  - destruct (view_remove_generated arg s Hs) as (? & ? & ?). split_and!; [done|lia|lia].
Qed.

Lemma empty_generated : generated empty.
Proof.
  split_and!; [done|done| |]; intros k [x Hk]; simpl in Hk; by rewrite lookup_empty in Hk.
Qed.


(** The counter of the model at 2^53: the name made for the next proxy
    is the name of the last one, and the registration throws. *)
Example the_counter_ends :
  let s := Registries.set_proxyGuid (2 ^ 53 - 1) (@Registries.empty unit) in
  ∃ s1,
    Registries.model_register no_callback None (made 1 []) s = Returned s1 ∧
    Registries.model_has "proxy-9007199254740992" s1 = true ∧
    Registries.model_register no_callback None (made 2 []) s1 =
    Thrown (Exception "jQuery.mvc.model: A proxy named 'proxy-9007199254740992' already exists.")
           s1.
Proof. eexists. split; [reflexivity|]. split; by vm_compute. Qed.

(** *** The observers of a mediator *)

Lemma view_register_remove_spec (name : string) (address : loc)
  (interests : list (string * option nat)) (s : state) :
  view_has name s = false →
  Forall (λ p : string * option nat, inherited p.1 = None) interests →
  (∀ n observer, observer ∈ observers_of n (notifier s) →
                 Notifier.context observer ≠ address) →
  ∃ s1 s2,
    view_register (Some name) (made address interests) s = Returned s1 ∧
    view_has name s1 = true ∧
    (∀ n, observers_of n (notifier s1) =
          observers_of n (notifier s) ++ interested address n interests) ∧
    dispatcher (notifier s1) = dispatcher (notifier s) ∧
    view_remove (inl name) s1 = Returned s2 ∧
    view_has name s2 = false ∧
    mediatorMap s2 = mediatorMap s ∧ proxyMap s2 = proxyMap s ∧
    (∀ n, observers_of n (notifier s2) ≡ₚ observers_of n (notifier s)) ∧
    dispatcher (notifier s2) = dispatcher (notifier s).
Proof.
  intros Hfree Hord Hfresh.
  destruct (view_register_spec no_callback name (made address interests) s Hfree Hord)
    as (s1 & Hregister & Hmap1 & Hhas1 & Hproxy1 & Hobs1 & Hd1).
  unfold Registries.no_callback in Hregister at 2.
  assert (Registries.view_registered (made address interests name) s1) as Hreg.
  { unfold Registries.view_registered. rewrite Hmap1. apply lookup_insert_eq. }
  destruct (view_remove_spec no_callback (made address interests name) (inl name) s1
              Hreg Hord) as (s2 & Hremove & Hmap2 & Hin & Hout & Hd2).
  unfold Registries.no_callback in Hremove at 2.
  destruct (remove_spec no_callback (made address interests name) (inl name) s1
              eq_refl) as [_ Hview].
  { apply defined_false in Hfree. by destruct Hfree. }
  destruct (Hview Hreg Hord) as (s2' & Hremove' & Hhas2 & _ & Hproxy2).
  unfold Registries.no_callback in Hremove' at 2.
  rewrite Hremove in Hremove'. injection Hremove' as <-.
  apply defined_false in Hfree as [Hnone Hname].
  exists s1, s2. split_and!; [done|done|done|done|done|done| | | |].
  - rewrite Hmap2, Hmap1. simpl. by apply delete_insert_id.
  - by rewrite Hproxy2.
  - intros n. simpl in Hin, Hout, Hobs1.
    destruct (decide (n ∈ interests.*1)) as [Hn|Hn].
    + rewrite (Hin n Hn), Hobs1, filter_app.
      rewrite (NotifierFacts.filter_Forall_id _ (observers_of n (notifier s))).
      * assert (filter (kept address) (interested address n interests) = []) as ->;
          [|by rewrite app_nil_r].
        apply NotifierFacts.filter_Forall_nil, Forall_forall. intros observer Hob.
        apply interested_context in Hob. unfold Notifier.kept.
        by rewrite Hob, Nat.eqb_refl.
      * apply Forall_forall. intros observer Hob. unfold Notifier.kept.
        apply Nat.eqb_neq. by apply (Hfresh n).
    + apply reflexive_eq. rewrite (Hout n Hn), Hobs1, interested_absent by done.
      by rewrite app_nil_r.
  - by rewrite Hd2.
Qed.

(** X18.  Registering a mediator which is not yet the context of any
    observer, under a free name which it takes as its name, and with
    interests of ordinary names, and removing it again gives back the
    map of the mediators, and the observers of every notification, in
    some order. *)
Theorem view_register_then_remove (name : string) (address : loc)
  (interests : list (string * option nat)) (s : state) :
  view_has name s = false →
  Forall (λ p : string * option nat, inherited p.1 = None) interests →
  (∀ n observer, observer ∈ observers_of n (notifier s) →
                 Notifier.context observer ≠ address) →
  ∃ s1 s2,
    view_register (Some name) (made address interests) s = Returned s1 ∧
    view_has name s1 = true ∧
    view_remove (inl name) s1 = Returned s2 ∧
    view_has name s2 = false ∧
    mediatorMap s2 = mediatorMap s ∧ proxyMap s2 = proxyMap s ∧
    (∀ n, observers_of n (notifier s2) ≡ₚ observers_of n (notifier s)) ∧
    dispatcher (notifier s2) = dispatcher (notifier s).
Proof.
  intros Hfree Hord Hfresh.
  destruct (view_register_remove_spec name address interests s Hfree Hord Hfresh)
    as (s1 & s2 & ? & ? & _ & _ & ? & ? & ? & ? & ? & ?).
  by exists s1, s2.
Qed.

(** *** Mediators and broadcasts *)

Variable handler : nat → loc → @Notifier.Notification Body → @Notifier.state loc Body →
                   list (@Notifier.call loc Body).
Variable o : Notifier.Options.

Local Abbreviation notify := (@Notifier.notify loc Body Nat.eqb o handler).
Local Abbreviation deliveries := (@Notifier.deliveries loc Body).
Local Abbreviation discreet := (@Notifier.discreet loc Body Nat.eqb handler).
Local Abbreviation named := (@Notifier.named loc Body).


End base.

(** C10.  A proxy whose [getName] gives another name than the one it is
    registered under: [model.remove] of the name deletes nothing and
    calls [_remove] on the proxy while [has] of the name is true; and
    [view.remove] does the same with such a mediator, whose observers it
    has removed. *)
Theorem remove_keeps_a_renamed_instance :
  (∃ s1 : @Registries.state Z,
     model_register no_callback (Some "store") (misnamed 1 []) empty = Returned s1 ∧
     model_has "store" s1 = true ∧
     ∀ _remove, model_remove _remove (inl "store") s1 = _remove (misnamed 1 [] "store") s1) ∧
  (∃ s1 : @Registries.state Z,
     view_register no_callback (Some "panel") (misnamed 2 [("tick", Some 0%nat)]) empty
     = Returned s1 ∧
     view_has "panel" s1 = true ∧
     ∃ s2, view_has "panel" s2 = true ∧
           Notifier.observers_of "tick" (notifier s2) = [] ∧
           ∀ _remove,
             view_remove _remove (inl "panel") s1
             = _remove (misnamed 2 [("tick", Some 0%nat)] "panel") s2).
Proof.
  split.
  - eexists. split; [reflexivity|]. split; [by vm_compute|].
    intros _remove. by vm_compute.
  - eexists. split; [reflexivity|]. split; [by vm_compute|].
    eexists. split_and!; [| |intros _remove; vm_compute; reflexivity]; by vm_compute.
Qed.

Lemma removed_before_callback_witness :
  (∃ s', model_remove no_callback (inl "store") with_store = Returned s' ∧
         model_has "store" s' = false) ∧
  (∃ s', view_remove no_callback (inr tracker) with_store = Returned s' ∧
         view_has "tracker" s' = false).
Proof.
  split.
  - destruct (removed_before_callback no_callback (made 2 [] "store") (inl "store") with_store
                eq_refl eq_refl) as [Hmodel _].
    destruct Hmodel as (s' & Hremove & Hhas & _); [by vm_compute|]. by exists s'.
  - destruct (removed_before_callback no_callback tracker (inr tracker) with_store
                eq_refl eq_refl) as [_ Hview].
    destruct Hview as (s' & Hremove & Hhas & _); [by vm_compute|by repeat constructor|].
    by exists s'.
Defined.



Lemma model_register_then_witness :
  ∃ s', model_register no_callback (Some "store") (made 2 []) with_tracker = Returned s' ∧
        model_remove no_callback (inl "store") s' = Returned with_tracker.
Proof.
  destruct (model_register_then "store" (made 2 []) with_tracker)
    as (s' & Hregister & _ & _ & _ & Hremove).
  - by vm_compute.
  - exists s'. split; [exact Hregister|]. by destruct (Hremove eq_refl).
Defined.


Lemma view_register_then_remove_witness :
  ∃ s1 s2,
    view_register no_callback (Some "tracker") (made 1 [("tick", Some 0%nat)]) (@empty Z)
    = Returned s1 ∧
    view_remove no_callback (inl "tracker") s1 = Returned s2 ∧
    mediatorMap s2 = ∅.
Proof.
  destruct (view_register_then_remove "tracker" 1%nat [("tick", Some 0%nat)] (@empty Z))
    as (s1 & s2 & Hregister & _ & Hremove & _ & Hmap & _).
  - by vm_compute.
  - by repeat constructor.
  - intros n observer Hin. by apply elem_of_nil in Hin.
  - by exists s1, s2.
Defined.


End RegistriesFacts.

(** ** The controller *)

Module ControllerFacts.

Import Registries Controller.

Section facts.

Context {Body : Type}.
Variable controller : loc.
Variable name : option string.

Local Abbreviation state := (@Controller.state Body).
Local Abbreviation initial := (@Controller.initial Body).
Local Abbreviation has := (@Controller.has Body).
Local Abbreviation get := (@Controller.get Body).
Local Abbreviation register := (@Controller.register Body controller name).
Local Abbreviation remove := (@Controller.remove Body controller).
Local Abbreviation exec := (@Controller.exec Body controller name).
Local Abbreviation execs := (@Controller.execs Body controller name).
Local Abbreviation foreign := (Controller.foreign controller).
Local Abbreviation commands_of := (@Controller.commands_of Body controller).
Local Abbreviation observers_of := (@Notifier.observers_of loc Body).
Local Abbreviation dispatcher := (@Notifier.dispatcher loc Body).
Local Abbreviation kept := (@Notifier.kept loc Nat.eqb).
Local Abbreviation notifier_register := (@Notifier.register loc Body).
Local Abbreviation notifier_remove := (@Notifier.remove loc Body Nat.eqb).
Local Abbreviation on_controller :=
  (λ observer : @Notifier.Observer loc, Notifier.context observer = controller).

Variable handler : nat → loc → @Notifier.Notification Body → @Notifier.state loc Body →
                   list (@Notifier.call loc Body).
Variable o : Notifier.Options.

Local Abbreviation notify := (@Notifier.notify loc Body Nat.eqb o handler).
Local Abbreviation deliveries := (@Notifier.deliveries loc Body).
Local Abbreviation discreet := (@Notifier.discreet loc Body Nat.eqb handler).

Lemma filter_filter_implied {A} (P Q : A → Prop)
  `{∀ x, Decision (P x)} `{∀ x, Decision (Q x)} (l : list A) :
  (∀ x, P x → Q x) → filter P (filter Q l) = filter P l.
Proof.
  intros HPQ. induction l as [|x l IH]; [done|].
  destruct (decide (Q x)) as [HQ|HQ].
  - rewrite (filter_cons_True Q) by done. destruct (decide (P x)) as [HP|HP].
    + rewrite !(filter_cons_True P) by done. by rewrite IH.
    + rewrite !(filter_cons_False P) by done. by rewrite IH.
  - rewrite (filter_cons_False Q), (filter_cons_False P) by naive_solver. done.
Qed.

(** The commands of a notification after [notifier.remove( k, ctx )],
    whether it returns or throws. *)
Lemma commands_of_remove k (ctx : loc) n (ns : @Notifier.state loc Body) :
  filter on_controller (observers_of n (state_of (notifier_remove k ctx ns))) ≡ₚ
  if decide (n = k ∧ ctx = controller) then []
  else filter on_controller (observers_of n ns).
Proof.
  destruct (RegistriesFacts.remove_observers k ctx ns n) as [Hsame Hdiff].
  destruct (decide (n = k)) as [->|Hne].
  - rewrite (Hsame eq_refl). destruct (decide (ctx = controller)) as [->|Hctx].
    + rewrite decide_True by done. apply reflexive_eq, NotifierFacts.filter_Forall_nil.
      apply Forall_forall. intros observer Hob.
      apply list_elem_of_filter in Hob as [Hkept _].
      unfold Notifier.kept in Hkept. by apply Nat.eqb_neq in Hkept.
    + rewrite decide_False by (by intros [_ ?]).
      apply reflexive_eq, filter_filter_implied.
      intros observer Hob. unfold Notifier.kept. rewrite Hob. apply Nat.eqb_neq.
      congruence.
  - rewrite (Hdiff Hne), decide_False by (by intros [? _]). done.
Qed.

(** The observers after [notifier.register( k, observer )]: as they
    were when it throws. *)
Lemma observers_of_register k observer n (ns : @Notifier.state loc Body) :
  observers_of n (state_of (notifier_register k observer ns)) = observers_of n ns ∨
  n = k ∧
  observers_of n (state_of (notifier_register k observer ns)) = observers_of n ns ++ [observer].
Proof.
  rewrite NotifierFacts.register_outcome.
  destruct (Notifier.observerMap ns !! k) as [observers|] eqn:Hk;
    [|destruct (inherited k); [by left|]];
    (destruct (decide (n = k)) as [->|Hne];
     [right; split; [done|]; unfold Notifier.observers_of; simpl; by rewrite lookup_insert_eq
     |left; unfold Notifier.observers_of; simpl; by rewrite lookup_insert_ne]).
Qed.

Lemma Permutation_option_list {A} (l : list A) (x : option A) :
  l ≡ₚ option_list x → l = option_list x.
Proof.
  destruct x; simpl; [apply Permutation_singleton_r|apply Permutation_nil_r].
Qed.

Lemma filter_deliveries (P : @Notifier.Observer loc → Prop) `{∀ x, Decision (P x)}
  (notification : @Notifier.Notification Body) (l : list (@Notifier.Observer loc)) :
  filter (λ t : @Notifier.Observer loc * @Notifier.Notification Body, P t.1)
         (map (λ observer, (observer, notification)) l) =
  map (λ observer, (observer, notification)) (filter P l).
Proof.
  induction l as [|x l IH]; [done|]. simpl map. destruct (decide (P x)).
  - rewrite (filter_cons_True P), filter_cons_True by done. simpl. by rewrite IH.
  - rewrite (filter_cons_False P), filter_cons_False by done. done.
Qed.

Lemma has_false n (s : state) :
  has n s = false ↔ commandMap s !! n = None ∧ inherited n = None.
Proof. apply RegistriesFacts.defined_false. Qed.

(** What a call keeps: each notification has the command of
    [commandMap] as its observer on the controller, and no other, and
    the dispatcher is as it was. *)
Lemma exec_commands c (s : state) :
  foreign c →
  (∀ n, commands_of n s = option_list (commandMap s !! n)) →
  let s' := state_of (exec c s) in
  (∀ n, commands_of n s' = option_list (commandMap s' !! n)) ∧
  dispatcher (notifier s') = dispatcher (notifier s).
Proof.
  intros Hc Hs. destruct c as [k fn|k|k [observer|ctx]]; simpl in *.
  - unfold Controller.register. destruct (Controller.has k s) eqn:Hhas.
    { by destruct name. }
    apply has_false in Hhas as [Hnone Hk]. simpl.
    rewrite (NotifierFacts.register_ordinary _ _ _ Hk). simpl. split; [|done].
    intros n. specialize (Hs n). unfold Controller.commands_of in *. simpl.
    unfold Notifier.observers_of at 1. simpl. destruct (decide (n = k)) as [->|Hne].
    + rewrite !lookup_insert_eq. simpl. rewrite filter_app, Hs, Hnone. simpl.
      rewrite filter_cons_True by done. done.
    + rewrite !lookup_insert_ne by done. apply Hs.
  - unfold Controller.remove.
    assert (let s' := state_of
                        match notifier_remove k controller (notifier s) with
                        | Returned n =>
                            Returned {| commandMap := delete k (commandMap s); notifier := n |}
                        | Thrown e n =>
                            Thrown e {| commandMap := commandMap s; notifier := n |}
                        end in
            (∀ n, commands_of n s' = option_list (commandMap s' !! n)) ∧
            dispatcher (notifier s') = dispatcher (notifier s)) as Hremove.
    { destruct (NotifierFacts.remove_outcome (Ctx:=loc) Nat.eqb k controller (notifier s))
        as [Hr|(Hr & _)]; rewrite Hr; simpl; [|by destruct s].
      split; [|apply NotifierFacts.remove_dispatcher].
      intros n. specialize (Hs n). unfold Controller.commands_of in *. simpl.
      apply Permutation_option_list. rewrite commands_of_remove.
      destruct (decide (n = k)) as [->|Hne].
      + rewrite decide_True, lookup_delete_eq by done. done.
      + rewrite decide_False, lookup_delete_ne by first [done|by intros [? _]].
        by rewrite Hs. }
    by destruct (read (commandMap s) k).
  - assert (state_of
              match notifier_register k observer (notifier s) with
              | Returned n => Returned {| commandMap := commandMap s; notifier := n |}
              | Thrown e n => Thrown e {| commandMap := commandMap s; notifier := n |}
              end
            = {| commandMap := commandMap s;
                 notifier := state_of (notifier_register k observer (notifier s)) |}) as ->
      by (by destruct (notifier_register k observer (notifier s))).
    split; [|apply NotifierFacts.register_dispatcher].
    intros n. specialize (Hs n). unfold Controller.commands_of in *. simpl.
    destruct (observers_of_register k observer n (notifier s)) as [->|[-> ->]]; [done|].
    rewrite filter_app, filter_cons_False, filter_nil, app_nil_r; done.
  - assert (state_of
              match notifier_remove k ctx (notifier s) with
              | Returned n => Returned {| commandMap := commandMap s; notifier := n |}
              | Thrown e n => Thrown e {| commandMap := commandMap s; notifier := n |}
              end
            = {| commandMap := commandMap s;
                 notifier := state_of (notifier_remove k ctx (notifier s)) |}) as ->
      by (by destruct (notifier_remove k ctx (notifier s))).
    split; [|apply NotifierFacts.remove_dispatcher].
    intros n. specialize (Hs n). unfold Controller.commands_of in *. simpl.
    apply Permutation_option_list. rewrite commands_of_remove.
    rewrite decide_False by (by intros [_ ?]). by rewrite Hs.
Qed.

(** X20.  Whatever is registered with the controller and removed from it,
    the calls returning or throwing, and the rest of the program using
    other contexts for its observers, a notification has one observer
    on the controller when a command is stored for it, the one in
    [commandMap], and none when no command is; so a broadcast of a
    notification of an ordinary name, when the observing functions
    return and broadcast nothing to the controller, queues one delivery
    to the controller, for the command, or none. *)
Theorem one_command_per_notification (cs : list call) :
  Forall foreign cs →
  let s := execs cs initial in
  (∀ n, commands_of n s = option_list (commandMap s !! n)) ∧
  (∀ n, inherited n = None → has n s = true ↔ commands_of n s ≠ []) ∧
  (∀ notification,
     inherited (Notifier.name notification) = None →
     discreet (λ t, on_controller t.1) →
     ∃ n',
       notify notification (notifier s) = Returned n' ∧
       filter (λ t : @Notifier.Observer loc * @Notifier.Notification Body, on_controller t.1)
              (deliveries n') =
       map (λ observer, (observer, notification))
           (option_list (commandMap s !! Notifier.name notification))).
Proof.
  intros Hcs s.
  assert ((∀ n, commands_of n s = option_list (commandMap s !! n)) ∧
          dispatcher (notifier s) = dispatcher Notifier.initial) as [H Hd].
  { unfold s. clear s.
    assert ((∀ n, commands_of n initial = option_list (commandMap initial !! n)) ∧
            dispatcher (notifier initial) = dispatcher Notifier.initial) as Hinit.
    { split; [|done]. intros n. unfold Controller.commands_of. simpl. by rewrite lookup_empty. }
    revert Hinit. generalize initial.
    induction Hcs as [|c cs Hc Hcs IH]; intros s [Hs Hd]; [done|].
    unfold Controller.execs. cbn [foldl]. apply IH.
    destruct (exec_commands c s Hc Hs) as [Hs' Hd']. split; [done|]. by rewrite Hd'. }
  split_and!; [done| |].
  - intros n Hn. rewrite H. unfold Controller.has.
    rewrite (NotifierFacts.defined_ordinary _ _ Hn), bool_decide_eq_true.
    destruct (commandMap s !! n); simpl.
    + split; [done|by eexists].
    + split; [by intros [? ?]|done].
  - intros notification Hname Hdiscreet.
    destruct (NotifierFacts.notify_settled (Ctx:=loc) Nat.eqb o handler _ notification
                (notifier s) Hdiscreet) as (n' & Hn' & _ & Hdel & _); [|done|].
    { apply (NotifierFacts.consistent_dispatcher Notifier.initial); [done|].
      apply NotifierFacts.initial_consistent. }
    exists n'. split; [done|]. etrans; [exact Hdel|].
    rewrite (NotifierFacts.deliveries_dispatcher _ _ Hd). simpl.
    pose proof (filter_deliveries on_controller notification
                  (observers_of (Notifier.name notification) (notifier s))) as Hf.
    etrans; [exact Hf|]. f_equal. apply H.
Qed.

(** X21.  A command registered for a notification which has none, and whose
    name is an ordinary one, is what [get] gives; a second registration
    for the notification throws; and [remove] takes the command away,
    with every observer of the notification whose context is the
    controller, and leaves the other observers and the other
    notifications. *)
Theorem command_register_then (n : string) (fn : nat) (s : state) :
  has n s = false →
  let observer := {| Notifier.fn := fn; Notifier.context := controller |} in
  ∃ s' s'',
    register n fn s = Returned s' ∧
    get n s' = Own observer ∧
    observers_of n (notifier s') = observers_of n (notifier s) ++ [observer] ∧
    (∀ fn', ∃ e, register n fn' s' = Thrown e s') ∧
    remove n s' = Returned s'' ∧
    commandMap s'' = commandMap s ∧
    observers_of n (notifier s'') ≡ₚ filter (kept controller) (observers_of n (notifier s)) ∧
    (∀ k, k ≠ n → observers_of k (notifier s'') = observers_of k (notifier s)) ∧
    dispatcher (notifier s'') = dispatcher (notifier s).
Proof.
  intros Hfree observer. unfold Controller.register. rewrite Hfree.
  apply has_false in Hfree as [Hnone Hn].
  rewrite (NotifierFacts.register_ordinary _ _ _ Hn). cbn [notifier commandMap].
  set (n1 := Notifier.set_observerMap _ (notifier s)).
  destruct (NotifierFacts.remove_outcome (Ctx:=loc) Nat.eqb n controller n1)
    as [Hr|(_ & _ & m & Hm)]; [|by rewrite Hn in Hm].
  destruct (RegistriesFacts.remove_observers n controller n1 n) as [Hsame _].
  assert (∀ k, observers_of k n1 =
               if decide (k = n) then observers_of k (notifier s) ++ [observer]
               else observers_of k (notifier s)) as Hn1.
  { intros k. unfold Notifier.observers_of at 1. unfold n1. simpl.
    destruct (decide (k = n)) as [->|Hne].
    - by rewrite lookup_insert_eq.
    - by rewrite lookup_insert_ne. }
  set (s1 := {| commandMap := <[n := observer]> (commandMap s); notifier := n1 |} : state).
  set (s2 := {| commandMap := delete n (commandMap s1);
                notifier := state_of (notifier_remove n controller n1) |} : state).
  assert (has n s1 = true) as Hhas.
  { unfold Controller.has. simpl. by rewrite RegistriesFacts.defined_insert, decide_True. }
  assert (read (commandMap s1) n = Own observer) as Hread
    by apply NotifierFacts.read_stored, lookup_insert_eq.
  exists s1, s2. split_and!.
  - done.
  - unfold Controller.get. by rewrite Hhas.
  - simpl. by rewrite Hn1, decide_True.
  - intros fn'. unfold Controller.register. rewrite Hhas. destruct name; by eexists.
  - unfold Controller.remove. rewrite Hread. simpl. by rewrite Hr.
  - simpl. by apply delete_insert_id.
  - simpl. rewrite (Hsame eq_refl), Hn1, decide_True by done.
    rewrite filter_app, filter_cons_False, filter_nil, app_nil_r; [done|].
    unfold Notifier.kept. simpl. by rewrite Nat.eqb_refl.
  - intros k Hne. simpl.
    destruct (RegistriesFacts.remove_observers n controller n1 k) as [_ Hdiff].
    etrans; [exact (Hdiff Hne)|]. by rewrite Hn1, decide_False.
  - simpl. by rewrite NotifierFacts.remove_dispatcher.
Qed.

End facts.

Lemma one_command_per_notification_witness :
  commands_of 9
    "tick"
    (execs 9 (Some "")
       [Register "tick" 0;
        Elsewhere "tick" (inl {| Notifier.fn := 1; Notifier.context := 7%nat |});
        Register "tick" 2; Remove "tock"; Remove "toString"] (@initial Z))
  = [{| Notifier.fn := 0; Notifier.context := 9%nat |}].
Proof.
  etrans.
  - refine (proj1 (one_command_per_notification 9%nat (Some ""%string) Notifier.quiet
                     Notifier.default_options
                     [Register "tick" 0;
                      Elsewhere "tick" (inl {| Notifier.fn := 1; Notifier.context := 7%nat |});
                      Register "tick" 2; Remove "tock"; Remove "toString"] _) "tick"%string).
    repeat (apply Forall_cons_2; [by simpl|]). apply Forall_nil_2.
  - by vm_compute.
Defined.

Lemma command_register_then_witness :
  ∃ s', register 9 (Some "") "tick" 0 (@initial Z) = Returned s' ∧
        get "tick" s' = Own {| Notifier.fn := 0; Notifier.context := 9%nat |}.
Proof.
  destruct (command_register_then 9%nat (Some ""%string) "tick" 0%nat (@initial Z))
    as (s' & s'' & Hregister & Hget & _).
  - by vm_compute.
  - by exists s'.
Defined.

End ControllerFacts.
